(** * Databricks SQL formatter: lexer, keyword merging and format engine

    A shallow embedding of [src/parser/tokenizer.ts] and
    [src/formatter/formatter.ts], and the properties of the specification
    checked against it.

    JavaScript strings are sequences of UTF-16 code units; a code unit is a
    number ([N]), a string a list of code units.  String constants of the
    source are written [lit "..."]. *)

From Stdlib Require Import List NArith ZArith Bool Lia Ascii.
From Stdlib Require String.
Import String.StringSyntax.
Delimit Scope string_scope with string.
Local Open Scope string_scope.
Local Open Scope list_scope.
Import ListNotations.

Local Open Scope N_scope.

(* ===================================================================== *)
(** * Strings *)
(* ===================================================================== *)

Definition char := N.
Definition jsstring := list char.

Definition lit (s : String.string) : jsstring :=
  map N_of_ascii (String.list_ascii_of_string s).

Definition SP : char := 32.
Definition TAB : char := 9.
Definition LF : char := 10.
Definition CR : char := 13.

Definition inRange (lo hi c : char) : bool := ((lo <=? c) && (c <=? hi))%N.

(** [/[0-9]/], [/[0-9.]/], [/[a-zA-Z_]/] and [/[a-zA-Z0-9_]/] *)
Definition isDigit (c : char) : bool := inRange 48 57 c.
Definition isDigitOrDot (c : char) : bool := isDigit c || (c =? 46)%N.
Definition isUpperAZ (c : char) : bool := inRange 65 90 c.
Definition isLowerAZ (c : char) : bool := inRange 97 122 c.
Definition isWordStart (c : char) : bool := isLowerAZ c || isUpperAZ c || (c =? 95)%N.
Definition isWordChar (c : char) : bool := isWordStart c || isDigit c.

Fixpoint streq (a b : jsstring) : bool :=
  match a, b with
  | [], [] => true
  | x :: a', y :: b' => (x =? y)%N && streq a' b'
  | _, _ => false
  end.

(** [String.prototype.toUpperCase] and [toLowerCase] on the letters a-z and
    A-Z.  Every string the program passes to them is made of the characters
    [[A-Za-z0-9_]] and spaces (a lexed word, or a keyword text), where the
    two methods act on each code unit as below. *)
Definition upperChar (c : char) : char := if isLowerAZ c then (c - 32)%N else c.
Definition lowerChar (c : char) : char := if isUpperAZ c then (c + 32)%N else c.
Definition toUpperCase (s : jsstring) : jsstring := map upperChar s.
Definition toLowerCase (s : jsstring) : jsstring := map lowerChar s.

(** White space and line terminators of ECMAScript: what [trim] strips and
    what [\s] matches. *)
Definition isJsSpace (c : char) : bool :=
  (inRange 9 13 c || (c =? 32) || (c =? 160) || (c =? 5760)
   || inRange 8192 8202 c || (c =? 8232) || (c =? 8233) || (c =? 8239)
   || (c =? 8287) || (c =? 12288) || (c =? 65279))%N.

Fixpoint dropWhile (p : char -> bool) (s : jsstring) : jsstring :=
  match s with
  | [] => []
  | c :: s' => if p c then dropWhile p s' else s
  end.

(** [s.replace(/[\s\r\n]+$/, '')] *)
Definition trimEnd (s : jsstring) : jsstring := rev (dropWhile isJsSpace (rev s)).
Definition trimStart (s : jsstring) : jsstring := dropWhile isJsSpace s.
(** [s.trim()] *)
Definition trim (s : jsstring) : jsstring := trimEnd (trimStart s).

(** The prefix of [s] whose characters satisfy [p], and what follows it:
    [while (i < input.length && p(input[i])) acc += input[i++]]. *)
Fixpoint span (p : char -> bool) (s : jsstring) : jsstring * jsstring :=
  match s with
  | [] => ([], [])
  | c :: s' =>
      if p c then let (a, r) := span p s' in (c :: a, r) else ([], s)
  end.

(* ===================================================================== *)
(** * Tokens *)
(* ===================================================================== *)

(** [enum TokenType] of [parser/tokens.ts], with the [DollarQuotedString]
    member that the tokenizer and the formatter use.  [String_] and
    [Parameter_] are the members [String] and [Parameter]. *)
Inductive TokenType :=
| Keyword | Identifier | Number | String_ | Operator | Comma | OpenParen
| CloseParen | Semicolon | Dot | Whitespace | Comment | BlockComment
| Newline | Backtick | Parameter_ | DollarQuotedString | EOF.

Definition TokenType_eqb (a b : TokenType) : bool :=
  match a, b with
  | Keyword, Keyword | Identifier, Identifier | Number, Number
  | String_, String_ | Operator, Operator | Comma, Comma
  | OpenParen, OpenParen | CloseParen, CloseParen | Semicolon, Semicolon
  | Dot, Dot | Whitespace, Whitespace | Comment, Comment
  | BlockComment, BlockComment | Newline, Newline | Backtick, Backtick
  | Parameter_, Parameter_ | DollarQuotedString, DollarQuotedString
  | EOF, EOF => true
  | _, _ => false
  end.

(** [interface Token] *)
Record Token := mkToken {
  type : TokenType;
  value : jsstring;
  original : option jsstring
}.

Definition tok (ty : TokenType) (v : jsstring) : Token := mkToken ty v None.

Definition isType (ty : TokenType) (t : Token) : bool := TokenType_eqb (type t) ty.

(** [t.type === TokenType.Whitespace || t.type === TokenType.Newline] *)
Definition isBlank (t : Token) : bool := isType Whitespace t || isType Newline t.

(** [t.type === TokenType.Keyword && t.value === v] *)
Definition isKw (v : String.string) (t : Token) : bool :=
  isType Keyword t && streq (value t) (lit v).

(** [token.original ?? token.value]: the text the token was read from. *)
Definition sourceText (t : Token) : jsstring :=
  match original t with
  | Some o => o
  | None => value t
  end.

(* ===================================================================== *)
(** * Outcomes of a call *)
(* ===================================================================== *)

Inductive JsError := RangeError.

(** A call returns a value, throws, or (in the model only) stops because
    the loop counter given to it was too small. *)
Inductive outcome (A : Type) :=
| Returns (a : A)
| Throws (e : JsError)
| OutOfFuel.
Arguments Returns {A} a.
Arguments Throws {A} e.
Arguments OutOfFuel {A}.

Definition omap {A B} (f : A -> B) (o : outcome A) : outcome B :=
  match o with
  | Returns a => Returns (f a)
  | Throws e => Throws e
  | OutOfFuel => OutOfFuel
  end.

(* ===================================================================== *)
(** * The lexer ([parser/tokenizer.ts]) *)
(* ===================================================================== *)

Definition nextIs (c : char) (s : jsstring) : bool :=
  match s with
  | c' :: _ => (c' =? c)%N
  | [] => false
  end.

(** Scan up to and including the two-character delimiter [d1 d2], or to the
    end of the input when it does not occur (block comments, dollar-quoted
    strings, [{{ }}] parameters). *)
Fixpoint scanUntil2 (d1 d2 : char) (s : jsstring) : jsstring * jsstring :=
  match s with
  | [] => ([], [])
  | c :: s' =>
      if (c =? d1)%N && nextIs d2 s' then ([d1; d2], tl s')
      else let (b, r) := scanUntil2 d1 d2 s' in (c :: b, r)
  end.

(** Scan up to and including the delimiter [d], or to the end of the input
    (quoted identifiers, backtick identifiers, [${ }] parameters). *)
Definition scanUntil1 (d : char) (s : jsstring) : jsstring * jsstring :=
  let (b, r) := span (fun c => negb (c =? d)%N) s in
  match r with
  | [] => (b, [])
  | _ :: r' => (b ++ [d], r')
  end.

(** The body of a single-quoted string after its opening quote: a doubled
    quote is kept as two characters, a single one ends the string. *)
Fixpoint scanString (s : jsstring) : jsstring * jsstring :=
  match s with
  | [] => ([], [])
  | c :: s' =>
      if (c =? 39)%N then
        match s' with
        | c2 :: s'' =>
            if (c2 =? 39)%N
            then let (b, r) := scanString s'' in (39%N :: 39%N :: b, r)
            else ([39%N], s')
        | [] => ([39%N], s')
        end
      else let (b, r) := scanString s' in (c :: b, r)
  end.

(** The number branch: a run of [[0-9.]], then an optional exponent. *)
Definition scanNumber (s : jsstring) : jsstring * jsstring :=
  let (num, r) := span isDigitOrDot s in
  match r with
  | e :: r1 =>
      if (e =? 101)%N || (e =? 69)%N then
        let (sign, r2) :=
          match r1 with
          | g :: r1' => if (g =? 43)%N || (g =? 45)%N then ([g], r1') else ([], r1)
          | [] => ([], r1)
          end in
        let (ds, r3) := span isDigit r2 in
        (num ++ e :: sign ++ ds, r3)
      else (num, r)
  | [] => (num, r)
  end.

Definition twoCharOperators : list (char * char) :=
  [(33, 61); (60, 62); (62, 61); (60, 61); (124, 124); (45, 62)]%N.

Definition oneCharOperators : list char :=
  [43; 45; 42; 47; 37; 61; 60; 62; 124; 38; 94; 126; 33]%N.

Definition isTwoCharOperator (c : char) (s : jsstring) : bool :=
  match s with
  | c2 :: _ => existsb (fun p => (fst p =? c) && (snd p =? c2))%N twoCharOperators
  | [] => false
  end.

Definition isOneCharOperator (c : char) : bool :=
  existsb (fun o => (o =? c)%N) oneCharOperators.

Section Lexer.

(** [KEYWORDS.has] of [parser/keywords.ts], a file that is not part of the
    sources: the lexer is stated over any keyword set. *)
Variable KEYWORDS : jsstring -> bool.

(** One iteration of the [while (i < input.length)] loop on the input
    [c :: s] that starts at position [i]: the token pushed and the input
    from the new position. *)
Definition lexOne (c : char) (s : jsstring) : Token * jsstring :=
  if (c =? SP)%N || (c =? TAB)%N then
    let (ws, r) := span (fun x => (x =? SP) || (x =? TAB))%N (c :: s) in
    (tok Whitespace ws, r)
  else if (c =? LF)%N || (c =? CR)%N then
    if (c =? CR)%N && nextIs LF s then (tok Newline [CR; LF], tl s)
    else (tok Newline [c], s)
  else if (c =? 45)%N && nextIs 45%N s then
    let (cm, r) := span (fun x => negb (x =? LF)%N) (c :: s) in
    (tok Comment cm, r)
  else if (c =? 47)%N && nextIs 42%N s then
    let (b, r) := scanUntil2 42%N 47%N (tl s) in
    (tok BlockComment (47%N :: 42%N :: b), r)
  else if (c =? 39)%N then
    let (b, r) := scanString s in (tok String_ (39%N :: b), r)
  else if (c =? 34)%N then
    let (b, r) := scanUntil1 34%N s in (tok Identifier (34%N :: b), r)
  else if (c =? 96)%N then
    let (b, r) := scanUntil1 96%N s in (tok Backtick (96%N :: b), r)
  else if isDigit c || ((c =? 46)%N && match s with d :: _ => isDigit d | [] => false end) then
    let (num, r) := scanNumber (c :: s) in (tok Number num, r)
  else if (c =? 40)%N then (tok OpenParen [c], s)
  else if (c =? 41)%N then (tok CloseParen [c], s)
  else if (c =? 44)%N then (tok Comma [c], s)
  else if (c =? 59)%N then (tok Semicolon [c], s)
  else if (c =? 46)%N then (tok Dot [c], s)
  else if isTwoCharOperator c s then (tok Operator (c :: firstn 1 s), tl s)
  else if isOneCharOperator c then (tok Operator [c], s)
  else if (c =? 36)%N && nextIs 36%N s then
    let (b, r) := scanUntil2 36%N 36%N (tl s) in
    (tok DollarQuotedString (36%N :: 36%N :: b), r)
  else if (c =? 36)%N && nextIs 123%N s then
    let (b, r) := scanUntil1 125%N (tl s) in
    (tok Parameter_ (36%N :: 123%N :: b), r)
  else if (c =? 123)%N && nextIs 123%N s then
    let (b, r) := scanUntil2 125%N 125%N (tl s) in
    (tok Parameter_ (123%N :: 123%N :: b), r)
  else if (c =? 58)%N || (c =? 64)%N then
    let (w, r) := span isWordChar s in (tok Parameter_ (c :: w), r)
  else if isWordStart c then
    let (word, r) := span isWordChar (c :: s) in
    let upper := toUpperCase word in
    if KEYWORDS upper then (mkToken Keyword upper (Some word), r)
    else (tok Identifier word, r)
  else (tok Operator [c], s).

(** The [while] loop, with a bound on its number of iterations. *)
Fixpoint tokenizeLoop (fuel : nat) (input : jsstring) : outcome (list Token) :=
  match input with
  | [] => Returns [tok EOF []]
  | c :: s =>
      match fuel with
      | O => OutOfFuel
      | S fuel' =>
          let (t, r) := lexOne c s in
          omap (cons t) (tokenizeLoop fuel' r)
      end
  end.

(** [tokenize(input)]: every iteration consumes at least one character
    ([lexOne_shorter]), so [input.length] iterations are enough. *)
Definition tokenize (input : jsstring) : outcome (list Token) :=
  tokenizeLoop (length input) input.

End Lexer.

Close Scope N_scope.

(* ===================================================================== *)
(** * The keyword-merge pass ([mergeClauseKeywords]) *)
(* ===================================================================== *)

(** The [mergeables] record: keyword text, and the suffix phrases it may
    merge with, in the order they are tried. *)
Definition mergeables : list (String.string * list String.string) :=
  [ ("GROUP", ["BY"]); ("ORDER", ["BY"]); ("DISTRIBUTE", ["BY"]);
    ("SORT", ["BY"]); ("CLUSTER", ["BY"]); ("PARTITION", ["BY"]);
    ("INSERT", ["INTO"; "OVERWRITE"]); ("MERGE", ["INTO"]);
    ("LEFT", ["JOIN"; "OUTER JOIN"; "SEMI JOIN"; "ANTI JOIN"]);
    ("RIGHT", ["JOIN"; "OUTER JOIN"]); ("FULL", ["JOIN"; "OUTER JOIN"]);
    ("INNER", ["JOIN"]); ("CROSS", ["JOIN"]); ("NOT", ["IN"]);
    ("UNION", ["ALL"]); ("LATERAL", ["VIEW"]); ("ZORDER", ["BY"]);
    ("FULL OUTER", ["JOIN"]); ("LEFT OUTER", ["JOIN"]);
    ("RIGHT OUTER", ["JOIN"]); ("LEFT SEMI", ["JOIN"]);
    ("LEFT ANTI", ["JOIN"]) ]%string.

(** [mergeables[v]], on the entries of the record.  The pass is applied to
    the tokens of the lexer, whose keyword texts are made of [[A-Z0-9_]]
    ([keyword_values_upper]) and so are never the name of a property that
    the record inherits. *)
Fixpoint lookupIn (tbl : list (String.string * list String.string)) (v : jsstring)
  : option (list jsstring) :=
  match tbl with
  | [] => None
  | (k, sfx) :: tbl' => if streq v (lit k) then Some (map lit sfx) else lookupIn tbl' v
  end.

Definition mergeablesOf (v : jsstring) : option (list jsstring) := lookupIn mergeables v.

(** [suffix.split(' ')] *)
Fixpoint splitSpaces (s : jsstring) : list jsstring :=
  match s with
  | [] => [[]]
  | c :: s' =>
      if (c =? SP)%N then [] :: splitSpaces s'
      else match splitSpaces s' with
           | p :: ps => (c :: p) :: ps
           | [] => [[c]]
           end
  end.

(** [while (j < tokens.length && blank(tokens[j])) j++]: how far [j] moves. *)
Fixpoint skipBlanks (ts : list Token) : nat :=
  match ts with
  | t :: ts' => if isBlank t then S (skipBlanks ts') else 0
  | [] => 0
  end.

(** The [for (const part of parts)] loop on the tokens after position [i]:
    when every part is found, the number of tokens up to and including the
    last one consumed ([consumed[consumed.length - 1] - i]). *)
Fixpoint matchParts (parts : list jsstring) (ts : list Token) : option nat :=
  match parts with
  | [] => Some 0
  | part :: parts' =>
      let n := skipBlanks ts in
      match skipn n ts with
      | k :: ts' =>
          if isType Keyword k && streq (value k) part
          then option_map (fun m => n + 1 + m) (matchParts parts' ts')
          else None
      | [] => None
      end
  end.

(** The [for (const suffix of suffixes)] loop: the first suffix that
    matches, and how many tokens it takes. *)
Fixpoint firstFit (suffixes : list jsstring) (ts : list Token) : option (jsstring * nat) :=
  match suffixes with
  | [] => None
  | sfx :: more =>
      match matchParts (splitSpaces sfx) ts with
      | Some n => Some (sfx, n)
      | None => firstFit more ts
      end
  end.

(** [{ type: Keyword, value: t.value + ' ' + suffix, original: t.original }] *)
Definition compound (t : Token) (sfx : jsstring) : Token :=
  mkToken Keyword (value t ++ SP :: sfx) (original t).

(** The outer [for] loop.  Assigning [i] the index of the last consumed
    token makes the loop pass over the tokens in between: [skip] counts the
    tokens still to pass over. *)
Fixpoint mergeFrom (skip : nat) (ts : list Token) : list Token :=
  match ts with
  | [] => []
  | t :: rest =>
      match skip with
      | S k => mergeFrom k rest
      | O =>
          if isType Keyword t then
            match mergeablesOf (value t) with
            | Some suffixes =>
                match firstFit suffixes rest with
                | Some (sfx, n) => compound t sfx :: mergeFrom n rest
                | None => t :: mergeFrom 0 rest
                end
            | None => t :: mergeFrom 0 rest
            end
          else t :: mergeFrom 0 rest
      end
  end.

Definition mergeClauseKeywords (tokens : list Token) : list Token := mergeFrom 0 tokens.

(* ===================================================================== *)
(** * Unquoted bodies after LANGUAGE ... AS ([mergeUnquotedLanguageBody]) *)
(* ===================================================================== *)

Definition isStatementEnd (t : Token) : bool := isType Semicolon t || isType EOF t.

(** The tokens from [ts] up to the next [;] or end-of-input token. *)
Fixpoint bodyTokens (ts : list Token) : list Token :=
  match ts with
  | [] => []
  | t :: ts' => if isStatementEnd t then [] else t :: bodyTokens ts'
  end.

(** What a token adds to [body]. *)
Definition bodyText (t : Token) : jsstring :=
  if isType Newline t then value t
  else if isType Whitespace t then value t
  else sourceText t.

(** At a [LANGUAGE] keyword followed by [rest]: when the tokens after it are
    an identifier or keyword, [AS], and then something that is not a quoted
    or dollar-quoted string, the number of tokens from [LANGUAGE] to [AS]
    ([asPos - i]). *)
Definition languageHeader (rest : list Token) : option nat :=
  let n1 := skipBlanks rest in
  match skipn n1 rest with
  | [] => None
  | lang :: r1 =>
      if negb (isType Identifier lang || isType Keyword lang) then None
      else
        let n2 := skipBlanks r1 in
        match skipn n2 r1 with
        | [] => None
        | a :: r2 =>
            if negb (isKw "AS" a) then None
            else
              match skipn (skipBlanks r2) r2 with
              | [] => None
              | b :: _ =>
                  if isType DollarQuotedString b || isType String_ b then None
                  else Some (n1 + 1 + n2 + 1)
              end
        end
  end.

Fixpoint languageFrom (skip : nat) (ts : list Token) : list Token :=
  match ts with
  | [] => []
  | t :: rest =>
      match skip with
      | S k => languageFrom k rest
      | O =>
          if negb (isKw "LANGUAGE" t) then t :: languageFrom 0 rest
          else
            match languageHeader rest with
            | None => t :: languageFrom 0 rest
            | Some h =>
                let body := bodyTokens (skipn h rest) in
                let trimmed := trimEnd (concat (map bodyText body)) in
                (t :: firstn h rest)
                  ++ match trimmed with
                     | [] => []
                     | _ :: _ => [tok DollarQuotedString trimmed]
                     end
                  ++ languageFrom (h + length body) rest
            end
      end
  end.

Definition mergeUnquotedLanguageBody (tokens : list Token) : list Token :=
  languageFrom 0 tokens.

(* ===================================================================== *)
(** * The format engine ([formatDatabricksSQL]) *)
(* ===================================================================== *)

Inductive ParenType := Subquery | Grouping | Block | Concat.

Definition ParenType_eqb (a b : ParenType) : bool :=
  match a, b with
  | Subquery, Subquery | Grouping, Grouping | Block, Block | Concat, Concat => true
  | _, _ => false
  end.

(** [interface FormatOptions] and [DEFAULT_OPTIONS] of [formatter/options.ts];
    [indentSize] is a [number]: the model covers its integer values, not the
    fractions, [NaN] and the infinities. *)
Inductive KeywordCase := upper | lower | preserve.
Inductive CommaPosition := leading | trailing.

Record FormatOptions := mkOptions {
  indentSize : Z;
  keywordCase : KeywordCase;
  commaPosition : CommaPosition
}.

Definition DEFAULT_OPTIONS : FormatOptions := mkOptions 2 upper trailing.

(** The local variables of [formatDatabricksSQL].  The two stacks have
    their top at the head of the list. *)
Record State := mkState {
  result : list jsstring;
  indentLevel : Z;
  lineStart : bool;
  statementStart : bool;
  parenStack : list ParenType;
  caseStack : list Z;
  prevMeaningful : option Token;
  ddlContext : bool;
  blockParenPending : bool;
  functionContext : bool;
  afterBlockClose : bool;
  needNewlineBeforeFirstColumn : bool
}.

Definition initialState : State :=
  mkState [] 0 true true [] [] None false false false false false.

(** ** A state and exception monad for the loop body *)

Definition M (A : Type) : Type := State -> outcome (A * State).

Definition ret {A} (a : A) : M A := fun st => Returns (a, st).

Definition bind {A B} (m : M A) (k : A -> M B) : M B :=
  fun st =>
    match m st with
    | Returns (a, st') => k a st'
    | Throws e => Throws e
    | OutOfFuel => OutOfFuel
    end.

Notation "x <- m ;; k" := (bind m (fun x => k))
  (at level 61, m at next level, right associativity).
Notation "m ;; k" := (bind m (fun _ => k))
  (at level 61, right associativity).

Definition throw {A} (e : JsError) : M A := fun _ => Throws e.
Definition get : M State := fun st => Returns (st, st).
Definition modify (f : State -> State) : M unit := fun st => Returns (tt, f st).
Definition when (b : bool) (m : M unit) : M unit := if b then m else ret tt.

(** Assignments to the local variables. *)
Definition push (s : jsstring) : M unit :=
  modify (fun st => mkState (result st ++ [s]) (indentLevel st) (lineStart st)
    (statementStart st) (parenStack st) (caseStack st) (prevMeaningful st)
    (ddlContext st) (blockParenPending st) (functionContext st)
    (afterBlockClose st) (needNewlineBeforeFirstColumn st)).

Definition set_indentLevel (v : Z) : M unit :=
  modify (fun st => mkState (result st) v (lineStart st)
    (statementStart st) (parenStack st) (caseStack st) (prevMeaningful st)
    (ddlContext st) (blockParenPending st) (functionContext st)
    (afterBlockClose st) (needNewlineBeforeFirstColumn st)).

Definition set_lineStart (v : bool) : M unit :=
  modify (fun st => mkState (result st) (indentLevel st) v
    (statementStart st) (parenStack st) (caseStack st) (prevMeaningful st)
    (ddlContext st) (blockParenPending st) (functionContext st)
    (afterBlockClose st) (needNewlineBeforeFirstColumn st)).

Definition set_statementStart (v : bool) : M unit :=
  modify (fun st => mkState (result st) (indentLevel st) (lineStart st)
    v (parenStack st) (caseStack st) (prevMeaningful st)
    (ddlContext st) (blockParenPending st) (functionContext st)
    (afterBlockClose st) (needNewlineBeforeFirstColumn st)).

Definition set_parenStack (v : list ParenType) : M unit :=
  modify (fun st => mkState (result st) (indentLevel st) (lineStart st)
    (statementStart st) v (caseStack st) (prevMeaningful st)
    (ddlContext st) (blockParenPending st) (functionContext st)
    (afterBlockClose st) (needNewlineBeforeFirstColumn st)).

Definition set_caseStack (v : list Z) : M unit :=
  modify (fun st => mkState (result st) (indentLevel st) (lineStart st)
    (statementStart st) (parenStack st) v (prevMeaningful st)
    (ddlContext st) (blockParenPending st) (functionContext st)
    (afterBlockClose st) (needNewlineBeforeFirstColumn st)).

Definition set_prevMeaningful (v : option Token) : M unit :=
  modify (fun st => mkState (result st) (indentLevel st) (lineStart st)
    (statementStart st) (parenStack st) (caseStack st) v
    (ddlContext st) (blockParenPending st) (functionContext st)
    (afterBlockClose st) (needNewlineBeforeFirstColumn st)).

Definition set_ddlContext (v : bool) : M unit :=
  modify (fun st => mkState (result st) (indentLevel st) (lineStart st)
    (statementStart st) (parenStack st) (caseStack st) (prevMeaningful st)
    v (blockParenPending st) (functionContext st)
    (afterBlockClose st) (needNewlineBeforeFirstColumn st)).

Definition set_blockParenPending (v : bool) : M unit :=
  modify (fun st => mkState (result st) (indentLevel st) (lineStart st)
    (statementStart st) (parenStack st) (caseStack st) (prevMeaningful st)
    (ddlContext st) v (functionContext st)
    (afterBlockClose st) (needNewlineBeforeFirstColumn st)).

Definition set_functionContext (v : bool) : M unit :=
  modify (fun st => mkState (result st) (indentLevel st) (lineStart st)
    (statementStart st) (parenStack st) (caseStack st) (prevMeaningful st)
    (ddlContext st) (blockParenPending st) v
    (afterBlockClose st) (needNewlineBeforeFirstColumn st)).

Definition set_afterBlockClose (v : bool) : M unit :=
  modify (fun st => mkState (result st) (indentLevel st) (lineStart st)
    (statementStart st) (parenStack st) (caseStack st) (prevMeaningful st)
    (ddlContext st) (blockParenPending st) (functionContext st)
    v (needNewlineBeforeFirstColumn st)).

Definition set_needNewlineBeforeFirstColumn (v : bool) : M unit :=
  modify (fun st => mkState (result st) (indentLevel st) (lineStart st)
    (statementStart st) (parenStack st) (caseStack st) (prevMeaningful st)
    (ddlContext st) (blockParenPending st) (functionContext st)
    (afterBlockClose st) v).

(** The largest length of a string: [(1 << 29) - 24], the
    [String::kMaxLength] of V8 on 64-bit platforms, the engine that runs the
    extension. *)
Definition MAX_STRING_LENGTH : Z := 536870888.

(** [' '.repeat(n)] for an integer count: a [RangeError] when the count is
    negative, and when the string would be longer than a string can be. *)
Definition repeatSpaces (n : Z) : M jsstring :=
  if (n <? 0)%Z || (MAX_STRING_LENGTH <? n)%Z then throw RangeError
  else ret (repeat SP (Z.to_nat n)).

(** ** Look-ahead helpers *)

Definition CONCAT_FUNCTIONS (v : jsstring) : bool :=
  streq v (lit "CONCAT") || streq v (lit "CONCAT_WS").

Definition NON_FUNCTION_KEYWORDS (v : jsstring) : bool :=
  streq v (lit "IN") || streq v (lit "NOT IN").

Fixpoint findNextNonWhitespace (ts : list Token) : option Token :=
  match ts with
  | [] => None
  | t :: ts' => if negb (isBlank t) then Some t else findNextNonWhitespace ts'
  end.

Definition isComment (t : Token) : bool := isType Comment t || isType BlockComment t.

Fixpoint findNextMeaningful (ts : list Token) : option Token :=
  match ts with
  | [] => None
  | t :: ts' =>
      if negb (isBlank t) && negb (isComment t) then Some t
      else findNextMeaningful ts'
  end.

(** [countTopLevelArgs(tokens, start)], on the tokens from [start]. *)
Fixpoint countTopLevelArgsFrom (depth commas : nat) (ts : list Token) : nat :=
  match ts with
  | [] => commas + 1
  | t :: ts' =>
      if isBlank t then countTopLevelArgsFrom depth commas ts'
      else if isType OpenParen t then countTopLevelArgsFrom (S depth) commas ts'
      else if isType CloseParen t then
        match depth with
        | O => commas + 1
        | S d => countTopLevelArgsFrom d commas ts'
        end
      else if isType Comma t && Nat.eqb depth 0
      then countTopLevelArgsFrom depth (S commas) ts'
      else countTopLevelArgsFrom depth commas ts'
  end.

Definition countTopLevelArgs (ts : list Token) : nat := countTopLevelArgsFrom 0 0 ts.

Section Engine.

(** [CLAUSE_KEYWORDS.has] of [parser/keywords.ts], a file that is not part
    of the sources: the engine is stated over any set of clause keywords. *)
Variable CLAUSE_KEYWORDS : jsstring -> bool.

Variable opts : FormatOptions.

(** [countSelectColumns(tokens, start)], on the tokens from [start]. *)
Fixpoint countSelectColumnsFrom (depth commas : nat) (ts : list Token) : nat :=
  match ts with
  | [] => commas + 1
  | t :: ts' =>
      if isBlank t then countSelectColumnsFrom depth commas ts'
      else if isType EOF t then commas + 1
      else if isType OpenParen t then countSelectColumnsFrom (S depth) commas ts'
      else if isType CloseParen t then
        match depth with
        | O => commas + 1
        | S d => countSelectColumnsFrom d commas ts'
        end
      else if Nat.eqb depth 0 then
        if isType Semicolon t then commas + 1
        else if isType Keyword t && CLAUSE_KEYWORDS (value t) then commas + 1
        else if isType Comma t then countSelectColumnsFrom depth (S commas) ts'
        else countSelectColumnsFrom depth commas ts'
      else countSelectColumnsFrom depth commas ts'
  end.

Definition countSelectColumns (ts : list Token) : nat := countSelectColumnsFrom 0 0 ts.

(** [applyCase(token)]; [token.original || token.value] takes the value
    when [original] is missing or empty. *)
Definition applyCase (token : Token) : jsstring :=
  if negb (isType Keyword token) then value token
  else match keywordCase opts with
       | upper => toUpperCase (value token)
       | lower => toLowerCase (value token)
       | preserve =>
           match original token with
           | Some (c :: o) => c :: o
           | _ => value token
           end
       end.

(** [indent()] and [indent() + ' '.repeat(opts.indentSize)] *)
Definition indent : M jsstring :=
  st <- get ;; repeatSpaces (indentSize opts * indentLevel st).

Definition indentPlus : M jsstring :=
  i <- indent ;; e <- repeatSpaces (indentSize opts) ;; ret (i ++ e).

(** [parenStack.length > 0 ? parenStack[parenStack.length - 1] : null] *)
Definition topParen (st : State) : option ParenType := hd_error (parenStack st).

Definition topIs (p : ParenType) (st : State) : bool :=
  match topParen st with
  | Some q => ParenType_eqb q p
  | None => false
  end.

Definition prevIsType (ty : TokenType) (st : State) : bool :=
  match prevMeaningful st with
  | Some p => isType ty p
  | None => false
  end.

Definition inCase (st : State) : bool :=
  match caseStack st with
  | [] => false
  | _ :: _ => true
  end.

Definition NL : jsstring := [LF].

(** The indentation of token content at a line start:
    [(statementStart || topParen === 'block' (|| topParen === 'concat'))
       ? indent() : indent() + ' '.repeat(opts.indentSize)] *)
Definition contentIndent (withConcat : bool) : M jsstring :=
  st <- get ;;
  if statementStart st || topIs Block st || (withConcat && topIs Concat st)
  then indent else indentPlus.

(** [indent() + (statementStart ? '' : ' '.repeat(opts.indentSize))] *)
Definition parenIndent : M jsstring :=
  st <- get ;;
  if statementStart st then indent else indentPlus.

(** ** The handlers of the loop body, in the order of the source *)

Definition handleComment (token : Token) (rest : list Token) : M unit :=
  st <- get ;;
  when (negb (lineStart st)) (push NL ;; set_lineStart true) ;;
  st <- get ;;
  let needsBlankLine :=
    Nat.ltb 0 (length (result st))
    && negb (statementStart st)
    && negb (prevIsType Comma st)
    && negb (prevIsType Comment st || prevIsType BlockComment st)
    && negb (prevIsType OpenParen st)
    && negb (match prevMeaningful st with Some p => isKw "CASE" p | None => false end) in
  when needsBlankLine (push NL) ;;
  commentIndent <-
    match findNextMeaningful rest with
    | Some nm =>
        if isType Keyword nm then
          let val := value nm in
          if (streq val (lit "WHEN") || streq val (lit "ELSE")) && inCase st then indentPlus
          else if streq val (lit "END") && inCase st then indent
          else if streq val (lit "ON") then indentPlus
          else if CLAUSE_KEYWORDS val then indent
          else if streq val (lit "CASE") then contentIndent false
          else contentIndent true
        else contentIndent true
    | None => contentIndent true
    end ;;
  push (commentIndent ++ value token) ;;
  push NL ;;
  set_lineStart true ;;
  set_prevMeaningful (Some token).

Definition trackDdl (token : Token) : M unit :=
  when (isType Keyword token) (
    let val := value token in
    st <- get ;;
    (if streq val (lit "CREATE") || streq val (lit "ALTER") || streq val (lit "DROP")
     then set_ddlContext true
     else if (streq val (lit "TABLE") || streq val (lit "VIEW")) && ddlContext st
     then set_blockParenPending true
     else if streq val (lit "FUNCTION") && ddlContext st
     then set_functionContext true
     else if streq val (lit "AS") && ddlContext st
     then set_blockParenPending false ;; set_ddlContext false
     else ret tt) ;;
    when (streq val (lit "TBLPROPERTIES")) (set_blockParenPending true)).

Definition handleSemicolon (token : Token) : M unit :=
  push (lit ";" ++ NL ++ NL) ;;
  set_indentLevel 0 ;;
  set_lineStart true ;;
  set_statementStart true ;;
  set_ddlContext false ;;
  set_blockParenPending false ;;
  set_functionContext false ;;
  set_afterBlockClose false ;;
  set_caseStack [] ;;
  set_needNewlineBeforeFirstColumn false ;;
  set_prevMeaningful (Some token).

Definition handleOpenParen (token : Token) (rest : list Token) : M unit :=
  st <- get ;;
  let isSubquery :=
    match findNextNonWhitespace rest with
    | Some n => isType Keyword n && CLAUSE_KEYWORDS (value n)
    | None => false
    end in
  let isBlock := negb isSubquery && blockParenPending st in
  when isBlock (set_blockParenPending false) ;;
  let isConcatExpand :=
    negb isSubquery && negb isBlock
    && match prevMeaningful st with
       | Some p => isType Keyword p && CONCAT_FUNCTIONS (value p)
                   && Nat.ltb 2 (countTopLevelArgs rest)
       | None => false
       end in
  (if isSubquery || isBlock then
     (if lineStart st then (s <- indentPlus ;; push s) else push [SP]) ;;
     push (lit "(") ;;
     set_parenStack ((if isSubquery then Subquery else Block) :: parenStack st) ;;
     set_indentLevel (indentLevel st + 1) ;;
     push NL ;;
     set_lineStart true ;;
     set_statementStart false
   else if isConcatExpand then
     when (lineStart st) (s <- parenIndent ;; push s ;; set_statementStart false) ;;
     push (lit "(") ;;
     set_parenStack (Concat :: parenStack st) ;;
     set_indentLevel (indentLevel st + 1) ;;
     push NL ;;
     set_lineStart true
   else
     (if lineStart st then
        s <- parenIndent ;; push s ;; set_statementStart false
      else
        let isFunctionCall :=
          match prevMeaningful st with
          | Some p =>
              isType Identifier p || isType Backtick p
              || (isType Keyword p && negb (CLAUSE_KEYWORDS (value p))
                  && negb (NON_FUNCTION_KEYWORDS (value p)))
          | None => false
          end in
        when (negb isFunctionCall) (push [SP])) ;;
     push (lit "(") ;;
     set_parenStack (Grouping :: parenStack st) ;;
     set_lineStart false) ;;
  set_prevMeaningful (Some token).

(** A closing parenthesis; with an empty stack nothing is popped and the
    parenthesis counts as a grouping one. *)
Definition handleCloseParen (token : Token) : M unit :=
  st <- get ;;
  let parenType := match parenStack st with p :: _ => p | [] => Grouping end in
  set_parenStack (tl (parenStack st)) ;;
  (if ParenType_eqb parenType Subquery || ParenType_eqb parenType Block
      || ParenType_eqb parenType Concat then
     when (0 <? indentLevel st)%Z (set_indentLevel (indentLevel st - 1)) ;;
     i <- indent ;;
     push (NL ++ i ++ lit ")") ;;
     st' <- get ;;
     when (topIs Grouping st') (set_afterBlockClose true)
   else
     set_afterBlockClose false ;;
     push (lit ")")) ;;
  set_lineStart false ;;
  set_prevMeaningful (Some token).

Definition handleCase (token : Token) : M unit :=
  st <- get ;;
  when (afterBlockClose st)
    (push NL ;; set_lineStart true ;; set_afterBlockClose false) ;;
  st <- get ;;
  when (negb (lineStart st)) (push NL ;; set_lineStart true) ;;
  s <- contentIndent false ;;
  push s ;;
  push (applyCase token) ;;
  st <- get ;;
  set_caseStack (indentLevel st :: caseStack st) ;;
  set_indentLevel (indentLevel st + 1) ;;
  set_lineStart false ;;
  set_statementStart false ;;
  set_prevMeaningful (Some token).

(** [WHEN] and [ELSE] inside a CASE block *)
Definition handleWhenElse (token : Token) : M unit :=
  st <- get ;;
  when (negb (lineStart st)) (push NL) ;;
  s <- indentPlus ;;
  push (s ++ applyCase token) ;;
  set_lineStart false ;;
  set_statementStart false ;;
  set_prevMeaningful (Some token).

(** [END] closing a CASE block; the handler runs only when the CASE stack
    is not empty, so [caseStack.pop()] finds a level. *)
Definition handleEnd (token : Token) : M unit :=
  st <- get ;;
  when (negb (lineStart st)) (push NL) ;;
  s <- indent ;;
  push (s ++ applyCase token) ;;
  match caseStack st with
  | lvl :: more => set_indentLevel lvl ;; set_caseStack more
  | [] => ret tt
  end ;;
  set_lineStart false ;;
  set_statementStart false ;;
  set_prevMeaningful (Some token).

(** [COMMENT] in a function definition *)
Definition handleCommentKeyword (token : Token) : M unit :=
  st <- get ;;
  when (negb (lineStart st) && Nat.ltb 0 (length (result st))) (push NL) ;;
  s <- indent ;;
  push (s ++ applyCase token) ;;
  set_lineStart false ;;
  set_statementStart false ;;
  set_prevMeaningful (Some token).

Definition handleClause (token : Token) (rest : list Token) : M unit :=
  st <- get ;;
  when (negb (lineStart st) && Nat.ltb 0 (length (result st))) (push NL) ;;
  extraIndent <- (if streq (value token) (lit "ON")
                  then repeatSpaces (indentSize opts) else ret []) ;;
  s <- indent ;;
  push (s ++ extraIndent ++ applyCase token) ;;
  set_lineStart false ;;
  set_statementStart false ;;
  when (streq (value token) (lit "SELECT") && Nat.ltb 1 (countSelectColumns rest))
    (set_needNewlineBeforeFirstColumn true) ;;
  set_prevMeaningful (Some token).

Definition handleComma (token : Token) : M unit :=
  st <- get ;;
  (if topIs Grouping st && negb (afterBlockClose st) then
     push (lit ",") ;; set_lineStart false
   else match commaPosition opts with
        | trailing => push (lit "," ++ NL) ;; set_lineStart true
        | leading => i <- indent ;; push (NL ++ i ++ lit ",") ;; set_lineStart false
        end) ;;
  set_afterBlockClose false ;;
  set_prevMeaningful (Some token).

Definition handleDot (token : Token) : M unit :=
  push (lit ".") ;; set_lineStart false ;; set_prevMeaningful (Some token).

Definition handleAfterDot (token : Token) : M unit :=
  push (applyCase token) ;; set_lineStart false ;; set_prevMeaningful (Some token).

(** [s.startsWith('\n') || s.startsWith('\r')] *)
Definition startsWithLineBreak (s : jsstring) : bool := nextIs LF s || nextIs CR s.

Definition handleDollarQuoted (token : Token) : M unit :=
  st <- get ;;
  (if negb (lineStart st) then
     if prevIsType OpenParen st then ret tt
     else if startsWithLineBreak (value token) then ret tt
     else push [SP]
   else s <- contentIndent true ;; push s) ;;
  push (value token) ;;
  set_lineStart false ;;
  set_statementStart false ;;
  set_prevMeaningful (Some token).

Definition handleDefault (token : Token) : M unit :=
  st <- get ;;
  when (needNewlineBeforeFirstColumn st)
    (if isType Keyword token
        && (streq (value token) (lit "DISTINCT") || streq (value token) (lit "ALL"))
     then ret tt
     else push NL ;; set_lineStart true ;; set_needNewlineBeforeFirstColumn false) ;;
  st <- get ;;
  when (afterBlockClose st)
    (push NL ;; set_lineStart true ;; set_afterBlockClose false) ;;
  st <- get ;;
  (if negb (lineStart st) then
     if prevIsType OpenParen st then ret tt else push [SP]
   else s <- contentIndent true ;; push s ;; set_lineStart false) ;;
  push (applyCase token) ;;
  set_lineStart false ;;
  set_statementStart false ;;
  set_prevMeaningful (Some token).

(** ** The loop *)

(** How an iteration ends: the loop goes on to the next token, or stops at
    the end-of-input token. *)
Inductive Control := Continue | Break.

(** One iteration of the [for] loop: [token] is [merged[i]] and [rest] the
    tokens from [i + 1]. *)
Definition step (token : Token) (rest : list Token) : M Control :=
  if isBlank token then ret Continue
  else if isComment token then handleComment token rest ;; ret Continue
  else if isType EOF token then ret Break
  else
    trackDdl token ;;
    st <- get ;;
    (if isType Semicolon token then handleSemicolon token
     else if isType OpenParen token then handleOpenParen token rest
     else if isType CloseParen token then handleCloseParen token
     else if isKw "CASE" token then handleCase token
     else if isKw "WHEN" token && inCase st then handleWhenElse token
     else if isKw "ELSE" token && inCase st then handleWhenElse token
     else if isKw "END" token && inCase st then handleEnd token
     else if isKw "COMMENT" token && functionContext st then handleCommentKeyword token
     else if isType Keyword token && CLAUSE_KEYWORDS (value token) then handleClause token rest
     else if isType Comma token then handleComma token
     else if isType Dot token then handleDot token
     else if prevIsType Dot st then handleAfterDot token
     else if isType DollarQuotedString token then handleDollarQuoted token
     else handleDefault token) ;;
    ret Continue.

Fixpoint runLoop (merged : list Token) : M unit :=
  match merged with
  | [] => ret tt
  | token :: rest =>
      c <- step token rest ;;
      match c with
      | Continue => runLoop rest
      | Break => ret tt
      end
  end.

(** The states of the engine, one before each iteration and the one the
    loop ends in; the list stops where an iteration throws. *)
Fixpoint engineStates (merged : list Token) (st : State) : list State :=
  st :: match merged with
        | [] => []
        | token :: rest =>
            match step token rest st with
            | Returns (Continue, st') => engineStates rest st'
            | Returns (Break, st') => [st']
            | _ => []
            end
        end.

(** [result.join('').trim() + '\n'] *)
Definition render (st : State) : jsstring := trim (concat (result st)) ++ NL.

(** The engine on a token sequence. *)
Definition formatTokens (tokens : list Token) : outcome jsstring :=
  let merged := mergeUnquotedLanguageBody (mergeClauseKeywords tokens) in
  match runLoop merged initialState with
  | Returns (_, st) => Returns (render st)
  | Throws e => Throws e
  | OutOfFuel => OutOfFuel
  end.

End Engine.

(** [formatDatabricksSQL(input, options)], over the keyword tables of
    [parser/keywords.ts]; [opts] is the options object after the defaults
    have been merged in. *)
Definition formatDatabricksSQL (KEYWORDS CLAUSE_KEYWORDS : jsstring -> bool)
    (input : jsstring) (opts : FormatOptions) : outcome jsstring :=
  match tokenize KEYWORDS input with
  | Returns tokens => formatTokens CLAUSE_KEYWORDS opts tokens
  | Throws e => Throws e
  | OutOfFuel => OutOfFuel
  end.

(* ===================================================================== *)
(** * Keyword tables for the examples *)
(* ===================================================================== *)

Definition inTable (tbl : list String.string) (v : jsstring) : bool :=
  existsb (fun k => streq v (lit k)) tbl.

(** Modelled from the spec: [parser/keywords.ts], which holds the keyword
    set [KEYWORDS] and its subset [CLAUSE_KEYWORDS], is not part of the
    sources.  The two tables below list keywords that the specification
    names (sections 4.2, 4.4 and 8 and the glossary) and that the expected
    outputs of [test/formatter.test.ts] show in upper case; they are used
    only to run the program on examples.  Every general statement below is
    made for arbitrary tables. *)
Definition KEYWORDS_spec : jsstring -> bool :=
  inTable [ "SELECT"; "FROM"; "WHERE"; "JOIN"; "ON"; "GROUP"; "ORDER"; "BY";
            "LEFT"; "RIGHT"; "FULL"; "INNER"; "CROSS"; "OUTER"; "SEMI"; "ANTI";
            "NOT"; "IN"; "UNION"; "ALL"; "DISTINCT"; "CASE"; "WHEN"; "THEN";
            "ELSE"; "END"; "MERGE"; "INTO"; "INSERT"; "USING"; "MATCHED";
            "UPDATE"; "SET"; "CREATE"; "ALTER"; "DROP"; "TABLE"; "VIEW";
            "FUNCTION"; "AS"; "TBLPROPERTIES"; "COMMENT"; "LANGUAGE"; "WITH";
            "METRICS"; "OVER"; "CONCAT"; "CONCAT_WS"; "COALESCE" ]%string.

(** Modelled from the spec: the clause keywords of [parser/keywords.ts],
    keywords (single or compound) that start a new output line. *)
Definition CLAUSE_KEYWORDS_spec : jsstring -> bool :=
  inTable [ "SELECT"; "FROM"; "WHERE"; "JOIN"; "ON"; "WHEN"; "GROUP BY";
            "ORDER BY"; "LEFT JOIN"; "LEFT OUTER JOIN"; "MERGE INTO";
            "LANGUAGE"; "WITH" ]%string.

(* ===================================================================== *)
(** * Notions used to state the properties *)
(* ===================================================================== *)

(** ** Tokens *)

(** Only keyword tokens carry an [original], and their [value] is its
    upper-cased form. *)
Definition originalOk (t : Token) : Prop :=
  match original t with
  | Some o => type t = Keyword /\ value t = toUpperCase o
  | None => True
  end.

(** The characters of a keyword text: [[A-Z0-9_]]. *)
Definition isKeywordChar (c : char) : bool :=
  isUpperAZ c || isDigit c || (c =? 95)%N.

(** ** Tokens for the examples *)

Definition kwTok (o v : String.string) : Token := mkToken Keyword (lit v) (Some (lit o)).
Definition wsTok : Token := tok Whitespace [SP].
Definition nlTok : Token := tok Newline [LF].
Definition xTok : Token := tok Identifier (lit "x").

(** ** Number tokens *)

(** The number of maximal runs of dots in a text. *)
Fixpoint dotRunsFrom (inRun : bool) (s : jsstring) : nat :=
  match s with
  | [] => 0
  | c :: s' =>
      if (c =? 46)%N
      then (if inRun then 0 else 1) + dotRunsFrom true s'
      else dotRunsFrom false s'
  end.

Definition dotRuns (s : jsstring) : nat := dotRunsFrom false s.

(** A scientific-notation suffix: nothing, or [e]/[E], an optional sign and
    a (possibly empty) run of digits. *)
Definition exponentSuffix (x : jsstring) : Prop :=
  x = [] \/
  exists e sign ds,
    x = e :: sign ++ ds
    /\ (e = 101%N \/ e = 69%N)
    /\ (sign = [] \/ sign = [43%N] \/ sign = [45%N])
    /\ forallb isDigit ds = true.

(** The text of a number token as the lexer builds it: a run of digits and
    dots that starts with a digit or with a dot and a digit, and then an
    optional exponent. *)
Definition numberText (v : jsstring) : Prop :=
  exists d body x,
    v = d :: body ++ x
    /\ forallb isDigitOrDot (d :: body) = true
    /\ (isDigit d = true
        \/ (d = 46%N /\ exists d2 body', body = d2 :: body' /\ isDigit d2 = true))
    /\ exponentSuffix x.

(** ** Phrases of keywords *)

(** The words of a phrase joined by single spaces. *)
Fixpoint joinSpaces (ws : list jsstring) : jsstring :=
  match ws with
  | [] => []
  | [w] => w
  | w :: ws' => w ++ SP :: joinSpaces ws'
  end.

Definition spaceFree (w : jsstring) : Prop := ~ In SP w.

(** [phraseAt ws ts rest]: the tokens [ts] start with the keywords [ws], in
    order, each after any number of whitespace and newline tokens, and
    [rest] is what follows the last of them. *)
Inductive phraseAt : list jsstring -> list Token -> list Token -> Prop :=
| phrase_end rest : phraseAt [] rest rest
| phrase_word w ws blanks k ts rest :
    Forall (fun t => isBlank t = true) blanks ->
    type k = Keyword ->
    value k = w ->
    phraseAt ws ts rest ->
    phraseAt (w :: ws) (blanks ++ k :: ts) rest.

(** The suffix phrase [sfx] appears next in [ts], up to [rest]. *)
Definition fitsUpTo (sfx : jsstring) (ts rest : list Token) : Prop :=
  exists ws, ws <> [] /\ Forall spaceFree ws /\ sfx = joinSpaces ws
             /\ phraseAt ws ts rest.

Definition fits (sfx : jsstring) (ts : list Token) : Prop :=
  exists rest, fitsUpTo sfx ts rest.

(** ** The engine *)

(** The indent level and every level saved on the CASE stack are natural
    numbers. *)
Definition levelsOk (st : State) : Prop :=
  (0 <= indentLevel st)%Z /\ Forall (fun l => (0 <= l)%Z) (caseStack st).

(** [okM opts m]: run in a state whose levels are natural numbers, [m] ends
    in such a state when it returns. *)
Definition okM (opts : FormatOptions) {A} (m : M A) : Prop :=
  forall st, levelsOk st ->
    match m st with
    | Returns (_, st') => levelsOk st'
    | Throws _ => True
    | OutOfFuel => False
    end.

(** The states the engine goes through in a call of [formatDatabricksSQL]. *)
Definition invocationStates (KEYWORDS CLAUSE_KEYWORDS : jsstring -> bool)
    (input : jsstring) (opts : FormatOptions) : list State :=
  match tokenize KEYWORDS input with
  | Returns tokens =>
      engineStates CLAUSE_KEYWORDS opts
        (mergeUnquotedLanguageBody (mergeClauseKeywords tokens)) initialState
  | _ => []
  end.

(** A token that the engine passes over or stops at. *)
Definition blankOrEnd (t : Token) : Prop := isBlank t = true \/ t = tok EOF [].

(** Formatting the output of a first formatting. *)
Definition formatTwice (KEYWORDS CLAUSE_KEYWORDS : jsstring -> bool)
    (input : jsstring) (opts : FormatOptions) : outcome jsstring :=
  match formatDatabricksSQL KEYWORDS CLAUSE_KEYWORDS input opts with
  | Returns out => formatDatabricksSQL KEYWORDS CLAUSE_KEYWORDS out opts
  | Throws e => Throws e
  | OutOfFuel => OutOfFuel
  end.

(** No white space at either end. *)
Definition noEdgeSpace (s : jsstring) : Prop :=
  (forall c s', s = c :: s' -> isJsSpace c = false)
  /\ (forall c s', s = s' ++ [c] -> isJsSpace c = false).

(** The characters the lexer reads as whitespace and newline tokens. *)
Definition isLayoutChar (c : char) : bool :=
  (c =? SP)%N || (c =? TAB)%N || (c =? LF)%N || (c =? CR)%N.

(* ===================================================================== *)
(** * Notions used to state further properties of the code *)
(* ===================================================================== *)

(** ** The lexer *)


Definition isSpaceTab (c : char) : bool := (c =? SP)%N || (c =? TAB)%N.

(** A token read from a word: a keyword, or an identifier that starts with
    a letter or an underscore (and not with a quote). *)
Definition isWordToken (t : Token) : Prop :=
  type t = Keyword
  \/ (type t = Identifier /\ exists c v, value t = c :: v /\ isWordStart c = true).

(** The text of the tokens whose text does not depend on the input. *)
Definition fixedText (t : Token) : Prop :=
  match type t with
  | OpenParen => value t = lit "("
  | CloseParen => value t = lit ")"
  | Comma => value t = lit ","
  | Semicolon => value t = lit ";"
  | Dot => value t = lit "."
  | Newline => value t = [LF] \/ value t = [CR] \/ value t = [CR; LF]
  | Whitespace => forallb isSpaceTab (value t) = true
  | Comment => ~ In LF (value t)
  | EOF => value t = []
  | _ => True
  end.

(** What [applyCase] gives for a token of the lexer. *)
Definition caseOk (t : Token) : Prop :=
  forall size commas,
    applyCase (mkOptions size preserve commas) t = sourceText t
    /\ applyCase (mkOptions size upper commas) t = value t
    /\ (isType Keyword t = false ->
        applyCase (mkOptions size lower commas) t = value t).

(** ** The merge passes *)

(** A token that is neither a keyword nor whitespace nor a newline. *)
Definition isContent (t : Token) : bool := negb (isType Keyword t) && negb (isBlank t).

(** ** The engine *)

Definition nonBlank (t : Token) : bool := negb (isBlank t).

(** A text with all white space removed. *)
Definition strip (s : jsstring) : jsstring := filter (fun c => negb (isJsSpace c)) s.

(** The text that the engine writes for a token. *)
Definition emitted (opts : FormatOptions) (t : Token) : jsstring :=
  match type t with
  | Semicolon => lit ";"
  | OpenParen => lit "("
  | CloseParen => lit ")"
  | Comma => lit ","
  | Dot => lit "."
  | _ => applyCase opts t
  end.

(** The texts written for a token sequence: nothing for whitespace and
    newline tokens, and nothing from the end-of-input token on. *)
Fixpoint renderedTexts (opts : FormatOptions) (ts : list Token) : list jsstring :=
  match ts with
  | [] => []
  | t :: rest =>
      if isBlank t then renderedTexts opts rest
      else if isType EOF t then []
      else emitted opts t :: renderedTexts opts rest
  end.

(** A text is at a line start: it is empty or ends with a newline. *)
Definition atLineStart (s : jsstring) : Prop := s = [] \/ exists x, s = x ++ [LF].

(** When [lineStart] is set, the text written so far is at a line start. *)
Definition lineStartOk (st : State) : Prop :=
  lineStart st = true -> atLineStart (concat (result st)).

(** The last character of a text is LF. *)
Definition endsLFb (p : jsstring) : bool :=
  match rev p with
  | c :: _ => (c =? LF)%N
  | [] => false
  end.

(** How a token changes the number of open parentheses. *)
Definition parenStep (t : Token) (depth : nat) : nat :=
  if isType OpenParen t then S depth
  else if isType CloseParen t then pred depth
  else depth.

(** The effect of a handler on the text written, on the line-start flag and
    on the depth of the parenthesis stack: it writes [e] and white space,
    leaves the flag set only after a newline, and changes the depth by [f]. *)
Definition effect (e : jsstring) (f : nat -> nat) (m : M unit) : Prop :=
  forall st u st',
    m st = Returns (u, st') ->
    strip (concat (result st')) = strip (concat (result st)) ++ strip e
    /\ lineStartOk st'
    /\ length (parenStack st') = f (length (parenStack st)).

(** The number of parentheses open after the tokens [ts], starting from
    [depth]: a closing parenthesis with none open is ignored, and counting
    stops at the end-of-input token. *)
Fixpoint openParens (depth : nat) (ts : list Token) : nat :=
  match ts with
  | [] => depth
  | t :: rest =>
      if isType EOF t then depth
      else if isType OpenParen t then openParens (S depth) rest
      else if isType CloseParen t then openParens (pred depth) rest
      else openParens depth rest
  end.

Definition isParen (t : Token) : bool := isType OpenParen t || isType CloseParen t.

(** ** The content of a text *)

(** A text without its white space, the letters a-z in upper case. *)
Definition content (s : jsstring) : jsstring := toUpperCase (strip s).

(** The source texts of the tokens before the end-of-input token. *)
Fixpoint sourceTexts (ts : list Token) : list jsstring :=
  match ts with
  | [] => []
  | t :: rest => if isType EOF t then [] else sourceText t :: sourceTexts rest
  end.

(** What the lexer guarantees of each token. *)
Definition lexical (t : Token) : Prop := originalOk t /\ fixedText t.

Definition noLanguage (ts : list Token) : bool :=
  forallb (fun t => negb (isKw "LANGUAGE" t)) ts.

(** A token sequence with an open parenthesis that a semicolon follows. *)
Definition openParenTokens : list Token :=
  [tok OpenParen (lit "("); tok Number (lit "1"); tok Semicolon (lit ";");
   wsTok; tok Number (lit "2"); tok EOF []].

(** [new] is [old] with the text [v] added on a line of its own: after
    [old] come at most [k] newlines, so that the line starts; then spaces,
    [v] and a newline. *)
Definition ownLine (k : nat) (old new v : jsstring) : Prop :=
  exists nls n,
    new = old ++ nls ++ repeat SP n ++ v ++ [LF]
    /\ forallb (N.eqb LF) nls = true
    /\ length nls <= k
    /\ atLineStart (old ++ nls).

(** ** Calls that return *)

(** The indent level and every level saved on the CASE stack are between 0
    and [b]. *)
Definition levelsIn (b : Z) (st : State) : Prop :=
  (0 <= indentLevel st <= b)%Z
  /\ Forall (fun l => (0 <= l <= b)%Z) (caseStack st).

(** The indent size is an integer that is not negative and small enough,
    for an input of [n - 1] characters, for every string of the call to
    stay within the largest length of a string: there are at most [n]
    tokens, the indent level is less than [n], a token is written with at
    most [indentSize * n] spaces and three more characters, and the texts
    of the tokens take less than [2 * n] characters together. *)
Definition withinLimits (opts : FormatOptions) (input : jsstring) : Prop :=
  let n := (Z.of_nat (length input) + 1)%Z in
  (0 <= indentSize opts)%Z
  /\ (indentSize opts * n * n + 5 * n <= MAX_STRING_LENGTH)%Z.



(** [m] returns from a state whose levels are at most [b], with levels at
    most [b + 1]. *)
Definition runs (b : Z) (m : M unit) : Prop :=
  forall st, levelsIn b st ->
    exists st', m st = Returns (tt, st') /\ levelsIn (b + 1) st'.

(** ** The layout of the text *)

(** A run of spaces and line feeds. *)
Definition isGap (w : jsstring) : bool :=
  forallb (fun c => (c =? SP)%N || (c =? LF)%N) w.

(** [layoutOf s texts]: the text [s] is the [texts], in their order, each
    one once, with runs of spaces and line feeds before, between and after
    them, and nothing else. *)
Inductive layoutOf : jsstring -> list jsstring -> Prop :=
| layout_end w : isGap w = true -> layoutOf w []
| layout_text w e s es :
    isGap w = true -> layoutOf s es -> layoutOf (w ++ e ++ s) (e :: es).

(** [x] is [e] with a run of spaces and line feeds before it and one after
    it. *)
Definition around (e x : jsstring) : Prop :=
  exists w w', x = w ++ e ++ w' /\ isGap w = true /\ isGap w' = true.

(** A handler that appends [e], with spaces and line feeds around it, to
    the text written so far. *)
Definition writing (e : jsstring) (m : M unit) : Prop :=
  forall st u st',
    m st = Returns (u, st') ->
    exists x, concat (result st') = concat (result st) ++ x /\ around e x.

(** ** The length of the text *)

(** A handler that, from a state whose levels are at most [b], makes the
    text longer by the length of [e] and by at most one indentation of
    [b + 1] levels and three more characters. *)
Definition lengthens (opts : FormatOptions) (b : Z) (e : jsstring) (m : M unit) : Prop :=
  forall st u st',
    levelsIn b st ->
    m st = Returns (u, st') ->
    length (concat (result st'))
    <= length (concat (result st)) + length e
       + Z.to_nat (indentSize opts * (b + 1)) + 3.

(** The room a token takes: the length of its text and one character. *)
Definition weight (t : Token) : nat := S (length (value t)).

Definition total (ts : list Token) : nat := list_sum (map weight ts).

(** The [original] of a token, when it has one, is not longer than its
    [value]. *)
Definition shortOriginal (t : Token) : Prop :=
  match original t with
  | Some o => length o <= length (value t)
  | None => True
  end.

(* ===================================================================== *)
(** * Properties of the scanning helpers *)
(* ===================================================================== *)

Lemma streq_eq (a b : jsstring) : streq a b = true <-> a = b.
Proof.
  revert b; induction a as [|x a IH]; intros [|y b]; simpl; split;
    try congruence; try reflexivity.
  - intros H. apply andb_true_iff in H as [H1 H2].
    apply N.eqb_eq in H1. apply IH in H2. congruence.
  - intros H. inversion H; subst. rewrite N.eqb_refl. simpl. now apply IH.
Qed.

Lemma span_app p s : fst (span p s) ++ snd (span p s) = s.
Proof.
  induction s as [|c s IH]; simpl; [reflexivity|].
  destruct (p c); [|reflexivity].
  destruct (span p s); simpl in *. now rewrite IH.
Qed.

Lemma span_prefix p s : forallb p (fst (span p s)) = true.
Proof.
  induction s as [|c s IH]; simpl; [reflexivity|].
  destruct (p c) eqn:E; [|reflexivity].
  destruct (span p s); simpl in *. now rewrite E.
Qed.

Lemma span_stop p s : match snd (span p s) with
                      | x :: _ => p x = false
                      | [] => True
                      end.
Proof.
  induction s as [|c s IH]; simpl; [exact I|].
  destruct (p c) eqn:E; [|exact E].
  destruct (span p s); simpl in *. exact IH.
Qed.

Lemma scanUntil2_app d1 d2 s :
  fst (scanUntil2 d1 d2 s) ++ snd (scanUntil2 d1 d2 s) = s.
Proof.
  induction s as [|c s IH]; simpl; [reflexivity|].
  destruct ((c =? d1)%N && nextIs d2 s) eqn:E.
  - apply andb_true_iff in E as [E1 E2]. apply N.eqb_eq in E1.
    destruct s as [|c2 s]; simpl in *; [discriminate|].
    apply N.eqb_eq in E2. congruence.
  - destruct (scanUntil2 d1 d2 s); simpl in *. now rewrite IH.
Qed.

Lemma scanUntil1_app d s :
  fst (scanUntil1 d s) ++ snd (scanUntil1 d s) = s.
Proof.
  unfold scanUntil1.
  pose proof (span_app (fun c => negb (c =? d)%N) s) as Happ.
  pose proof (span_stop (fun c => negb (c =? d)%N) s) as Hstop.
  destruct (span (fun c => negb (c =? d)%N) s) as [b r]; simpl in *.
  destruct r as [|x r]; simpl.
  - now rewrite app_nil_r in *.
  - apply negb_false_iff, N.eqb_eq in Hstop. subst x.
    now rewrite <- app_assoc.
Qed.

Lemma scanString_app s : fst (scanString s) ++ snd (scanString s) = s.
Proof.
  assert (H : forall n s, (length s <= n)%nat ->
                fst (scanString s) ++ snd (scanString s) = s).
  { clear s. induction n as [|n IH]; intros [|c s] Hn; simpl in *;
      try reflexivity; try lia.
    destruct (c =? 39)%N eqn:E.
    - apply N.eqb_eq in E; subst c.
      destruct s as [|c2 s]; [reflexivity|].
      destruct (c2 =? 39)%N eqn:E2; [|reflexivity].
      apply N.eqb_eq in E2; subst c2.
      specialize (IH s). simpl in Hn.
      destruct (scanString s); simpl in *. rewrite IH; [reflexivity|lia].
    - specialize (IH s).
      destruct (scanString s); simpl in *. rewrite IH; [reflexivity|lia]. }
  apply (H (length s)). lia.
Qed.

Lemma scanNumber_app s : fst (scanNumber s) ++ snd (scanNumber s) = s.
Proof.
  unfold scanNumber.
  pose proof (span_app isDigitOrDot s) as H1.
  destruct (span isDigitOrDot s) as [num r]; simpl in H1.
  destruct r as [|e r1]; [exact H1|].
  destruct ((e =? 101)%N || (e =? 69)%N); [|exact H1].
  assert (Hs : forall sign r2,
             sign ++ r2 = r1 ->
             fst (let (ds, r3) := span isDigit r2 in (num ++ e :: sign ++ ds, r3))
             ++ snd (let (ds, r3) := span isDigit r2 in (num ++ e :: sign ++ ds, r3)) = s).
  { intros sign r2 Hr. pose proof (span_app isDigit r2) as H2.
    destruct (span isDigit r2) as [ds r3]; simpl in *.
    rewrite <- H1, <- Hr, <- H2.
    rewrite <- !app_assoc. simpl. now rewrite <- !app_assoc. }
  destruct r1 as [|g r1'].
  - apply (Hs [] []). reflexivity.
  - destruct ((g =? 43)%N || (g =? 45)%N).
    + apply (Hs [g] r1'). reflexivity.
    + apply (Hs [] (g :: r1')). reflexivity.
Qed.

(* ===================================================================== *)
(** * The lexer is lossless and total *)
(* ===================================================================== *)

Ltac bool_facts :=
  repeat match goal with
  | H : _ && _ = true |- _ => apply andb_true_iff in H as [? ?]
  | H : (_ =? _)%N = true |- _ => apply N.eqb_eq in H
  | H : nextIs _ ?s = true |- _ => destruct s; simpl in H; [discriminate|]
  end.

Ltac scan_with lem :=
  let H := fresh "Hscan" in
  pose proof lem as H;
  match type of H with
  | fst ?F ++ snd ?F = _ => destruct F; simpl in H
  end;
  simpl.

Section LexerFacts.

Variable KEYWORDS : jsstring -> bool.

(** One iteration reads a non-empty piece of text from the front of the
    input: the token's source text starts with the current character and,
    followed by the input that is left, is the input. *)
Lemma lexOne_text c s :
  exists txt,
    sourceText (fst (lexOne KEYWORDS c s)) = c :: txt
    /\ txt ++ snd (lexOne KEYWORDS c s) = s.
Proof.
  unfold lexOne.
  destruct ((c =? SP)%N || (c =? TAB)%N) eqn:E1.
  { simpl span. rewrite E1.
    scan_with (span_app (fun x => (x =? SP) || (x =? TAB))%N s).
    eexists; split; [reflexivity | exact Hscan]. }
  destruct ((c =? LF)%N || (c =? CR)%N) eqn:E2.
  { destruct ((c =? CR)%N && nextIs LF s) eqn:E3.
    - bool_facts. subst. exists [LF]. split; reflexivity.
    - exists []. split; reflexivity. }
  destruct ((c =? 45)%N && nextIs 45%N s) eqn:E3.
  { bool_facts. subst. simpl span.
    scan_with (span_app (fun x => negb (x =? LF)%N) s).
    eexists; split; [reflexivity|]. simpl. congruence. }
  destruct ((c =? 47)%N && nextIs 42%N s) eqn:E4.
  { bool_facts. subst. simpl tl.
    scan_with (scanUntil2_app 42%N 47%N s).
    eexists; split; [reflexivity|]. simpl. congruence. }
  destruct (c =? 39)%N eqn:E5.
  { bool_facts. subst. scan_with (scanString_app s).
    eexists; split; [reflexivity | exact Hscan]. }
  destruct (c =? 34)%N eqn:E6.
  { bool_facts. subst. scan_with (scanUntil1_app 34%N s).
    eexists; split; [reflexivity | exact Hscan]. }
  destruct (c =? 96)%N eqn:E7.
  { bool_facts. subst. scan_with (scanUntil1_app 96%N s).
    eexists; split; [reflexivity | exact Hscan]. }
  destruct (isDigit c || ((c =? 46)%N && match s with d :: _ => isDigit d | [] => false end)) eqn:E8.
  { assert (Hc : isDigitOrDot c = true).
    { unfold isDigitOrDot. apply orb_true_iff in E8 as [->|E8]; [reflexivity|].
      apply andb_true_iff in E8 as [-> _]. apply orb_true_r. }
    pose proof (scanNumber_app (c :: s)) as Happ.
    assert (Hne : exists txt, fst (scanNumber (c :: s)) = c :: txt).
    { unfold scanNumber. simpl span. rewrite Hc.
      destruct (span isDigitOrDot s) as [a r].
      destruct r as [|e r1]; [eexists; reflexivity|].
      destruct ((e =? 101)%N || (e =? 69)%N); [|eexists; reflexivity].
      destruct (match r1 with
                | [] => ([], r1)
                | g :: r1' => if (g =? 43)%N || (g =? 45)%N then ([g], r1') else ([], r1)
                end) as [sign r2].
      destruct (span isDigit r2). eexists; reflexivity. }
    destruct Hne as [txt Htxt].
    destruct (scanNumber (c :: s)) as [num r]; simpl in *. subst num.
    exists txt. split; [reflexivity|]. simpl in Happ. congruence. }
  destruct (c =? 40)%N; [exists []; split; reflexivity|].
  destruct (c =? 41)%N; [exists []; split; reflexivity|].
  destruct (c =? 44)%N; [exists []; split; reflexivity|].
  destruct (c =? 59)%N; [exists []; split; reflexivity|].
  destruct (c =? 46)%N; [exists []; split; reflexivity|].
  destruct (isTwoCharOperator c s) eqn:E9.
  { destruct s as [|c2 s]; [discriminate|]. exists [c2]. split; reflexivity. }
  destruct (isOneCharOperator c); [exists []; split; reflexivity|].
  destruct ((c =? 36)%N && nextIs 36%N s) eqn:E10.
  { bool_facts. subst. simpl tl.
    scan_with (scanUntil2_app 36%N 36%N s).
    eexists; split; [reflexivity|]. simpl. congruence. }
  destruct ((c =? 36)%N && nextIs 123%N s) eqn:E11.
  { bool_facts. subst. simpl tl.
    scan_with (scanUntil1_app 125%N s).
    eexists; split; [reflexivity|]. simpl. congruence. }
  destruct ((c =? 123)%N && nextIs 123%N s) eqn:E12.
  { bool_facts. subst. simpl tl.
    scan_with (scanUntil2_app 125%N 125%N s).
    eexists; split; [reflexivity|]. simpl. congruence. }
  destruct ((c =? 58)%N || (c =? 64)%N) eqn:E13.
  { scan_with (span_app isWordChar s).
    eexists; split; [reflexivity | exact Hscan]. }
  destruct (isWordStart c) eqn:E14.
  { assert (Hw : isWordChar c = true) by (unfold isWordChar; now rewrite E14).
    simpl span. rewrite Hw.
    scan_with (span_app isWordChar s).
    repeat match goal with
    | |- context [KEYWORDS ?w] => destruct (KEYWORDS w)
    end; simpl; (eexists; split; [reflexivity | exact Hscan]). }
  exists []. split; reflexivity.
Qed.

Lemma lexOne_shorter c s : (length (snd (lexOne KEYWORDS c s)) <= length s)%nat.
Proof.
  destruct (lexOne_text c s) as [txt [_ H]].
  rewrite <- H at 2. rewrite length_app. lia.
Qed.

(** With at least [input.length] iterations allowed the loop ends, and the
    source texts of its tokens, in order, are the input. *)
Lemma tokenizeLoop_lossless fuel : forall input,
  (length input <= fuel)%nat ->
  exists tokens,
    tokenizeLoop KEYWORDS fuel input = Returns tokens
    /\ concat (map sourceText tokens) = input.
Proof.
  induction fuel as [|fuel IH]; intros [|c s] Hlen; simpl in Hlen; try lia.
  - exists [tok EOF []]. split; reflexivity.
  - exists [tok EOF []]. split; reflexivity.
  - simpl. pose proof (lexOne_text c s) as [txt [Htxt Happ]].
    pose proof (lexOne_shorter c s) as Hshort.
    destruct (lexOne KEYWORDS c s) as [t r]; simpl in *.
    destruct (IH r) as [tokens [Hrun Hcat]]; [lia|].
    exists (t :: tokens). rewrite Hrun. split; [reflexivity|].
    simpl. rewrite Hcat, Htxt. simpl. congruence.
Qed.

Lemma tokenize_total input : exists tokens, tokenize KEYWORDS input = Returns tokens.
Proof.
  destruct (tokenizeLoop_lossless (length input) input) as [tokens [H _]]; [lia|].
  now exists tokens.
Qed.

End LexerFacts.

Ltac lex_cases H :=
  repeat match type of H with
  | (if ?b then _ else _) = _ => destruct b eqn:?
  | (let (_, _) := ?F in _) = _ => destruct F eqn:?
  | (_, _) = (_, _) => inversion H; subst; clear H
  end.

Section LexerTokens.

Variable KEYWORDS : jsstring -> bool.

(** A property of the token of every iteration, and of the end-of-input
    token, holds of every token of the result. *)
Lemma tokenizeLoop_Forall (P : Token -> Prop) :
  (forall c s, P (fst (lexOne KEYWORDS c s))) ->
  P (tok EOF []) ->
  forall fuel input tokens,
    tokenizeLoop KEYWORDS fuel input = Returns tokens -> Forall P tokens.
Proof.
  intros Hlex Heof. induction fuel as [|fuel IH]; intros [|c s] tokens H; simpl in H.
  - inversion H. repeat constructor. exact Heof.
  - discriminate.
  - inversion H. repeat constructor. exact Heof.
  - specialize (Hlex c s). destruct (lexOne KEYWORDS c s) as [t r]; simpl in *.
    destruct (tokenizeLoop KEYWORDS fuel r) as [ts| |] eqn:E; simpl in H;
      try discriminate.
    inversion H; subst. constructor; [exact Hlex | now apply IH with r].
Qed.

Lemma lexOne_original c s : originalOk (fst (lexOne KEYWORDS c s)).
Proof.
  destruct (lexOne KEYWORDS c s) as [t r] eqn:H. unfold lexOne in H.
  lex_cases H; simpl; unfold originalOk; simpl; auto.
Qed.

(** The text of the number branch. *)
Lemma scanNumber_text c s :
  isDigit c || ((c =? 46)%N && match s with d :: _ => isDigit d | [] => false end) = true ->
  numberText (fst (scanNumber (c :: s))).
Proof.
  intros Hguard.
  assert (Hc : isDigitOrDot c = true).
  { unfold isDigitOrDot. apply orb_true_iff in Hguard as [->|G]; [reflexivity|].
    apply andb_true_iff in G as [-> _]. apply orb_true_r. }
  unfold scanNumber. simpl span. rewrite Hc.
  pose proof (span_prefix isDigitOrDot s) as Hpre.
  pose proof (span_app isDigitOrDot s) as Happ.
  pose proof (span_stop isDigitOrDot s) as Hstop.
  destruct (span isDigitOrDot s) as [a r]; simpl in Hpre, Happ, Hstop.
  assert (Hstart : isDigit c = true
           \/ (c = 46%N /\ exists d2 body', a = d2 :: body' /\ isDigit d2 = true)).
  { apply orb_true_iff in Hguard as [G|G]; [now left|right].
    apply andb_true_iff in G as [G1 G2]. apply N.eqb_eq in G1.
    split; [exact G1|].
    destruct s as [|d s']; [discriminate|].
    destruct a as [|d2 a'].
    - simpl in Happ. subst r. unfold isDigitOrDot in Hstop.
      rewrite G2 in Hstop. discriminate.
    - simpl in Happ. inversion Happ; subst. now exists d, a'. }
  assert (Hall : forallb isDigitOrDot (c :: a) = true)
    by (simpl; now rewrite Hc, Hpre).
  assert (Hplain : numberText (c :: a)).
  { exists c, a, []. rewrite app_nil_r. repeat split; auto. now left. }
  destruct r as [|e r1]; [exact Hplain|].
  destruct ((e =? 101)%N || (e =? 69)%N) eqn:Ee; [|exact Hplain].
  assert (He : e = 101%N \/ e = 69%N).
  { apply orb_true_iff in Ee as [Ee|Ee]; apply N.eqb_eq in Ee; auto. }
  assert (Hsfx : forall sign r2,
            (sign = [] \/ sign = [43%N] \/ sign = [45%N]) ->
            numberText (fst (let (ds, r3) := span isDigit r2 in
                             ((c :: a) ++ e :: sign ++ ds, r3)))).
  { intros sign r2 Hsign. pose proof (span_prefix isDigit r2) as Hds.
    destruct (span isDigit r2) as [ds r3]; simpl in *.
    exists c, a, (e :: sign ++ ds). repeat split; auto.
    right. exists e, sign, ds. auto. }
  destruct r1 as [|g r1'].
  - apply (Hsfx [] []). auto.
  - destruct ((g =? 43)%N || (g =? 45)%N) eqn:Eg.
    + apply (Hsfx [g] r1').
      apply orb_true_iff in Eg as [Eg|Eg]; apply N.eqb_eq in Eg; subst; auto.
    + apply (Hsfx [] (g :: r1')). auto.
Qed.

Lemma lexOne_number c s :
  type (fst (lexOne KEYWORDS c s)) = Number ->
  numberText (value (fst (lexOne KEYWORDS c s))).
Proof.
  destruct (lexOne KEYWORDS c s) as [t r] eqn:H. unfold lexOne in H.
  lex_cases H; simpl; try discriminate.
  intros _.
  match goal with
  | G : _ || _ = true, E : scanNumber (c :: s) = _ |- _ =>
      pose proof (scanNumber_text c s G) as Hn; rewrite E in Hn; exact Hn
  end.
Qed.

Lemma lexOne_starts_number c s :
  isDigit c || ((c =? 46)%N && match s with d :: _ => isDigit d | [] => false end) = true ->
  type (fst (lexOne KEYWORDS c s)) = Number.
Proof.
  intros G.
  assert (Hd : isDigit c = true \/ c = 46%N).
  { apply orb_true_iff in G as [G|G]; [now left|right].
    apply andb_true_iff in G as [G _]. now apply N.eqb_eq in G. }
  assert (H1 : (c =? SP)%N || (c =? TAB)%N = false
               /\ (c =? LF)%N || (c =? CR)%N = false
               /\ (c =? 45)%N = false /\ (c =? 47)%N = false
               /\ (c =? 39)%N = false /\ (c =? 34)%N = false
               /\ (c =? 96)%N = false).
  { destruct Hd as [Hd| ->]; [|repeat split; reflexivity].
    unfold isDigit, inRange in Hd. apply andb_true_iff in Hd as [L U].
    apply N.leb_le in L, U.
    repeat split; repeat rewrite orb_false_iff; repeat split;
      apply N.eqb_neq; unfold SP, TAB, LF, CR; lia. }
  destruct H1 as (E1 & E2 & E3 & E4 & E5 & E6 & E7).
  unfold lexOne. rewrite E1, E2, E3, E4, E5, E6, E7, G. simpl.
  destruct (scanNumber (c :: s)). reflexivity.
Qed.

End LexerTokens.

(** The text of a keyword token of the lexer is made of [[A-Z0-9_]], the
    characters on which [toUpperCase] and [toLowerCase] are as modelled. *)
Lemma upperChar_word c : isWordChar c = true -> isKeywordChar (upperChar c) = true.
Proof.
  unfold isWordChar, isWordStart, isKeywordChar, upperChar, isLowerAZ, isUpperAZ,
    isDigit, inRange.
  intros H.
  destruct ((97 <=? c)%N && (c <=? 122)%N) eqn:El.
  - apply andb_true_iff in El as [L U]. apply N.leb_le in L, U.
    assert (H1 : (65 <=? c - 32)%N = true) by (apply N.leb_le; lia).
    assert (H2 : (c - 32 <=? 90)%N = true) by (apply N.leb_le; lia).
    now rewrite H1, H2.
  - simpl in H. rewrite <- orb_assoc in H. rewrite <- orb_assoc.
    apply orb_true_iff in H as [H|H]; [now rewrite H|].
    rewrite orb_comm in H. now rewrite H, orb_true_r.
Qed.

Lemma toUpperCase_word : forall w,
  forallb isWordChar w = true -> forallb isKeywordChar (toUpperCase w) = true.
Proof.
  induction w as [|x w IH]; simpl; intros H; [reflexivity|].
  apply andb_true_iff in H as [Hx Hw].
  now rewrite (upperChar_word x Hx), IH.
Qed.

Lemma keyword_values_upper KEYWORDS input tokens t :
  tokenize KEYWORDS input = Returns tokens ->
  In t tokens -> type t = Keyword ->
  forallb isKeywordChar (value t) = true.
Proof.
  intros Htok Hin.
  assert (Hall : Forall (fun t => type t = Keyword ->
                                  forallb isKeywordChar (value t) = true) tokens).
  { apply (tokenizeLoop_Forall KEYWORDS _) with (length input) input;
      [|discriminate|exact Htok].
    intros c s. destruct (lexOne KEYWORDS c s) as [t' r] eqn:H. unfold lexOne in H.
    lex_cases H; simpl; try discriminate. intros _.
    match goal with
    | E : span isWordChar (c :: s) = (?w, _) |- _ =>
        pose proof (span_prefix isWordChar (c :: s)) as Hw; rewrite E in Hw
    end.
    now apply toUpperCase_word. }
  rewrite Forall_forall in Hall. now apply Hall.
Qed.

(* ===================================================================== *)
(** * Claims about the lexer *)
(* ===================================================================== *)

(** C1, as the code has it: for every keyword set and every input,
    [tokenize] returns, and concatenating in order the source text of every
    token (its [original] where it has one, else its [value]) gives back the
    input exactly; a token has an [original] only when it is a keyword, and
    then its [value] is the upper-cased [original]. *)
Theorem tokenize_lossless : forall KEYWORDS input,
  exists tokens,
    tokenize KEYWORDS input = Returns tokens
    /\ concat (map sourceText tokens) = input
    /\ Forall originalOk tokens.
Proof.
  intros KEYWORDS input.
  destruct (tokenizeLoop_lossless KEYWORDS (length input) input) as [tokens [H1 H2]];
    [lia|].
  exists tokens. repeat split; auto.
  apply (tokenizeLoop_Forall KEYWORDS originalOk) with (length input) input.
  - apply lexOne_original.
  - exact I.
  - exact H1.
Qed.

(** C1 as stated fails: the [value] texts of the tokens of [select] are
    [SELECT] and the empty text of the end-of-input token. *)
Lemma tokenize_values_not_input :
  exists tokens,
    tokenize KEYWORDS_spec (lit "select") = Returns tokens
    /\ concat (map value tokens) = lit "SELECT"
    /\ concat (map value tokens) <> lit "select".
Proof.
  eexists. split; [vm_compute; reflexivity|].
  split; [reflexivity | vm_compute; discriminate].
Qed.

(** C8, as the code has it: the text of every number token is a non-empty
    run of digits and dots that starts with a digit or with a dot and a
    digit, followed by an optional exponent ([e] or [E], an optional sign,
    digits); and a digit, or a dot with a digit after it, starts a number
    token. *)
Theorem number_token_text : forall KEYWORDS,
  (forall input tokens t,
      tokenize KEYWORDS input = Returns tokens ->
      In t tokens -> type t = Number -> numberText (value t))
  /\ (forall c s,
         isDigit c = true
         \/ (c = 46%N /\ exists d s', s = d :: s' /\ isDigit d = true) ->
         exists t tokens,
           tokenize KEYWORDS (c :: s) = Returns (t :: tokens) /\ type t = Number).
Proof.
  intros KEYWORDS. split.
  - intros input tokens t Htok Hin Hty.
    assert (Hall : Forall (fun t => type t = Number -> numberText (value t)) tokens).
    { apply (tokenizeLoop_Forall KEYWORDS _) with (length input) input.
      - apply lexOne_number.
      - discriminate.
      - exact Htok. }
    rewrite Forall_forall in Hall. now apply Hall.
  - intros c s Hstart.
    assert (G : isDigit c
                || ((c =? 46)%N && match s with d :: _ => isDigit d | [] => false end)
                = true).
    { destruct Hstart as [->|[-> [d [s' [-> Hd]]]]]; [reflexivity|].
      simpl. now rewrite Hd. }
    pose proof (lexOne_starts_number KEYWORDS c s G) as Hty.
    pose proof (lexOne_shorter KEYWORDS c s) as Hshort.
    unfold tokenize. simpl.
    destruct (lexOne KEYWORDS c s) as [t r]; simpl in Hty, Hshort.
    destruct (tokenizeLoop_lossless KEYWORDS (length s) r Hshort) as [ts [Hts _]].
    exists t, ts. rewrite Hts. split; [reflexivity | exact Hty].
Qed.

(** C8 as stated fails: the number token of [1.2.3] holds two separate runs
    of dots. *)
Lemma number_token_two_dot_runs :
  exists tokens t,
    tokenize KEYWORDS_spec (lit "1.2.3") = Returns tokens
    /\ In t tokens /\ type t = Number
    /\ value t = lit "1.2.3" /\ ~ (dotRuns (value t) <= 1).
Proof.
  exists [tok Number (lit "1.2.3"); tok EOF []], (tok Number (lit "1.2.3")).
  split; [vm_compute; reflexivity|].
  split; [left; reflexivity|].
  split; [reflexivity|]. split; [reflexivity|].
  vm_compute. lia.
Qed.

Lemma number_token_text_witness :
  numberText (lit "1.2.3")
  /\ exists t tokens,
       tokenize KEYWORDS_spec (lit ".5") = Returns (t :: tokens) /\ type t = Number.
Proof.
  split.
  - apply (proj1 (number_token_text KEYWORDS_spec) (lit "1.2.3")
             [tok Number (lit "1.2.3"); tok EOF []] (tok Number (lit "1.2.3"))).
    + vm_compute. reflexivity.
    + left. reflexivity.
    + reflexivity.
  - apply (proj2 (number_token_text KEYWORDS_spec) 46%N (lit "5")).
    right. split; [reflexivity|]. exists 53%N, []. split; reflexivity.
Defined.

(* ===================================================================== *)
(** * The keyword-merge pass *)
(* ===================================================================== *)

Lemma TokenType_eqb_eq a b : TokenType_eqb a b = true <-> a = b.
Proof. destruct a, b; simpl; split; intros H; congruence. Qed.

Lemma isType_true ty t : isType ty t = true <-> type t = ty.
Proof. apply TokenType_eqb_eq. Qed.

Lemma keyword_not_blank k : type k = Keyword -> isBlank k = false.
Proof. unfold isBlank, isType. now intros ->. Qed.

Lemma mergeFrom_skip : forall ts n, mergeFrom n ts = mergeFrom 0 (skipn n ts).
Proof.
  induction ts as [|t ts IH]; intros [|n]; try reflexivity.
  simpl mergeFrom at 1. rewrite IH. reflexivity.
Qed.

Lemma skipBlanks_blanks : forall blanks k ts,
  Forall (fun t => isBlank t = true) blanks ->
  isBlank k = false ->
  skipBlanks (blanks ++ k :: ts) = length blanks.
Proof.
  induction blanks as [|b blanks IH]; intros k ts Hb Hk; simpl.
  - now rewrite Hk.
  - inversion Hb; subst. rewrite H1. f_equal. now apply IH.
Qed.

Lemma skipBlanks_split : forall ts,
  Forall (fun t => isBlank t = true) (firstn (skipBlanks ts) ts).
Proof.
  induction ts as [|t ts IH]; simpl; [constructor|].
  destruct (isBlank t) eqn:E; simpl; [|constructor].
  constructor; assumption.
Qed.

Lemma skipn_blanks : forall (blanks : list Token) k ts,
  skipn (length blanks) (blanks ++ k :: ts) = k :: ts.
Proof. induction blanks; simpl; auto. Qed.

Lemma skipn_add {A} : forall n m (l : list A), skipn (n + m) l = skipn m (skipn n l).
Proof.
  induction n as [|n IH]; intros m l; simpl; [reflexivity|].
  destruct l; [now rewrite skipn_nil | apply IH].
Qed.

(** [matchParts] finds exactly the phrases of [phraseAt]. *)
Lemma matchParts_sound : forall parts ts n,
  matchParts parts ts = Some n -> phraseAt parts ts (skipn n ts).
Proof.
  induction parts as [|part parts IH]; intros ts n H; simpl in H.
  - inversion H. constructor.
  - pose proof (skipBlanks_split ts) as Hb.
    pose proof (firstn_skipn (skipBlanks ts) ts) as Hsplit.
    destruct (skipn (skipBlanks ts) ts) as [|k ts'] eqn:Esk; [discriminate|].
    destruct (isType Keyword k && streq (value k) part) eqn:Ek; [|discriminate].
    apply andb_true_iff in Ek as [Ety Eval].
    apply isType_true in Ety. apply streq_eq in Eval.
    destruct (matchParts parts ts') as [m|] eqn:Em; [|discriminate].
    inversion H; subst n.
    replace (skipBlanks ts + 1 + m) with (skipBlanks ts + (1 + m)) by lia.
    rewrite skipn_add, Esk. simpl.
    rewrite <- Hsplit at 1.
    constructor; auto.
Qed.

Lemma matchParts_complete : forall parts ts rest,
  phraseAt parts ts rest ->
  exists n, matchParts parts ts = Some n /\ skipn n ts = rest.
Proof.
  intros parts ts rest H. induction H as [rest|w ws blanks k ts rest Hb Hty Hval _ IH].
  - exists 0. split; reflexivity.
  - destruct IH as [m [Hm Hrest]].
    exists (length blanks + 1 + m). simpl.
    rewrite (skipBlanks_blanks blanks k ts Hb (keyword_not_blank k Hty)).
    rewrite skipn_blanks.
    assert (Ek : isType Keyword k && streq (value k) w = true).
    { apply andb_true_iff. split; [now apply isType_true | now apply streq_eq]. }
    rewrite Ek, Hm. split; [reflexivity|].
    replace (length blanks + 1 + m) with (length blanks + (1 + m)) by lia.
    rewrite skipn_add, skipn_blanks. exact Hrest.
Qed.

(** [split(' ')] and joining by spaces are inverse to each other. *)
Lemma splitSpaces_nonempty s : splitSpaces s <> [].
Proof.
  destruct s as [|c s]; simpl; [discriminate|].
  destruct (c =? SP)%N; [discriminate|].
  destruct (splitSpaces s); discriminate.
Qed.

Lemma splitSpaces_word : forall w rest,
  spaceFree w ->
  splitSpaces (w ++ SP :: rest) = w :: splitSpaces rest.
Proof.
  induction w as [|c w IH]; intros rest Hw; simpl.
  - reflexivity.
  - assert (Hc : (c =? SP)%N = false).
    { apply N.eqb_neq. intros ->. apply Hw. now left. }
    rewrite Hc, IH; [reflexivity|]. intros Hin. apply Hw. now right.
Qed.

Lemma splitSpaces_single : forall w, spaceFree w -> splitSpaces w = [w].
Proof.
  induction w as [|c w IH]; intros Hw; simpl; [reflexivity|].
  assert (Hc : (c =? SP)%N = false).
  { apply N.eqb_neq. intros ->. apply Hw. now left. }
  rewrite Hc, IH; [reflexivity|]. intros Hin. apply Hw. now right.
Qed.

Lemma splitSpaces_join : forall ws,
  ws <> [] -> Forall spaceFree ws -> splitSpaces (joinSpaces ws) = ws.
Proof.
  induction ws as [|w ws IH]; intros Hne Hall; [congruence|].
  inversion Hall; subst.
  destruct ws as [|w' ws].
  - simpl. now apply splitSpaces_single.
  - change (joinSpaces (w :: w' :: ws)) with (w ++ SP :: joinSpaces (w' :: ws)).
    rewrite splitSpaces_word by assumption.
    rewrite IH; [reflexivity | discriminate | assumption].
Qed.

Lemma join_splitSpaces : forall s,
  joinSpaces (splitSpaces s) = s /\ Forall spaceFree (splitSpaces s).
Proof.
  induction s as [|c s [IHj IHf]]; simpl.
  - split; [reflexivity|]. constructor; [intros []|constructor].
  - destruct (c =? SP)%N eqn:Ec.
    + apply N.eqb_eq in Ec; subst c. split.
      * pose proof (splitSpaces_nonempty s) as Hne.
        destruct (splitSpaces s) as [|p ps] eqn:E; [congruence|].
        simpl in *. congruence.
      * constructor; [intros []|assumption].
    + pose proof (splitSpaces_nonempty s) as Hne.
      destruct (splitSpaces s) as [|p ps] eqn:E; [congruence|].
      apply N.eqb_neq in Ec. inversion IHf; subst. split.
      * destruct ps; simpl in *; congruence.
      * constructor; [|assumption].
        intros [Hin|Hin]; [congruence | contradiction].
Qed.

Lemma matchParts_fits sfx ts :
  (exists n, matchParts (splitSpaces sfx) ts = Some n) <-> fits sfx ts.
Proof.
  split.
  - intros [n H]. exists (skipn n ts), (splitSpaces sfx).
    destruct (join_splitSpaces sfx) as [Hj Hf].
    repeat split; auto using splitSpaces_nonempty, matchParts_sound.
  - intros [rest [ws [Hne [Hf [-> Hp]]]]].
    rewrite splitSpaces_join by assumption.
    destruct (matchParts_complete ws ts rest Hp) as [n [Hn _]]. now exists n.
Qed.

Lemma firstFit_none : forall sfxs ts,
  (forall s, In s sfxs -> ~ fits s ts) -> firstFit sfxs ts = None.
Proof.
  induction sfxs as [|s sfxs IH]; intros ts Hno; simpl; [reflexivity|].
  destruct (matchParts (splitSpaces s) ts) as [n|] eqn:E.
  - exfalso. apply (Hno s); [now left|]. apply matchParts_fits. now exists n.
  - apply IH. intros s' Hin. apply Hno. now right.
Qed.

Lemma firstFit_first : forall before s after ts rest,
  (forall s', In s' before -> ~ fits s' ts) ->
  fitsUpTo s ts rest ->
  exists n, firstFit (before ++ s :: after) ts = Some (s, n) /\ skipn n ts = rest.
Proof.
  induction before as [|b before IH]; intros s after ts rest Hno Hfit; simpl.
  - destruct Hfit as [ws [Hne [Hf [-> Hp]]]].
    rewrite splitSpaces_join by assumption.
    destruct (matchParts_complete ws ts rest Hp) as [n [Hn Hrest]].
    rewrite Hn. now exists n.
  - destruct (matchParts (splitSpaces b) ts) as [n|] eqn:E.
    + exfalso. apply (Hno b); [now left|]. apply matchParts_fits. now exists n.
    + apply IH; [|assumption]. intros s' Hin. apply Hno. now right.
Qed.

(** C6: the keyword-merge pass, token by token.  A token that is not a
    keyword with an entry in the merge table passes through unchanged, and so
    does a keyword with an entry when none of its suffix phrases appears
    next.  Otherwise the keyword, the whitespace and newline tokens skipped
    and the keywords of the first suffix phrase of its entry that appears
    next are replaced by one keyword token whose text is the keyword, a
    space and that phrase, and the pass goes on after the last keyword of
    the phrase. *)
Theorem mergeClauseKeywords_spec : forall t ts,
  mergeClauseKeywords [] = []
  /\ (type t <> Keyword \/ mergeablesOf (value t) = None ->
      mergeClauseKeywords (t :: ts) = t :: mergeClauseKeywords ts)
  /\ (forall sfxs,
         type t = Keyword ->
         mergeablesOf (value t) = Some sfxs ->
         (forall s, In s sfxs -> ~ fits s ts) ->
         mergeClauseKeywords (t :: ts) = t :: mergeClauseKeywords ts)
  /\ (forall before s after rest,
         type t = Keyword ->
         mergeablesOf (value t) = Some (before ++ s :: after) ->
         (forall s', In s' before -> ~ fits s' ts) ->
         fitsUpTo s ts rest ->
         mergeClauseKeywords (t :: ts)
         = mkToken Keyword (value t ++ SP :: s) (original t)
             :: mergeClauseKeywords rest).
Proof.
  intros t ts. unfold mergeClauseKeywords. split; [reflexivity|].
  split; [|split].
  - intros [Hty|Hno]; simpl.
    + destruct (isType Keyword t) eqn:E; [|reflexivity].
      apply isType_true in E. contradiction.
    + rewrite Hno. now destruct (isType Keyword t).
  - intros sfxs Hty Htbl Hno. simpl.
    apply isType_true in Hty. rewrite Hty, Htbl.
    now rewrite (firstFit_none sfxs ts Hno).
  - intros before s after rest Hty Htbl Hno Hfit. simpl.
    apply isType_true in Hty. rewrite Hty, Htbl.
    destruct (firstFit_first before s after ts rest Hno Hfit) as [n [Hn Hrest]].
    rewrite Hn. unfold compound. f_equal.
    rewrite mergeFrom_skip. now rewrite Hrest.
Qed.

Lemma mergeClauseKeywords_spec_witness :
  mergeClauseKeywords [xTok; kwTok "from" "FROM"] = [xTok; kwTok "from" "FROM"]
  /\ mergeClauseKeywords [kwTok "left" "LEFT"; wsTok; xTok] = [kwTok "left" "LEFT"; wsTok; xTok]
  /\ mergeClauseKeywords
       [kwTok "left" "LEFT"; wsTok; kwTok "Outer" "OUTER"; nlTok; wsTok; kwTok "join" "JOIN"; wsTok; xTok]
     = [kwTok "left" "LEFT OUTER JOIN"; wsTok; xTok].
Proof.
  assert (Hnofit : forall s ts,
             firstFit [s] ts = None -> ~ fits s ts).
  { intros s ts Hnone Hfit. apply matchParts_fits in Hfit as [n Hn].
    simpl in Hnone. rewrite Hn in Hnone. discriminate. }
  split; [|split].
  - destruct (mergeClauseKeywords_spec xTok [kwTok "from" "FROM"]) as (_ & Ha & _).
    rewrite Ha by (left; discriminate).
    destruct (mergeClauseKeywords_spec (kwTok "from" "FROM") []) as (Hnil & Ha' & _).
    rewrite Ha' by (right; reflexivity). now rewrite Hnil.
  - destruct (mergeClauseKeywords_spec (kwTok "left" "LEFT") [wsTok; xTok]) as (_ & _ & Hb & _).
    rewrite (Hb (map lit ["JOIN"; "OUTER JOIN"; "SEMI JOIN"; "ANTI JOIN"]%string)).
    + reflexivity.
    + reflexivity.
    + reflexivity.
    + intros s Hin. apply Hnofit.
      simpl in Hin. decompose [or] Hin; subst; try contradiction; reflexivity.
  - destruct (mergeClauseKeywords_spec (kwTok "left" "LEFT")
                [wsTok; kwTok "Outer" "OUTER"; nlTok; wsTok; kwTok "join" "JOIN"; wsTok; xTok])
      as (_ & _ & _ & Hc).
    rewrite (Hc [lit "JOIN"] (lit "OUTER JOIN") (map lit ["SEMI JOIN"; "ANTI JOIN"]%string)
                [wsTok; xTok]).
    + reflexivity.
    + reflexivity.
    + reflexivity.
    + intros s Hin. apply Hnofit.
      simpl in Hin. decompose [or] Hin; subst; try contradiction; reflexivity.
    + exists [lit "OUTER"; lit "JOIN"]. split; [discriminate|]. split.
      * repeat constructor; vm_compute; intros H; decompose [or] H; discriminate || contradiction.
      * split; [reflexivity|].
        apply (phrase_word (lit "OUTER") [lit "JOIN"] [wsTok] (kwTok "Outer" "OUTER")
                 [nlTok; wsTok; kwTok "join" "JOIN"; wsTok; xTok] [wsTok; xTok]);
          [repeat constructor | reflexivity | reflexivity |].
        apply (phrase_word (lit "JOIN") [] [nlTok; wsTok] (kwTok "join" "JOIN") [wsTok; xTok] [wsTok; xTok]);
          [repeat constructor | reflexivity | reflexivity | constructor].
Defined.

(* ===================================================================== *)
(** * The format engine: levels and exceptions *)
(* ===================================================================== *)

Section EngineFacts.

Variable CLAUSE_KEYWORDS : jsstring -> bool.
Variable opts : FormatOptions.

Lemma ok_ret {A} (a : A) : okM opts (ret a).
Proof. intros st H. exact H. Qed.

Lemma ok_bind {A B} (m : M A) (k : A -> M B) :
  okM opts m -> (forall a, okM opts (k a)) -> okM opts (bind m k).
Proof.
  intros Hm Hk st H. unfold bind. specialize (Hm st H).
  destruct (m st) as [[a st']| |]; auto. now apply Hk.
Qed.

Lemma ok_bind_get {B} (k : State -> M B) :
  (forall st, levelsOk st -> okM opts (k st)) -> okM opts (bind get k).
Proof. intros Hk st H. unfold bind, get. now apply Hk. Qed.

Lemma ok_when b (m : M unit) : (b = true -> okM opts m) -> okM opts (when b m).
Proof. destruct b; simpl; intros H; [now apply H | apply ok_ret]. Qed.

Lemma ok_modify f :
  (forall st, indentLevel (f st) = indentLevel st /\ caseStack (f st) = caseStack st) ->
  okM opts (modify f).
Proof.
  intros Hf st [H1 H2]. simpl. destruct (Hf st) as [E1 E2].
  split; [now rewrite E1 | now rewrite E2].
Qed.

Lemma ok_set_indentLevel v : (0 <= v)%Z -> okM opts (set_indentLevel v).
Proof. intros Hv st [H1 H2]. split; assumption. Qed.

Lemma ok_set_caseStack v :
  Forall (fun l => (0 <= l)%Z) v -> okM opts (set_caseStack v).
Proof. intros Hv st [H1 H2]. split; assumption. Qed.

Lemma ok_repeatSpaces n : okM opts (repeatSpaces n).
Proof.
  intros st H. unfold repeatSpaces.
  destruct ((n <? 0)%Z || (MAX_STRING_LENGTH <? n)%Z); simpl; [exact I | exact H].
Qed.

Lemma ok_indent : okM opts (indent opts).
Proof.
  apply ok_bind_get. intros st _. apply ok_repeatSpaces.
Qed.

Lemma ok_indentPlus : okM opts (indentPlus opts).
Proof.
  apply ok_bind; [apply ok_indent|]. intros i.
  apply ok_bind; [apply ok_repeatSpaces|]. intros e. apply ok_ret.
Qed.

Lemma ok_contentIndent b : okM opts (contentIndent opts b).
Proof.
  apply ok_bind_get. intros st _.
  destruct (statementStart st || topIs Block st || (b && topIs Concat st));
    [apply ok_indent | apply ok_indentPlus].
Qed.

Lemma ok_parenIndent : okM opts (parenIndent opts).
Proof.
  apply ok_bind_get. intros st _.
  destruct (statementStart st); [apply ok_indent | apply ok_indentPlus].
Qed.

Ltac ok_side :=
  repeat match goal with H : levelsOk _ |- _ => destruct H end;
  repeat match goal with
         | E : caseStack ?st = _, H : Forall _ (caseStack ?st) |- _ =>
             rewrite E in H; inversion H; subst; clear H
         | H : (_ <? _)%Z = true |- _ => apply Z.ltb_lt in H
         end;
  match goal with
  | |- (_ <= _)%Z => lia
  | |- Forall _ _ => auto
  end.

Ltac ok_step :=
  match goal with
  | |- okM _ (bind get _) => apply ok_bind_get; intros ? ?
  | |- okM _ (bind _ _) => apply ok_bind; [|intros ?]
  | |- okM _ (ret _) => apply ok_ret
  | |- okM _ (when _ _) => apply ok_when; intros ?
  | |- okM _ (indent _) => apply ok_indent
  | |- okM _ (indentPlus _) => apply ok_indentPlus
  | |- okM _ (contentIndent _ _) => apply ok_contentIndent
  | |- okM _ (parenIndent _) => apply ok_parenIndent
  | |- okM _ (repeatSpaces _) => apply ok_repeatSpaces
  | |- okM _ (set_indentLevel _) => apply ok_set_indentLevel; ok_side
  | |- okM _ (set_caseStack _) => apply ok_set_caseStack; ok_side
  | |- okM _ (push _) => apply ok_modify; intros ?; split; reflexivity
  | |- okM _ (set_lineStart _) => apply ok_modify; intros ?; split; reflexivity
  | |- okM _ (set_statementStart _) => apply ok_modify; intros ?; split; reflexivity
  | |- okM _ (set_parenStack _) => apply ok_modify; intros ?; split; reflexivity
  | |- okM _ (set_prevMeaningful _) => apply ok_modify; intros ?; split; reflexivity
  | |- okM _ (set_ddlContext _) => apply ok_modify; intros ?; split; reflexivity
  | |- okM _ (set_blockParenPending _) => apply ok_modify; intros ?; split; reflexivity
  | |- okM _ (set_functionContext _) => apply ok_modify; intros ?; split; reflexivity
  | |- okM _ (set_afterBlockClose _) => apply ok_modify; intros ?; split; reflexivity
  | |- okM _ (set_needNewlineBeforeFirstColumn _) =>
      apply ok_modify; intros ?; split; reflexivity
  | |- okM _ (if ?b then _ else _) => destruct b eqn:?
  | |- okM _ (match ?x with _ => _ end) => destruct x eqn:?
  end.

Ltac ok_auto := repeat ok_step.

Lemma ok_handleComment token rest :
  okM opts (handleComment CLAUSE_KEYWORDS opts token rest).
Proof. unfold handleComment. ok_auto. Qed.

Lemma ok_trackDdl token : okM opts (trackDdl token).
Proof. unfold trackDdl. ok_auto. Qed.

Lemma ok_handleSemicolon token : okM opts (handleSemicolon token).
Proof. unfold handleSemicolon. ok_auto. Qed.

Lemma ok_handleOpenParen token rest :
  okM opts (handleOpenParen CLAUSE_KEYWORDS opts token rest).
Proof. unfold handleOpenParen. ok_auto. Qed.

Lemma ok_handleCloseParen token : okM opts (handleCloseParen opts token).
Proof. unfold handleCloseParen. ok_auto. Qed.

Lemma ok_handleCase token : okM opts (handleCase opts token).
Proof. unfold handleCase. ok_auto. Qed.

Lemma ok_handleWhenElse token : okM opts (handleWhenElse opts token).
Proof. unfold handleWhenElse. ok_auto. Qed.

Lemma ok_handleEnd token : okM opts (handleEnd opts token).
Proof.
  unfold handleEnd. ok_auto.
Qed.

Lemma ok_handleCommentKeyword token : okM opts (handleCommentKeyword opts token).
Proof. unfold handleCommentKeyword. ok_auto. Qed.

Lemma ok_handleClause token rest :
  okM opts (handleClause CLAUSE_KEYWORDS opts token rest).
Proof. unfold handleClause. ok_auto. Qed.

Lemma ok_handleComma token : okM opts (handleComma opts token).
Proof. unfold handleComma. ok_auto. Qed.

Lemma ok_handleDot token : okM opts (handleDot token).
Proof. unfold handleDot. ok_auto. Qed.

Lemma ok_handleAfterDot token : okM opts (handleAfterDot opts token).
Proof. unfold handleAfterDot. ok_auto. Qed.

Lemma ok_handleDollarQuoted token : okM opts (handleDollarQuoted opts token).
Proof. unfold handleDollarQuoted. ok_auto. Qed.

Lemma ok_handleDefault token : okM opts (handleDefault opts token).
Proof. unfold handleDefault. ok_auto. Qed.

Lemma ok_step_ token rest : okM opts (step CLAUSE_KEYWORDS opts token rest).
Proof.
  unfold step.
  destruct (isBlank token); [apply ok_ret|].
  destruct (isComment token).
  { apply ok_bind; [apply ok_handleComment | intros; apply ok_ret]. }
  destruct (isType EOF token); [apply ok_ret|].
  apply ok_bind; [apply ok_trackDdl | intros _].
  apply ok_bind_get. intros st Hst.
  apply ok_bind; [|intros; apply ok_ret].
  repeat match goal with
  | |- okM _ (if ?b then _ else _) => destruct b
  end;
  auto using ok_handleSemicolon, ok_handleOpenParen, ok_handleCloseParen,
    ok_handleCase, ok_handleWhenElse, ok_handleEnd, ok_handleCommentKeyword,
    ok_handleClause, ok_handleComma, ok_handleDot, ok_handleAfterDot,
    ok_handleDollarQuoted, ok_handleDefault.
Qed.

Lemma ok_runLoop : forall merged, okM opts (runLoop CLAUSE_KEYWORDS opts merged).
Proof.
  induction merged as [|token rest IH]; simpl; [apply ok_ret|].
  apply ok_bind; [apply ok_step_|]. intros [|]; [exact IH | apply ok_ret].
Qed.

Lemma levelsOk_initial : levelsOk initialState.
Proof. split; [simpl; lia | constructor]. Qed.

Lemma engineStates_levels : forall merged st,
  levelsOk st -> Forall levelsOk (engineStates CLAUSE_KEYWORDS opts merged st).
Proof.
  induction merged as [|token rest IH]; intros st H; simpl.
  - constructor; [exact H | constructor].
  - constructor; [exact H|].
    pose proof (ok_step_ token rest st H) as Hs.
    destruct (step CLAUSE_KEYWORDS opts token rest st) as [[[|] st']| |];
      try constructor; auto.
Qed.

End EngineFacts.

(** The state a returning loop ends in is the last of [engineStates]. *)
Lemma engineStates_final CLAUSE_KEYWORDS opts : forall merged st st',
  runLoop CLAUSE_KEYWORDS opts merged st = Returns (tt, st') ->
  In st' (engineStates CLAUSE_KEYWORDS opts merged st).
Proof.
  induction merged as [|token rest IH]; intros st st' H; simpl in *.
  - inversion H. now left.
  - right. unfold bind in H.
    destruct (step CLAUSE_KEYWORDS opts token rest st) as [[[|] st1]| |];
      try discriminate.
    + now apply IH.
    + inversion H. now left.
Qed.

(** C9: in every call of [formatDatabricksSQL], for every input and all
    options, the indent level is at least 0 in every state the engine goes
    through, from the initial one on (and so is every level saved by a
    CASE). *)
Theorem indentLevel_never_negative : forall KEYWORDS CLAUSE_KEYWORDS input opts,
  In initialState (invocationStates KEYWORDS CLAUSE_KEYWORDS input opts)
  /\ Forall (fun st => (0 <= indentLevel st)%Z
                       /\ Forall (fun l => (0 <= l)%Z) (caseStack st))
       (invocationStates KEYWORDS CLAUSE_KEYWORDS input opts).
Proof.
  intros KEYWORDS CLAUSE_KEYWORDS input opts. unfold invocationStates.
  destruct (tokenize_total KEYWORDS input) as [tokens ->]. split.
  - destruct (mergeUnquotedLanguageBody (mergeClauseKeywords tokens)); now left.
  - apply engineStates_levels, levelsOk_initial.
Qed.

(* ===================================================================== *)
(** * The end of the output *)
(* ===================================================================== *)

Lemma dropWhile_head p : forall s c s', dropWhile p s = c :: s' -> p c = false.
Proof.
  induction s as [|x s IH]; intros c s' H; simpl in H; [discriminate|].
  destruct (p x) eqn:E; [now apply IH with s'|]. now inversion H; subst.
Qed.

Lemma dropWhile_suffix p : forall s, exists w, s = w ++ dropWhile p s.
Proof.
  induction s as [|x s [w IH]]; simpl; [now exists []|].
  destruct (p x); [|now exists []].
  exists (x :: w). simpl. now rewrite <- IH.
Qed.

Lemma trim_noEdgeSpace s : noEdgeSpace (trim s).
Proof.
  unfold trim, trimEnd, trimStart. split.
  - intros c s' H.
    destruct (dropWhile_suffix isJsSpace (rev (dropWhile isJsSpace s))) as [w Hw].
    apply (f_equal (@rev char)) in Hw.
    rewrite rev_involutive, rev_app_distr, H in Hw. simpl in Hw.
    now apply dropWhile_head in Hw.
  - intros c s' H. apply (f_equal (@rev char)) in H.
    rewrite rev_involutive, rev_app_distr in H. simpl in H.
    now apply dropWhile_head in H.
Qed.

Lemma blankOrEnd_not_keyword t : blankOrEnd t -> isType Keyword t = false.
Proof.
  intros [H| ->]; [|reflexivity].
  unfold isBlank, isType in *. destruct (type t); simpl in *; congruence.
Qed.

Lemma lexOne_layout KEYWORDS c s :
  forallb isLayoutChar (c :: s) = true ->
  isBlank (fst (lexOne KEYWORDS c s)) = true
  /\ forallb isLayoutChar (snd (lexOne KEYWORDS c s)) = true.
Proof.
  intros H. simpl in H. apply andb_true_iff in H as [Hc Hs]. split.
  - unfold lexOne.
    destruct ((c =? SP)%N || (c =? TAB)%N) eqn:E1.
    + destruct (span (fun x => (x =? SP) || (x =? TAB))%N (c :: s)). reflexivity.
    + unfold isLayoutChar in Hc. rewrite E1 in Hc. simpl in Hc.
      rewrite Hc.
      destruct ((c =? CR)%N && nextIs LF s); reflexivity.
  - destruct (lexOne_text KEYWORDS c s) as [txt [_ Happ]].
    rewrite <- Happ in Hs. rewrite forallb_app in Hs.
    now apply andb_true_iff in Hs as [_ Hs].
Qed.

Lemma tokenizeLoop_layout KEYWORDS : forall fuel input tokens,
  forallb isLayoutChar input = true ->
  tokenizeLoop KEYWORDS fuel input = Returns tokens ->
  Forall blankOrEnd tokens.
Proof.
  induction fuel as [|fuel IH]; intros [|c s] tokens Hl H; simpl in H;
    try discriminate.
  - inversion H. constructor; [now right | constructor].
  - inversion H. constructor; [now right | constructor].
  - destruct (lexOne_layout KEYWORDS c s Hl) as [Hb Hr].
    destruct (lexOne KEYWORDS c s) as [t r]; simpl in *.
    destruct (tokenizeLoop KEYWORDS fuel r) as [ts| |] eqn:E; simpl in H;
      try discriminate.
    inversion H; subst. constructor; [now left | now apply IH with r].
Qed.

Lemma mergeFrom_blankOrEnd : forall ts, Forall blankOrEnd ts -> mergeFrom 0 ts = ts.
Proof.
  induction ts as [|t ts IH]; intros H; [reflexivity|].
  inversion H; subst. simpl.
  rewrite (blankOrEnd_not_keyword t) by assumption. now rewrite IH.
Qed.

Lemma languageFrom_blankOrEnd : forall ts, Forall blankOrEnd ts -> languageFrom 0 ts = ts.
Proof.
  induction ts as [|t ts IH]; intros H; [reflexivity|].
  inversion H; subst. simpl. unfold isKw.
  rewrite (blankOrEnd_not_keyword t) by assumption. simpl. now rewrite IH.
Qed.

Lemma runLoop_blankOrEnd CLAUSE_KEYWORDS opts : forall ts st,
  Forall blankOrEnd ts -> runLoop CLAUSE_KEYWORDS opts ts st = Returns (tt, st).
Proof.
  induction ts as [|t ts IH]; intros st H; [reflexivity|].
  inversion H as [|? ? Ht Hts]; subst. simpl. unfold bind, step.
  destruct Ht as [Hb| ->].
  - rewrite Hb. simpl. now apply IH.
  - reflexivity.
Qed.

(* ===================================================================== *)
(** * Scenarios *)
(* ===================================================================== *)

(** The pipeline depends on the keyword tables only through their values:
    two pairs of tables that agree everywhere give the same result. *)
Section Tables.

Variables K1 K2 C1 C2 : jsstring -> bool.
Hypothesis HK : forall w, K1 w = K2 w.
Hypothesis HC : forall w, C1 w = C2 w.
Variable opts : FormatOptions.

Lemma lexOne_ext c s : lexOne K1 c s = lexOne K2 c s.
Proof.
  unfold lexOne. destruct (span isWordChar (c :: s)) as [word r].
  now rewrite HK.
Qed.

Lemma tokenizeLoop_ext : forall fuel input,
  tokenizeLoop K1 fuel input = tokenizeLoop K2 fuel input.
Proof.
  induction fuel as [|fuel IH]; intros [|c s];
    [reflexivity | reflexivity | reflexivity |].
  simpl. rewrite lexOne_ext. destruct (lexOne K2 c s). now rewrite IH.
Qed.

Lemma countSelectColumnsFrom_ext : forall ts depth commas,
  countSelectColumnsFrom C1 depth commas ts = countSelectColumnsFrom C2 depth commas ts.
Proof.
  induction ts as [|t ts IH]; intros depth commas; simpl; [reflexivity|].
  rewrite HC, !IH. destruct depth; [|now rewrite IH]. reflexivity.
Qed.

Lemma handleComment_ext token rest :
  handleComment C1 opts token rest = handleComment C2 opts token rest.
Proof.
  unfold handleComment. destruct (findNextMeaningful rest) as [nm|]; [|reflexivity].
  now rewrite HC.
Qed.

Lemma handleClause_ext token rest :
  handleClause C1 opts token rest = handleClause C2 opts token rest.
Proof.
  unfold handleClause, countSelectColumns. now rewrite countSelectColumnsFrom_ext.
Qed.

Lemma handleOpenParen_ext token rest st :
  handleOpenParen C1 opts token rest st = handleOpenParen C2 opts token rest st.
Proof.
  unfold handleOpenParen, bind, get.
  destruct (findNextNonWhitespace rest) as [n|];
    destruct (prevMeaningful st) as [p|]; rewrite ?HC; reflexivity.
Qed.

Lemma bind_ext {A B} (m1 m2 : M A) (k1 k2 : A -> M B) st :
  m1 st = m2 st -> (forall a st', k1 a st' = k2 a st') ->
  bind m1 k1 st = bind m2 k2 st.
Proof.
  intros Hm Hk. unfold bind. rewrite Hm.
  destruct (m2 st) as [[a st']| |]; auto.
Qed.

Lemma step_ext token rest st :
  step C1 opts token rest st = step C2 opts token rest st.
Proof.
  unfold step. rewrite handleComment_ext, handleClause_ext, HC.
  destruct (isBlank token); [reflexivity|].
  destruct (isComment token); [reflexivity|].
  destruct (isType EOF token); [reflexivity|].
  apply bind_ext; [reflexivity|]. intros _ st1.
  apply bind_ext; [reflexivity|]. intros st2 st3.
  apply bind_ext; [|reflexivity].
  destruct (isType Semicolon token); [reflexivity|].
  destruct (isType OpenParen token); [apply handleOpenParen_ext | reflexivity].
Qed.

Lemma runLoop_ext : forall merged st,
  runLoop C1 opts merged st = runLoop C2 opts merged st.
Proof.
  induction merged as [|token rest IH]; intros st; simpl; [reflexivity|].
  unfold bind. rewrite step_ext.
  destruct (step C2 opts token rest st) as [[[|] st1]| |]; auto.
Qed.

Lemma formatDatabricksSQL_ext input :
  formatDatabricksSQL K1 C1 input opts = formatDatabricksSQL K2 C2 input opts.
Proof.
  unfold formatDatabricksSQL, tokenize. rewrite tokenizeLoop_ext.
  destruct (tokenizeLoop K2 (length input) input) as [tokens| |];
    [|reflexivity|reflexivity].
  unfold formatTokens. now rewrite runLoop_ext.
Qed.

End Tables.

(** A table that is known on the words of an input agrees with one that
    computes on them. *)
Ltac known_table :=
  let w := fresh "w" in
  intros w;
  match goal with |- _ = ?T w => unfold T end;
  repeat match goal with
         | |- context [streq w ?k] =>
             let E := fresh "E" in
             destruct (streq w k) eqn:E;
             [apply streq_eq in E; subst w; assumption|]
         end;
  reflexivity.

(** C5: with the default options, for any keyword tables in which [SELECT],
    [FROM] and [WHERE] are clause keywords and [a], [b], [c], [my_table] and
    [x] are not keywords, the input [select a, b, c from my_table where x = 1]
    is formatted with each column on an indented line of its own, and FROM
    and WHERE at the start of a line. *)
Theorem format_basic_select : forall KEYWORDS CLAUSE_KEYWORDS,
  KEYWORDS (lit "SELECT") = true ->
  KEYWORDS (lit "FROM") = true ->
  KEYWORDS (lit "WHERE") = true ->
  KEYWORDS (lit "A") = false ->
  KEYWORDS (lit "B") = false ->
  KEYWORDS (lit "C") = false ->
  KEYWORDS (lit "MY_TABLE") = false ->
  KEYWORDS (lit "X") = false ->
  CLAUSE_KEYWORDS (lit "SELECT") = true ->
  CLAUSE_KEYWORDS (lit "FROM") = true ->
  CLAUSE_KEYWORDS (lit "WHERE") = true ->
  formatDatabricksSQL KEYWORDS CLAUSE_KEYWORDS
    (lit "select a, b, c from my_table where x = 1") DEFAULT_OPTIONS
  = Returns (lit "SELECT" ++ [LF] ++ lit "  a," ++ [LF] ++ lit "  b," ++ [LF]
             ++ lit "  c" ++ [LF] ++ lit "FROM my_table" ++ [LF]
             ++ lit "WHERE x = 1" ++ [LF]).
Proof.
  intros KW CK K1 K2 K3 K4 K5 K6 K7 K8 C1 C2 C3.
  set (KW' := fun w : jsstring =>
    if streq w (lit "SELECT") then true
    else if streq w (lit "FROM") then true
    else if streq w (lit "WHERE") then true
    else if streq w (lit "A") then false
    else if streq w (lit "B") then false
    else if streq w (lit "C") then false
    else if streq w (lit "MY_TABLE") then false
    else if streq w (lit "X") then false
    else KW w).
  set (CK' := fun w : jsstring =>
    if streq w (lit "SELECT") then true
    else if streq w (lit "FROM") then true
    else if streq w (lit "WHERE") then true
    else CK w).
  rewrite (formatDatabricksSQL_ext KW KW' CK CK'); [|known_table|known_table].
  vm_compute. reflexivity.
Qed.

Lemma format_basic_select_witness :
  formatDatabricksSQL KEYWORDS_spec CLAUSE_KEYWORDS_spec
    (lit "select a, b, c from my_table where x = 1") DEFAULT_OPTIONS
  = Returns (lit "SELECT" ++ [LF] ++ lit "  a," ++ [LF] ++ lit "  b," ++ [LF]
             ++ lit "  c" ++ [LF] ++ lit "FROM my_table" ++ [LF]
             ++ lit "WHERE x = 1" ++ [LF]).
Proof.
  apply (format_basic_select KEYWORDS_spec CLAUSE_KEYWORDS_spec); reflexivity.
Defined.

(** C3: what the semicolon handler does, and what it leaves.  It pushes
    [;] and a blank line, sets the indent level to 0, empties the CASE stack
    and clears the five context flags, but the stack of open parentheses
    stays as it was.  So the statement after a semicolon is not formatted
    on its own: after [(1;] the comma of [2, 3] is still inside the open
    grouping parenthesis and stays on the line, while [2, 3] alone breaks
    after the comma. *)
Theorem semicolon_keeps_parenStack :
  (forall token st,
      handleSemicolon token st
      = Returns (tt, mkState (result st ++ [lit ";" ++ [LF; LF]]) 0 true true
                       (parenStack st) [] (Some token)
                       false false false false false))
  /\ (forall KEYWORDS CLAUSE_KEYWORDS,
         formatDatabricksSQL KEYWORDS CLAUSE_KEYWORDS (lit "(1; 2, 3") DEFAULT_OPTIONS
         = Returns (lit "(1;" ++ [LF; LF] ++ lit "2, 3" ++ [LF])
         /\ formatDatabricksSQL KEYWORDS CLAUSE_KEYWORDS (lit "2, 3") DEFAULT_OPTIONS
            = Returns (lit "2," ++ [LF] ++ lit "  3" ++ [LF])).
Proof.
  split.
  - intros token st. reflexivity.
  - intros KEYWORDS CLAUSE_KEYWORDS. split; vm_compute; reflexivity.
Qed.

(** C7: with [keywordCase] [preserve], a compound keyword made by the merge
    pass is written as the captured casing of its first word only: the
    keyword made of [group] and [by] comes out as [group], the word [by] is
    lost; with [upper] it is written [GROUP BY]. *)
Theorem preserve_drops_merged_suffix :
  (forall size commas ty v c o sfx,
      applyCase (mkOptions size preserve commas)
        (compound (mkToken ty v (Some (c :: o))) sfx) = c :: o)
  /\ formatDatabricksSQL KEYWORDS_spec CLAUSE_KEYWORDS_spec
       (lit "select a from t group by a") (mkOptions 2 preserve trailing)
     = Returns (lit "select a" ++ [LF] ++ lit "from t" ++ [LF]
                ++ lit "group a" ++ [LF])
  /\ formatDatabricksSQL KEYWORDS_spec CLAUSE_KEYWORDS_spec
       (lit "select a from t group by a") DEFAULT_OPTIONS
     = Returns (lit "SELECT a" ++ [LF] ++ lit "FROM t" ++ [LF]
                ++ lit "GROUP BY a" ++ [LF]).
Proof.
  split; [reflexivity|]. split; vm_compute; reflexivity.
Qed.

(** C4: an unquoted body that starts on the line of [LANGUAGE ... AS] gets
    one more space in front of it each time it is formatted, so formatting
    the output again changes it. *)
Theorem unquoted_body_not_idempotent :
  formatDatabricksSQL KEYWORDS_spec CLAUSE_KEYWORDS_spec
    (lit "create view v with metrics language yaml as version: 1") DEFAULT_OPTIONS
  = Returns (lit "CREATE VIEW v" ++ [LF] ++ lit "WITH METRICS" ++ [LF]
             ++ lit "LANGUAGE yaml AS  version: 1" ++ [LF])
  /\ formatTwice KEYWORDS_spec CLAUSE_KEYWORDS_spec
       (lit "create view v with metrics language yaml as version: 1") DEFAULT_OPTIONS
     = Returns (lit "CREATE VIEW v" ++ [LF] ++ lit "WITH METRICS" ++ [LF]
                ++ lit "LANGUAGE yaml AS   version: 1" ++ [LF])
  /\ formatTwice KEYWORDS_spec CLAUSE_KEYWORDS_spec
       (lit "create view v with metrics language yaml as version: 1") DEFAULT_OPTIONS
     <> formatDatabricksSQL KEYWORDS_spec CLAUSE_KEYWORDS_spec
          (lit "create view v with metrics language yaml as version: 1")
          DEFAULT_OPTIONS.
Proof.
  split; [vm_compute; reflexivity|].
  split; [vm_compute; reflexivity|].
  vm_compute. discriminate.
Qed.

(* ===================================================================== *)
(** * Further properties of the lexer *)
(* ===================================================================== *)

Section LexerMore.

Variable KEYWORDS : jsstring -> bool.

Lemma tokenizeLoop_nil fuel : tokenizeLoop KEYWORDS fuel [] = Returns [tok EOF []].
Proof. destruct fuel; reflexivity. Qed.

Lemma lexOne_not_EOF c s : type (fst (lexOne KEYWORDS c s)) <> EOF.
Proof.
  destruct (lexOne KEYWORDS c s) as [t r] eqn:H. unfold lexOne in H.
  lex_cases H; simpl; discriminate.
Qed.

Lemma lexOne_value_nonempty c s : value (fst (lexOne KEYWORDS c s)) <> [].
Proof.
  destruct (lexOne_text KEYWORDS c s) as [txt [Ht _]].
  pose proof (lexOne_original KEYWORDS c s) as Ho.
  unfold sourceText, originalOk in *.
  destruct (original (fst (lexOne KEYWORDS c s))) as [o|].
  - destruct Ho as [_ ->]. subst o. discriminate.
  - rewrite Ht. discriminate.
Qed.

Lemma tokenizeLoop_shape : forall fuel input tokens,
  tokenizeLoop KEYWORDS fuel input = Returns tokens ->
  exists body,
    tokens = body ++ [tok EOF []]
    /\ Forall (fun t => type t <> EOF /\ value t <> []) body
    /\ length body <= length input.
Proof.
  induction fuel as [|fuel IH]; intros [|c s] tokens H; simpl in H;
    try discriminate.
  - inversion H. exists []. repeat split; auto.
  - inversion H. exists []. repeat split; auto.
  - pose proof (lexOne_not_EOF c s) as H1.
    pose proof (lexOne_value_nonempty c s) as H2.
    pose proof (lexOne_shorter KEYWORDS c s) as H3.
    destruct (lexOne KEYWORDS c s) as [t r]; simpl in *.
    destruct (tokenizeLoop KEYWORDS fuel r) as [ts| |] eqn:E; simpl in H;
      try discriminate.
    inversion H; subst. destruct (IH r ts E) as [body [-> [Hall Hlen]]].
    exists (t :: body). repeat split; auto. simpl. lia.
Qed.

(** Consecutive tokens come from consecutive iterations. *)
Lemma tokenizeLoop_adjacent (R : Token -> Token -> Prop) :
  (forall c s c2 s2,
      snd (lexOne KEYWORDS c s) = c2 :: s2 ->
      R (fst (lexOne KEYWORDS c s)) (fst (lexOne KEYWORDS c2 s2))) ->
  (forall c s,
      snd (lexOne KEYWORDS c s) = [] -> R (fst (lexOne KEYWORDS c s)) (tok EOF [])) ->
  forall fuel input tokens,
    tokenizeLoop KEYWORDS fuel input = Returns tokens ->
    forall pre t1 t2 post, tokens = pre ++ t1 :: t2 :: post -> R t1 t2.
Proof.
  intros Hnext Hlast.
  induction fuel as [|fuel IH]; intros [|c s] tokens H; simpl in H;
    try discriminate.
  - inversion H. intros [|p [|q pre]] t1 t2 post E; discriminate.
  - inversion H. intros [|p [|q pre]] t1 t2 post E; discriminate.
  - specialize (Hnext c s). specialize (Hlast c s).
    destruct (lexOne KEYWORDS c s) as [t r]; simpl in *.
    destruct (tokenizeLoop KEYWORDS fuel r) as [ts| |] eqn:E; simpl in H;
      try discriminate.
    inversion H; subst. intros [|p pre] t1 t2 post Eq; simpl in Eq.
    + inversion Eq; subst. destruct r as [|c2 s2].
      * rewrite tokenizeLoop_nil in E. inversion E; subst. now apply Hlast.
      * destruct fuel as [|fuel']; simpl in E; [discriminate|].
        specialize (Hnext c2 s2 eq_refl).
        destruct (lexOne KEYWORDS c2 s2) as [t' r']; simpl in *.
        destruct (tokenizeLoop KEYWORDS fuel' r'); simpl in E; try discriminate.
        now inversion E; subst.
    + inversion Eq; subst. now apply (IH r _ E pre t1 t2 post).
Qed.

Lemma lexOne_whitespace c s :
  type (fst (lexOne KEYWORDS c s)) = Whitespace -> isSpaceTab c = true.
Proof.
  destruct (lexOne KEYWORDS c s) as [t r] eqn:H. unfold lexOne in H.
  lex_cases H; simpl; try discriminate. intros _. assumption.
Qed.

Lemma lexOne_whitespace_rest c s :
  type (fst (lexOne KEYWORDS c s)) = Whitespace ->
  match snd (lexOne KEYWORDS c s) with
  | x :: _ => isSpaceTab x = false
  | [] => True
  end.
Proof.
  destruct (lexOne KEYWORDS c s) as [t r] eqn:H. unfold lexOne in H.
  lex_cases H; simpl; try discriminate. intros _.
  match goal with
  | E : span ?p (c :: s) = _ |- _ =>
      pose proof (span_stop p (c :: s)) as Hs; rewrite E in Hs; exact Hs
  end.
Qed.

Lemma lexOne_word_rest c s :
  isWordToken (fst (lexOne KEYWORDS c s)) ->
  match snd (lexOne KEYWORDS c s) with
  | x :: _ => isWordChar x = false
  | [] => True
  end.
Proof.
  destruct (lexOne KEYWORDS c s) as [t r] eqn:H. unfold lexOne in H.
  lex_cases H;
    try match goal with
        | E : span isWordChar (c :: s) = _ |- _ =>
            pose proof (span_stop isWordChar (c :: s)) as Hs; rewrite E in Hs
        end;
    unfold tok; cbn [fst snd];
    intros [Hk|[Hi [c0 [v [Hv Hw]]]]]; cbn [type value] in *;
    try discriminate;
    try (inversion Hv; subst; vm_compute in Hw; discriminate);
    exact Hs.
Qed.

Lemma lexOne_fixedText c s : fixedText (fst (lexOne KEYWORDS c s)).
Proof.
  destruct (lexOne KEYWORDS c s) as [t r] eqn:H. unfold lexOne in H.
  lex_cases H; unfold fixedText; simpl; auto;
    try (bool_facts; subst; reflexivity).
  - match goal with
    | E : span ?p (c :: s) = _ |- _ =>
        pose proof (span_prefix p (c :: s)) as Hs; rewrite E in Hs; exact Hs
    end.
  - match goal with
    | E : (c =? LF)%N || (c =? CR)%N = true |- _ =>
        apply orb_true_iff in E as [E|E]; apply N.eqb_eq in E; subst; auto
    end.
  - match goal with
    | E : span ?p (c :: s) = (?cm, _) |- _ =>
        pose proof (span_prefix p (c :: s)) as Hs; rewrite E in Hs; simpl in Hs;
        rewrite forallb_forall in Hs; intros Hin; specialize (Hs LF Hin);
        discriminate
    end.
Qed.

End LexerMore.

(** X1: the token sequence is the tokens read, none of them an end-of-input
    token and none with an empty text, followed by exactly one end-of-input
    token; there is at most one token for each character of the input. *)
Theorem tokenize_ends_with_EOF : forall KEYWORDS input,
  exists body,
    tokenize KEYWORDS input = Returns (body ++ [tok EOF []])
    /\ Forall (fun t => type t <> EOF /\ value t <> []) body
    /\ length body <= length input.
Proof.
  intros KEYWORDS input.
  destruct (tokenize_total KEYWORDS input) as [tokens H].
  destruct (tokenizeLoop_shape KEYWORDS _ _ _ H) as [body [-> Hb]].
  now exists body.
Qed.

(** X2: tokens are read as long as they can be.  Two Whitespace tokens
    never follow each other, and the token after a keyword or an unquoted
    identifier never starts with a letter, a digit or an underscore. *)
Theorem tokenize_maximal_runs : forall KEYWORDS input tokens pre t1 t2 post,
  tokenize KEYWORDS input = Returns tokens ->
  tokens = pre ++ t1 :: t2 :: post ->
  ~ (type t1 = Whitespace /\ type t2 = Whitespace)
  /\ (isWordToken t1 -> forall c v, sourceText t2 = c :: v -> isWordChar c = false).
Proof.
  intros KEYWORDS input tokens pre t1 t2 post Htok Heq.
  apply (tokenizeLoop_adjacent KEYWORDS
           (fun t1 t2 =>
              ~ (type t1 = Whitespace /\ type t2 = Whitespace)
              /\ (isWordToken t1 ->
                  forall c v, sourceText t2 = c :: v -> isWordChar c = false)))
    with (length input) input tokens pre post; auto.
  - intros c s c2 s2 Hr. split.
    + intros [H1 H2].
      pose proof (lexOne_whitespace_rest KEYWORDS c s H1) as Hs.
      rewrite Hr in Hs.
      apply lexOne_whitespace in H2. congruence.
    + intros Hw c0 v Hv.
      pose proof (lexOne_word_rest KEYWORDS c s Hw) as Hs. rewrite Hr in Hs.
      destruct (lexOne_text KEYWORDS c2 s2) as [txt [Ht _]].
      rewrite Ht in Hv. inversion Hv; subst. exact Hs.
  - intros c s _. split; [intros [_ H]; discriminate | intros _ c0 v H; discriminate].
Qed.

Lemma tokenize_maximal_runs_witness :
  ~ (type (tok Identifier (lit "ab")) = Whitespace
     /\ type (tok Whitespace (lit "  ")) = Whitespace)
  /\ (isWordToken (tok Identifier (lit "ab")) ->
      forall c v, sourceText (tok Whitespace (lit "  ")) = c :: v ->
                  isWordChar c = false).
Proof.
  apply (tokenize_maximal_runs KEYWORDS_spec (lit "ab  cd")
           [tok Identifier (lit "ab"); tok Whitespace (lit "  ");
            tok Identifier (lit "cd"); tok EOF []]
           [] (tok Identifier (lit "ab")) (tok Whitespace (lit "  "))
           [tok Identifier (lit "cd"); tok EOF []]).
  - vm_compute. reflexivity.
  - reflexivity.
Defined.

(** X3: the tokens whose text does not depend on the input have it: the
    five structural tokens are [(], [)], [,], [;] and [.]; a Newline token is
    LF, CR or CR LF; a Whitespace token holds spaces and tabs only; a line
    comment holds no LF; the end-of-input token is empty. *)
Theorem tokenize_fixed_texts : forall KEYWORDS input,
  exists tokens,
    tokenize KEYWORDS input = Returns tokens /\ Forall fixedText tokens.
Proof.
  intros KEYWORDS input.
  destruct (tokenize_total KEYWORDS input) as [tokens H]. exists tokens.
  split; [exact H|].
  apply (tokenizeLoop_Forall KEYWORDS fixedText) with (length input) input;
    [apply lexOne_fixedText | reflexivity | exact H].
Qed.








Lemma upperChar_idem c : upperChar (upperChar c) = upperChar c.
Proof.
  unfold upperChar, isLowerAZ, inRange.
  destruct ((97 <=? c)%N && (c <=? 122)%N) eqn:E.
  - apply andb_true_iff in E as [L U]. apply N.leb_le in L, U.
    assert (H : (97 <=? c - 32)%N = false) by (apply N.leb_gt; lia).
    now rewrite H.
  - now rewrite E.
Qed.

Lemma toUpperCase_idem s : toUpperCase (toUpperCase s) = toUpperCase s.
Proof.
  unfold toUpperCase. rewrite map_map. apply map_ext. apply upperChar_idem.
Qed.

Lemma lexOne_caseOk KEYWORDS c s : caseOk (fst (lexOne KEYWORDS c s)).
Proof.
  destruct (lexOne KEYWORDS c s) as [t r] eqn:H. unfold lexOne in H.
  lex_cases H; intros size commas; unfold applyCase, sourceText; simpl; auto.
  split; [|split].
  - match goal with |- match ?w with _ => _ end = _ => now destruct w end.
  - apply toUpperCase_idem.
  - discriminate.
Qed.

(** X5: the keyword-case policies on the tokens of the lexer.  With
    [preserve], the texts written for the tokens, one after the other, are
    the input; with [upper], the text written for a token is its [value]. *)
Theorem applyCase_on_lexer_tokens : forall KEYWORDS input size commas,
  exists tokens,
    tokenize KEYWORDS input = Returns tokens
    /\ concat (map (applyCase (mkOptions size preserve commas)) tokens) = input
    /\ map (applyCase (mkOptions size upper commas)) tokens = map value tokens.
Proof.
  intros KEYWORDS input size commas.
  destruct (tokenizeLoop_lossless KEYWORDS (length input) input) as [tokens [H1 H2]];
    [lia|].
  exists tokens. split; [exact H1|].
  assert (Hall : Forall caseOk tokens).
  { apply (tokenizeLoop_Forall KEYWORDS caseOk) with (length input) input;
      [apply lexOne_caseOk | | exact H1].
    intros sz cm. repeat split. }
  split.
  - transitivity (concat (map sourceText tokens)); [|exact H2].
    f_equal. apply map_ext_in. intros t Hin.
    rewrite Forall_forall in Hall. apply (Hall t Hin size commas).
  - apply map_ext_in. intros t Hin.
    rewrite Forall_forall in Hall. apply (Hall t Hin size commas).
Qed.

(* ===================================================================== *)
(** * Further properties of the merge passes *)
(* ===================================================================== *)

Lemma firstn_add {A} : forall n m (l : list A),
  firstn (n + m) l = firstn n l ++ firstn m (skipn n l).
Proof.
  induction n as [|n IH]; intros m l; simpl; [reflexivity|].
  destruct l as [|x l]; simpl; [now rewrite firstn_nil | now rewrite IH].
Qed.

Lemma skipn_cons_length {A} : forall n (l : list A) x l',
  skipn n l = x :: l' -> length l = n + S (length l').
Proof.
  intros n l x l' H.
  rewrite <- (firstn_skipn n l) at 1. rewrite H, length_app. simpl.
  rewrite firstn_length_le; [reflexivity|].
  destruct (Nat.le_gt_cases n (length l)) as [Hle|Hgt]; [exact Hle|].
  rewrite skipn_all2 in H by lia. discriminate.
Qed.

Lemma blanks_no_content : forall l,
  Forall (fun t => isBlank t = true) l -> filter isContent l = [].
Proof.
  induction l as [|t l IH]; intros H; [reflexivity|].
  inversion H; subst. simpl. unfold isContent at 1.
  now rewrite H2, andb_false_r, IH.
Qed.

Lemma matchParts_consumed : forall parts ts n,
  matchParts parts ts = Some n ->
  n <= length ts /\ filter isContent (firstn n ts) = [].
Proof.
  induction parts as [|part parts IH]; intros ts n H; simpl in H.
  - inversion H. split; [lia | reflexivity].
  - pose proof (skipBlanks_split ts) as Hb.
    destruct (skipn (skipBlanks ts) ts) as [|k ts'] eqn:Esk; [discriminate|].
    destruct (isType Keyword k && streq (value k) part) eqn:Ek; [|discriminate].
    apply andb_true_iff in Ek as [Ety _].
    destruct (matchParts parts ts') as [m|] eqn:Em; [|discriminate].
    inversion H; subst n. destruct (IH ts' m Em) as [Hm Hf].
    pose proof (skipn_cons_length _ _ _ _ Esk) as Hlen.
    split; [lia|].
    replace (skipBlanks ts + 1 + m) with (skipBlanks ts + S m) by lia.
    rewrite firstn_add, Esk, filter_app, (blanks_no_content _ Hb). simpl.
    unfold isContent at 1. rewrite Ety. simpl. exact Hf.
Qed.

Lemma firstFit_consumed : forall sfxs ts s n,
  firstFit sfxs ts = Some (s, n) ->
  n <= length ts /\ filter isContent (firstn n ts) = [].
Proof.
  induction sfxs as [|x sfxs IH]; intros ts s n H; simpl in H; [discriminate|].
  destruct (matchParts (splitSpaces x) ts) as [m|] eqn:E.
  - inversion H; subst. now apply matchParts_consumed with (splitSpaces s).
  - now apply IH with s.
Qed.

Lemma mergeFrom_content : forall m ts,
  length ts <= m ->
  filter isContent (mergeFrom 0 ts) = filter isContent ts
  /\ length (mergeFrom 0 ts) <= length ts.
Proof.
  induction m as [|m IH]; intros [|t rest] Hlen; simpl in Hlen;
    try (split; [reflexivity | simpl; lia]); try lia.
  assert (Hpass : filter isContent (t :: mergeFrom 0 rest) = filter isContent (t :: rest)
                  /\ length (t :: mergeFrom 0 rest) <= length (t :: rest)).
  { destruct (IH rest) as [H1 H2]; [lia|]. simpl. rewrite H1. split; [reflexivity | lia]. }
  simpl mergeFrom.
  destruct (isType Keyword t) eqn:Ety; [|exact Hpass].
  destruct (mergeablesOf (value t)) as [sfxs|]; [|exact Hpass].
  destruct (firstFit sfxs rest) as [[sfx n]|] eqn:Efit; [|exact Hpass].
  destruct (firstFit_consumed _ _ _ _ Efit) as [Hn Hf].
  rewrite mergeFrom_skip.
  destruct (IH (skipn n rest)) as [H1 H2]; [rewrite length_skipn; lia|].
  rewrite length_skipn in H2. split.
  - assert (Hc : isContent t = false) by (unfold isContent; now rewrite Ety).
    cbn [filter]. rewrite Hc.
    change (isContent (compound t sfx)) with false. cbn iota.
    rewrite H1. rewrite <- (firstn_skipn n rest) at 2.
    now rewrite filter_app, Hf.
  - simpl. lia.
Qed.

(** X6: the keyword-merge pass touches keywords and the whitespace between
    them only: the tokens that are neither keywords nor whitespace nor
    newlines come out unchanged and in the same order, and the pass never
    adds a token. *)
Theorem mergeClauseKeywords_keeps_content : forall tokens,
  filter isContent (mergeClauseKeywords tokens) = filter isContent tokens
  /\ length (mergeClauseKeywords tokens) <= length tokens.
Proof. intros tokens. apply (mergeFrom_content (length tokens)). lia. Qed.

Lemma languageFrom_skip : forall ts n, languageFrom n ts = languageFrom 0 (skipn n ts).
Proof.
  induction ts as [|t ts IH]; intros [|n]; try reflexivity.
  simpl languageFrom at 1. rewrite IH. reflexivity.
Qed.

Lemma blanks_no_end : forall l,
  Forall (fun t => isBlank t = true) l -> filter isStatementEnd l = [].
Proof.
  induction l as [|t l IH]; intros H; [reflexivity|].
  inversion H; subst. simpl. rewrite IH by assumption.
  unfold isBlank, isStatementEnd, isType in *.
  destruct (type t); simpl in *; congruence.
Qed.

Lemma languageHeader_consumed rest h :
  languageHeader rest = Some h ->
  h <= length rest /\ filter isStatementEnd (firstn h rest) = [].
Proof.
  unfold languageHeader. intros H.
  pose proof (skipBlanks_split rest) as Hb1.
  destruct (skipn (skipBlanks rest) rest) as [|lang r1] eqn:E1; [discriminate|].
  destruct (negb (isType Identifier lang || isType Keyword lang)) eqn:El;
    [discriminate|].
  pose proof (skipBlanks_split r1) as Hb2.
  destruct (skipn (skipBlanks r1) r1) as [|a r2] eqn:E2; [discriminate|].
  destruct (negb (isKw "AS" a)) eqn:Ea; [discriminate|].
  destruct (skipn (skipBlanks r2) r2) as [|b r3]; [discriminate|].
  destruct (isType DollarQuotedString b || isType String_ b); [discriminate|].
  inversion H; subst h.
  pose proof (skipn_cons_length _ _ _ _ E1) as L1.
  pose proof (skipn_cons_length _ _ _ _ E2) as L2.
  split; [lia|].
  replace (skipBlanks rest + 1 + skipBlanks r1 + 1)
    with (skipBlanks rest + S (skipBlanks r1 + 1)) by lia.
  rewrite firstn_add, E1. simpl firstn.
  rewrite firstn_add, E2. simpl firstn.
  rewrite filter_app, (blanks_no_end _ Hb1). simpl.
  rewrite filter_app, (blanks_no_end _ Hb2). simpl.
  apply negb_false_iff in El, Ea. unfold isKw in Ea.
  apply andb_true_iff in Ea as [Ea _].
  unfold isStatementEnd, isType in *.
  destruct (type lang); simpl in El; try discriminate;
    destruct (type a); simpl in Ea; try discriminate; reflexivity.
Qed.

Lemma bodyTokens_split : forall x,
  x = bodyTokens x ++ skipn (length (bodyTokens x)) x
  /\ filter isStatementEnd (bodyTokens x) = []
  /\ length (bodyTokens x) <= length x.
Proof.
  induction x as [|t x [IH1 [IH2 IH3]]]; [repeat split; reflexivity|].
  cbn [bodyTokens]. destruct (isStatementEnd t) eqn:E.
  - repeat split; try reflexivity; cbn [length]; lia.
  - cbn [length skipn app filter]. rewrite E.
    repeat split; [now rewrite <- IH1 | assumption | lia].
Qed.

Lemma languageFrom_ends : forall m ts,
  length ts <= m ->
  filter isStatementEnd (languageFrom 0 ts) = filter isStatementEnd ts
  /\ length (languageFrom 0 ts) <= length ts.
Proof.
  induction m as [|m IH]; intros [|t rest] Hlen; simpl in Hlen;
    try (split; [reflexivity | simpl; lia]); try lia.
  assert (Hpass : filter isStatementEnd (t :: languageFrom 0 rest)
                  = filter isStatementEnd (t :: rest)
                  /\ length (t :: languageFrom 0 rest) <= length (t :: rest)).
  { destruct (IH rest) as [H1 H2]; [lia|]. simpl. rewrite H1. split; [reflexivity | lia]. }
  simpl languageFrom.
  destruct (negb (isKw "LANGUAGE" t)) eqn:Ekw; [exact Hpass|].
  destruct (languageHeader rest) as [h|] eqn:Eh; [|exact Hpass].
  destruct (languageHeader_consumed rest h Eh) as [Hh Hf].
  destruct (bodyTokens_split (skipn h rest)) as [Hsplit [Hbf Hbl]].
  set (body := bodyTokens (skipn h rest)) in *.
  rewrite length_skipn in Hbl.
  rewrite languageFrom_skip, skipn_add.
  destruct (IH (skipn (length body) (skipn h rest))) as [H1 H2];
    [rewrite !length_skipn; lia|].
  rewrite !length_skipn in H2.
  assert (Et : isStatementEnd t = false).
  { apply negb_false_iff in Ekw. unfold isKw in Ekw.
    apply andb_true_iff in Ekw as [Ekw _].
    unfold isStatementEnd, isType in *. destruct (type t); simpl in *; congruence. }
  assert (Hbody : match trimEnd (concat (map bodyText body)) with
                  | [] => true | _ :: _ => Nat.ltb 0 (length body) end = true).
  { destruct body; [reflexivity|]. now destruct (trimEnd _). }
  split.
  - simpl. rewrite Et, !filter_app, Hf, H1. simpl.
    rewrite <- (firstn_skipn h rest) at 2. rewrite filter_app, Hf. simpl.
    rewrite Hsplit at 2. rewrite filter_app, Hbf. simpl.
    now destruct (trimEnd (concat (map bodyText body))).
  - simpl. rewrite !length_app, length_firstn.
    destruct (trimEnd (concat (map bodyText body))); simpl in *.
    + lia.
    + apply Nat.ltb_lt in Hbody. lia.
Qed.

Lemma languageFrom_without_keyword : forall ts,
  forallb (fun t => negb (isKw "LANGUAGE" t)) ts = true -> languageFrom 0 ts = ts.
Proof.
  induction ts as [|t ts IH]; simpl; intros H; [reflexivity|].
  apply andb_true_iff in H as [Ht Hts]. now rewrite Ht, IH.
Qed.

(** X7: the pass that merges unquoted LANGUAGE bodies leaves a token
    sequence without a LANGUAGE keyword as it is; on any sequence it keeps
    the semicolon and end-of-input tokens, all of them and in order, and
    never adds a token. *)
Theorem mergeUnquotedLanguageBody_keeps_ends : forall tokens,
  (forallb (fun t => negb (isKw "LANGUAGE" t)) tokens = true ->
   mergeUnquotedLanguageBody tokens = tokens)
  /\ filter isStatementEnd (mergeUnquotedLanguageBody tokens)
     = filter isStatementEnd tokens
  /\ length (mergeUnquotedLanguageBody tokens) <= length tokens.
Proof.
  intros tokens. split; [apply languageFrom_without_keyword|].
  apply (languageFrom_ends (length tokens)). lia.
Qed.

Lemma mergeUnquotedLanguageBody_keeps_ends_witness :
  mergeUnquotedLanguageBody [kwTok "select" "SELECT"; wsTok; xTok; tok EOF []]
  = [kwTok "select" "SELECT"; wsTok; xTok; tok EOF []].
Proof.
  apply (mergeUnquotedLanguageBody_keeps_ends
           [kwTok "select" "SELECT"; wsTok; xTok; tok EOF []]).
  reflexivity.
Defined.

(* ===================================================================== *)
(** * Further properties of the format engine *)
(* ===================================================================== *)

Lemma strip_app a b : strip (a ++ b) = strip a ++ strip b.
Proof. apply filter_app. Qed.

Lemma strip_spaces n : strip (repeat SP n) = [].
Proof. induction n; simpl; auto. Qed.

Lemma strip_dropWhile : forall s, strip (dropWhile isJsSpace s) = strip s.
Proof.
  induction s as [|c s IH]; simpl; [reflexivity|].
  destruct (isJsSpace c) eqn:E; simpl; [exact IH | now rewrite E].
Qed.

Lemma strip_rev s : strip (rev s) = rev (strip s).
Proof. unfold strip. apply filter_rev. Qed.

Lemma strip_trim s : strip (trim s) = strip s.
Proof.
  unfold trim, trimEnd, trimStart.
  now rewrite strip_rev, strip_dropWhile, strip_rev, rev_involutive, strip_dropWhile.
Qed.

Lemma atLineStart_last (X : list jsstring) p :
  endsLFb p = true -> atLineStart (concat (X ++ [p])).
Proof.
  unfold endsLFb. intros H. right.
  destruct (rev p) as [|c q] eqn:E; [discriminate|].
  apply N.eqb_eq in H. subst c.
  apply (f_equal (@rev char)) in E. rewrite rev_involutive in E. simpl in E.
  exists (concat X ++ rev q). rewrite concat_app. simpl.
  now rewrite app_nil_r, E, app_assoc.
Qed.

Lemma length_tl {A} (l : list A) : length (tl l) = pred (length l).
Proof. now destruct l. Qed.

Lemma bind_returns {A B} (m : M A) (k : A -> M B) st b st' :
  bind m k st = Returns (b, st') ->
  exists a st1, m st = Returns (a, st1) /\ k a st1 = Returns (b, st').
Proof.
  unfold bind. destruct (m st) as [[a st1]| |]; try discriminate.
  intros H. now exists a, st1.
Qed.

(** Running a handler on a state with unknown fields: every test is
    decided, and the state it ends in is written out. *)
Ltac engine_unfold H :=
  cbv beta iota zeta delta
    [bind get ret throw modify when push set_indentLevel set_lineStart
     set_statementStart set_parenStack set_caseStack set_prevMeaningful
     set_ddlContext set_blockParenPending set_functionContext
     set_afterBlockClose set_needNewlineBeforeFirstColumn
     indent indentPlus contentIndent parenIndent repeatSpaces
     result indentLevel lineStart statementStart parenStack caseStack
     prevMeaningful ddlContext blockParenPending functionContext
     afterBlockClose needNewlineBeforeFirstColumn topIs topParen inCase
     prevIsType hd_error] in H.

Ltac engine_cases H :=
  engine_unfold H;
  repeat (match type of H with
          | Returns _ = Returns _ => fail 1
          | Throws _ = _ => discriminate H
          | context [if ?b then _ else _] => destruct b eqn:?
          | context [match ?x with Some _ => _ | None => _ end] => destruct x eqn:?
          | context [match ?x with [] => _ | _ :: _ => _ end] => destruct x eqn:?
          | context [match ?x with upper => _ | lower => _ | preserve => _ end] =>
              destruct x eqn:?
          | context [match ?x with leading => _ | trailing => _ end] =>
              destruct x eqn:?
          end;
          engine_unfold H).

Ltac effect_leaf H :=
  inversion H; subst; clear H;
  split; [|split];
  [ cbv [result];
    repeat rewrite concat_app; simpl concat;
    do 3 (repeat rewrite strip_app; repeat rewrite strip_spaces; simpl;
          repeat rewrite app_nil_r);
    try reflexivity
  | unfold lineStartOk; cbv [lineStart result];
    let Hls := fresh "Hls" in
    intros Hls; first [discriminate Hls | apply atLineStart_last; reflexivity]
  | cbv [parenStack]; simpl; try rewrite length_tl; reflexivity ].

Ltac effect_all h :=
  let H := fresh "H" in
  intros st u st' H; destruct st; unfold h in H; engine_cases H; effect_leaf H.

Section Effects.

Variable CLAUSE_KEYWORDS : jsstring -> bool.
Variable opts : FormatOptions.

Lemma effect_handleComment token rest :
  effect (value token) (fun d => d) (handleComment CLAUSE_KEYWORDS opts token rest).
Proof. effect_all handleComment. Qed.

Lemma effect_handleSemicolon token :
  effect (lit ";") (fun d => d) (handleSemicolon token).
Proof. effect_all handleSemicolon. Qed.

Lemma effect_handleOpenParen token rest :
  effect (lit "(") S (handleOpenParen CLAUSE_KEYWORDS opts token rest).
Proof. effect_all handleOpenParen. Qed.

Lemma effect_handleCloseParen token :
  effect (lit ")") pred (handleCloseParen opts token).
Proof. effect_all handleCloseParen. Qed.

Lemma effect_handleCase token :
  effect (applyCase opts token) (fun d => d) (handleCase opts token).
Proof. effect_all handleCase. Qed.

Lemma effect_handleWhenElse token :
  effect (applyCase opts token) (fun d => d) (handleWhenElse opts token).
Proof. effect_all handleWhenElse. Qed.

Lemma effect_handleEnd token :
  effect (applyCase opts token) (fun d => d) (handleEnd opts token).
Proof. effect_all handleEnd. Qed.

Lemma effect_handleCommentKeyword token :
  effect (applyCase opts token) (fun d => d) (handleCommentKeyword opts token).
Proof. effect_all handleCommentKeyword. Qed.

Lemma effect_handleClause token rest :
  effect (applyCase opts token) (fun d => d)
    (handleClause CLAUSE_KEYWORDS opts token rest).
Proof. effect_all handleClause. Qed.

Lemma effect_handleComma token :
  effect (lit ",") (fun d => d) (handleComma opts token).
Proof. effect_all handleComma. Qed.

Lemma effect_handleDot token : effect (lit ".") (fun d => d) (handleDot token).
Proof. effect_all handleDot. Qed.

Lemma effect_handleAfterDot token :
  effect (applyCase opts token) (fun d => d) (handleAfterDot opts token).
Proof. effect_all handleAfterDot. Qed.

Lemma effect_handleDollarQuoted token :
  effect (value token) (fun d => d) (handleDollarQuoted opts token).
Proof. effect_all handleDollarQuoted. Qed.

Lemma effect_handleDefault token :
  effect (applyCase opts token) (fun d => d) (handleDefault opts token).
Proof. effect_all handleDefault. Qed.


Lemma trackDdl_frame token st u st' :
  trackDdl token st = Returns (u, st') ->
  result st' = result st /\ parenStack st' = parenStack st.
Proof.
  intros H. destruct st. unfold trackDdl in H. engine_cases H.
  all: inversion H; subst; split; reflexivity.
Qed.

Lemma applyCase_dollar token :
  isType DollarQuotedString token = true -> applyCase opts token = value token.
Proof.
  unfold applyCase, isType. destruct (type token); simpl; try discriminate; reflexivity.
Qed.

Lemma step_spec token rest st c st' :
  step CLAUSE_KEYWORDS opts token rest st = Returns (c, st') ->
  lineStartOk st ->
  strip (concat (result st'))
    = strip (concat (result st)) ++ strip (concat (renderedTexts opts [token]))
  /\ lineStartOk st'
  /\ length (parenStack st') = parenStep token (length (parenStack st))
  /\ c = (if negb (isBlank token) && isType EOF token then Break else Continue).
Proof.
  intros H Hls. unfold step in H. cbn [renderedTexts].
  destruct (isBlank token) eqn:Hb.
  { inversion H; subst. rewrite app_nil_r. unfold parenStep, isBlank, isType in *.
    destruct (type token); try discriminate; simpl; auto. }
  destruct (isComment token) eqn:Hc.
  { apply bind_returns in H as (u & s1 & Hh & H). inversion H; subst.
    apply effect_handleComment in Hh as (H1 & H2 & H3).
    unfold parenStep, isBlank, isComment, isType, emitted, applyCase, isType in *.
    destruct (type token); try discriminate; simpl;
      rewrite app_nil_r; auto. }
  destruct (isType EOF token) eqn:He.
  { inversion H; subst. unfold parenStep, isType in *.
    destruct (type token); try discriminate; simpl;
      rewrite app_nil_r; auto. }
  apply bind_returns in H as (u0 & s1 & Ht & H).
  apply trackDdl_frame in Ht as (Hr & Hp).
  apply bind_returns in H as (s2 & s3 & Hg & H). inversion Hg; subst s2 s3; clear Hg.
  apply bind_returns in H as (u1 & s4 & Hh & H). inversion H; subst; clear H.
  rewrite <- Hr, <- Hp. clear Hr Hp Hls.
  cbn [concat]. rewrite app_nil_r. simpl andb.
  unfold parenStep, emitted.
  repeat match type of Hh with
         | (if ?b then _ else _) _ = _ => destruct b eqn:?
         end.
  all: lazymatch type of Hh with
       | context [handleSemicolon] => apply effect_handleSemicolon in Hh
       | context [handleOpenParen] => apply effect_handleOpenParen in Hh
       | context [handleCloseParen] => apply effect_handleCloseParen in Hh
       | context [handleCase] => apply effect_handleCase in Hh
       | context [handleWhenElse] => apply effect_handleWhenElse in Hh
       | context [handleEnd] => apply effect_handleEnd in Hh
       | context [handleCommentKeyword] => apply effect_handleCommentKeyword in Hh
       | context [handleClause] => apply effect_handleClause in Hh
       | context [handleComma] => apply effect_handleComma in Hh
       | context [handleDot] => apply effect_handleDot in Hh
       | context [handleAfterDot] => apply effect_handleAfterDot in Hh
       | context [handleDollarQuoted] =>
           apply effect_handleDollarQuoted in Hh;
           match goal with
           | Hd : isType DollarQuotedString _ = true |- _ =>
               rewrite <- (applyCase_dollar _ Hd) in Hh
           end
       | context [handleDefault] => apply effect_handleDefault in Hh
       end;
    destruct Hh as (H1 & H2 & H3); rewrite H1, H3;
    (split; [|split; [exact H2 | split; [|reflexivity]]]);
    unfold isKw, isType in *;
    destruct (type token); cbn [TokenType_eqb andb] in *; try discriminate;
    reflexivity.
Qed.

Lemma runLoop_spec : forall merged st u st',
  runLoop CLAUSE_KEYWORDS opts merged st = Returns (u, st') ->
  lineStartOk st ->
  strip (concat (result st'))
    = strip (concat (result st)) ++ strip (concat (renderedTexts opts merged))
  /\ lineStartOk st'
  /\ length (parenStack st') = openParens (length (parenStack st)) merged.
Proof.
  induction merged as [|token rest IH]; intros st u st' H Hls.
  - inversion H; subst. simpl. now rewrite app_nil_r.
  - cbn [runLoop] in H. apply bind_returns in H as (c & s1 & Hs & H).
    apply step_spec in Hs as (H1 & H2 & H3 & H4); [|exact Hls].
    cbn [renderedTexts] in *. cbn [openParens].
    destruct (isBlank token) eqn:Hb.
    + cbn [negb andb] in H4. subst c. apply IH in H as (I1 & I2 & I3); [|exact H2].
      cbn [concat] in H1. rewrite app_nil_r in H1. rewrite I1, H1.
      split; [reflexivity|]. split; [exact I2|]. rewrite I3, H3.
      unfold parenStep, isBlank, isType in *.
      destruct (type token); cbn [TokenType_eqb orb] in *; try discriminate;
        reflexivity.
    + cbn [negb andb] in H4. destruct (isType EOF token) eqn:He.
      * subst c. inversion H; subst. split; [exact H1|].
        split; [exact H2|]. rewrite H3. unfold parenStep, isType in *.
        destruct (type token); cbn [TokenType_eqb] in *; try discriminate;
          reflexivity.
      * subst c. apply IH in H as (I1 & I2 & I3); [|exact H2].
        rewrite I1, H1. cbn [concat]. rewrite !strip_app, app_nil_r, app_assoc.
        split; [reflexivity|]. split; [exact I2|]. rewrite I3, H3.
        unfold parenStep. destruct (isType OpenParen token); [reflexivity|].
        destruct (isType CloseParen token); reflexivity.
Qed.

Lemma engineStates_lineStart : forall merged st,
  lineStartOk st -> Forall lineStartOk (engineStates CLAUSE_KEYWORDS opts merged st).
Proof.
  induction merged as [|token rest IH]; intros st H; simpl.
  - constructor; [exact H | constructor].
  - constructor; [exact H|].
    destruct (step CLAUSE_KEYWORDS opts token rest st) as [[c st']| |] eqn:E;
      try constructor.
    apply step_spec in E as (_ & H2 & _); [|exact H].
    destruct c; [apply IH; exact H2 | constructor; [exact H2 | constructor]].
Qed.

End Effects.

Lemma lineStartOk_initial : lineStartOk initialState.
Proof. intros _. now left. Qed.

Lemma strip_render st : strip (render st) = strip (concat (result st)).
Proof. unfold render. rewrite strip_app, strip_trim. apply app_nil_r. Qed.

Lemma formatTokens_strip CLAUSE_KEYWORDS opts tokens out :
  formatTokens CLAUSE_KEYWORDS opts tokens = Returns out ->
  strip out
  = strip (concat (renderedTexts opts
                     (mergeUnquotedLanguageBody (mergeClauseKeywords tokens)))).
Proof.
  intros H. unfold formatTokens in H.
  destruct (runLoop CLAUSE_KEYWORDS opts
              (mergeUnquotedLanguageBody (mergeClauseKeywords tokens)) initialState)
    as [[u st]| |] eqn:E; try discriminate.
  inversion H; subst out; clear H.
  apply runLoop_spec in E as (E1 & _); [|apply lineStartOk_initial].
  rewrite strip_render. exact E1.
Qed.

(** X9: whenever the engine has [lineStart] set, the text written so far
    is empty or ends with a newline.  This holds before every iteration of
    the loop and after the last one. *)
Theorem lineStart_only_after_newline : forall KEYWORDS CLAUSE_KEYWORDS input opts,
  Forall lineStartOk (invocationStates KEYWORDS CLAUSE_KEYWORDS input opts).
Proof.
  intros KEYWORDS CLAUSE_KEYWORDS input opts. unfold invocationStates.
  destruct (tokenize KEYWORDS input); [|constructor|constructor].
  apply engineStates_lineStart, lineStartOk_initial.
Qed.

(** X10: the parenthesis stack counts the parentheses.  When the loop
    ends, the stack holds one entry for each opening parenthesis not closed
    so far; a closing parenthesis with none open changes nothing, and no
    other token changes the depth, a semicolon included. *)
Theorem parenStack_counts_open_parentheses : forall CLAUSE_KEYWORDS opts merged u st,
  runLoop CLAUSE_KEYWORDS opts merged initialState = Returns (u, st) ->
  length (parenStack st) = openParens 0 merged.
Proof.
  intros CLAUSE_KEYWORDS opts merged u st H.
  apply runLoop_spec in H as (_ & _ & H); [exact H | apply lineStartOk_initial].
Qed.

Lemma parenStack_counts_open_parentheses_witness :
  exists st,
    runLoop CLAUSE_KEYWORDS_spec DEFAULT_OPTIONS openParenTokens initialState
    = Returns (tt, st)
    /\ length (parenStack st) = 1.
Proof.
  exists (mkState [[]; lit "("; lit "1"; lit ";" ++ [LF; LF]; []; lit "2"]
            0 false false [Grouping] [] (Some (tok Number (lit "2")))
            false false false false false).
  split; [vm_compute; reflexivity|].
  apply (parenStack_counts_open_parentheses CLAUSE_KEYWORDS_spec DEFAULT_OPTIONS
           openParenTokens tt).
  vm_compute. reflexivity.
Defined.

(* ===================================================================== *)
(** * Whitespace and newline tokens in the engine *)
(* ===================================================================== *)

Lemma findNextNonWhitespace_filter : forall ts,
  findNextNonWhitespace (filter nonBlank ts) = findNextNonWhitespace ts.
Proof.
  induction ts as [|t ts IH]; simpl; [reflexivity|]. unfold nonBlank at 1.
  destruct (isBlank t) eqn:E; simpl; [exact IH | now rewrite E].
Qed.

Lemma findNextMeaningful_filter : forall ts,
  findNextMeaningful (filter nonBlank ts) = findNextMeaningful ts.
Proof.
  induction ts as [|t ts IH]; simpl; [reflexivity|]. unfold nonBlank at 1.
  destruct (isBlank t) eqn:E; simpl; [exact IH | now rewrite E, IH].
Qed.

Lemma countTopLevelArgsFrom_filter : forall ts depth commas,
  countTopLevelArgsFrom depth commas (filter nonBlank ts)
  = countTopLevelArgsFrom depth commas ts.
Proof.
  induction ts as [|t ts IH]; intros depth commas; simpl; [reflexivity|].
  unfold nonBlank at 1.
  destruct (isBlank t) eqn:E; simpl; [apply IH|]. rewrite E.
  destruct (isType OpenParen t); [apply IH|].
  destruct (isType CloseParen t); [destruct depth; [reflexivity | apply IH]|].
  destruct (isType Comma t && Nat.eqb depth 0); apply IH.
Qed.

Lemma countSelectColumnsFrom_filter CLAUSE_KEYWORDS : forall ts depth commas,
  countSelectColumnsFrom CLAUSE_KEYWORDS depth commas (filter nonBlank ts)
  = countSelectColumnsFrom CLAUSE_KEYWORDS depth commas ts.
Proof.
  induction ts as [|t ts IH]; intros depth commas; simpl; [reflexivity|].
  unfold nonBlank at 1.
  destruct (isBlank t) eqn:E; simpl; [apply IH|]. rewrite E.
  destruct (isType EOF t); [reflexivity|].
  destruct (isType OpenParen t); [apply IH|].
  destruct (isType CloseParen t); [destruct depth; [reflexivity | apply IH]|].
  destruct (Nat.eqb depth 0); [|apply IH].
  destruct (isType Semicolon t); [reflexivity|].
  destruct (isType Keyword t && CLAUSE_KEYWORDS (value t)); [reflexivity|].
  destruct (isType Comma t); apply IH.
Qed.

Lemma step_filter CLAUSE_KEYWORDS opts token rest st :
  step CLAUSE_KEYWORDS opts token (filter nonBlank rest) st
  = step CLAUSE_KEYWORDS opts token rest st.
Proof.
  unfold step, handleComment, handleOpenParen, handleClause,
    countTopLevelArgs, countSelectColumns.
  rewrite ?findNextNonWhitespace_filter, ?findNextMeaningful_filter,
    ?countTopLevelArgsFrom_filter, ?countSelectColumnsFrom_filter.
  reflexivity.
Qed.

Lemma runLoop_filter : forall CLAUSE_KEYWORDS opts merged st,
  runLoop CLAUSE_KEYWORDS opts (filter nonBlank merged) st
  = runLoop CLAUSE_KEYWORDS opts merged st.
Proof.
  intros CLAUSE_KEYWORDS opts.
  induction merged as [|token rest IH]; intros st; [reflexivity|].
  cbn [filter runLoop]. unfold nonBlank at 1.
  destruct (isBlank token) eqn:E; cbn [negb].
  - rewrite IH. unfold bind, step. now rewrite E.
  - cbn [runLoop]. apply bind_ext; [apply step_filter|].
    intros [|] st'; [apply IH | reflexivity].
Qed.

(** X11: the engine does not look at whitespace and newline tokens.  Run
    on the tokens without them, the loop does the same as on all tokens,
    from every state: the layout of the input reaches the output only
    through the merge passes. *)
Theorem engine_ignores_blank_tokens : forall CLAUSE_KEYWORDS opts merged st,
  runLoop CLAUSE_KEYWORDS opts (filter nonBlank merged) st
  = runLoop CLAUSE_KEYWORDS opts merged st.
Proof. intros. apply runLoop_filter. Qed.

(* ===================================================================== *)
(** * The content of the output *)
(* ===================================================================== *)

Ltac decide_tests :=
  repeat match goal with
         | |- context [(?a <=? ?b)%N] => destruct (N.leb_spec a b); try lia
         | |- context [(?a =? ?b)%N] => destruct (N.eqb_spec a b); try lia
         end.

Lemma isJsSpace_upperChar c : isJsSpace (upperChar c) = isJsSpace c.
Proof.
  unfold upperChar, isLowerAZ, inRange.
  destruct ((97 <=? c)%N && (c <=? 122)%N) eqn:E; [|reflexivity].
  apply andb_true_iff in E as [L U]. apply N.leb_le in L, U.
  unfold isJsSpace, inRange. decide_tests; reflexivity.
Qed.

Lemma isJsSpace_lowerChar c : isJsSpace (lowerChar c) = isJsSpace c.
Proof.
  unfold lowerChar, isUpperAZ, inRange.
  destruct ((65 <=? c)%N && (c <=? 90)%N) eqn:E; [|reflexivity].
  apply andb_true_iff in E as [L U]. apply N.leb_le in L, U.
  unfold isJsSpace, inRange. decide_tests; reflexivity.
Qed.

Lemma upperChar_lowerChar c : upperChar (lowerChar c) = upperChar c.
Proof.
  unfold upperChar, lowerChar, isLowerAZ, isUpperAZ, inRange.
  destruct ((65 <=? c)%N && (c <=? 90)%N) eqn:E; [|reflexivity].
  apply andb_true_iff in E as [L U]. apply N.leb_le in L, U.
  decide_tests; simpl; lia.
Qed.

Lemma strip_toUpperCase : forall s, strip (toUpperCase s) = toUpperCase (strip s).
Proof.
  induction s as [|c s IH]; simpl; [reflexivity|].
  rewrite isJsSpace_upperChar. destruct (isJsSpace c); simpl; congruence.
Qed.

Lemma content_app a b : content (a ++ b) = content a ++ content b.
Proof. unfold content, toUpperCase. now rewrite strip_app, map_app. Qed.

Lemma content_toUpperCase s : content (toUpperCase s) = content s.
Proof. unfold content. now rewrite strip_toUpperCase, toUpperCase_idem. Qed.

Lemma content_toLowerCase : forall s, content (toLowerCase s) = content s.
Proof.
  unfold content. induction s as [|c s IH]; simpl; [reflexivity|].
  rewrite isJsSpace_lowerChar. destruct (isJsSpace c); simpl; [exact IH|].
  now rewrite upperChar_lowerChar, IH.
Qed.

Lemma content_strip a b : strip a = strip b -> content a = content b.
Proof. unfold content. now intros ->. Qed.

Lemma strip_spaceTab : forall s, forallb isSpaceTab s = true -> strip s = [].
Proof.
  induction s as [|c s IH]; simpl; [reflexivity|]. intros H.
  apply andb_true_iff in H as [Hc Hs]. rewrite (IH Hs).
  unfold isSpaceTab in Hc. apply orb_true_iff in Hc as [Hc|Hc];
    apply N.eqb_eq in Hc; subst c; reflexivity.
Qed.

Lemma content_splitSpaces : forall s, content (concat (splitSpaces s)) = content s.
Proof.
  induction s as [|c s IH]; simpl; [reflexivity|].
  destruct (N.eqb_spec c SP) as [->|Hc].
  - simpl. exact IH.
  - pose proof (splitSpaces_nonempty s) as Hne.
    destruct (splitSpaces s) as [|p ps]; [congruence|].
    change (concat ((c :: p) :: ps)) with ([c] ++ concat (p :: ps)).
    change (c :: s) with ([c] ++ s). now rewrite !content_app, IH.
Qed.

(** ** The tokens of the lexer *)

Lemma lexical_tokens KEYWORDS input tokens :
  tokenize KEYWORDS input = Returns tokens -> Forall lexical tokens.
Proof.
  intros H.
  apply (tokenizeLoop_Forall KEYWORDS lexical) with (length input) input;
    [| |exact H].
  - intros c s. split; [apply lexOne_original | apply lexOne_fixedText].
  - split; [unfold originalOk; simpl; exact I | unfold fixedText; simpl; reflexivity].
Qed.

Lemma lexical_source t :
  lexical t -> type t <> Keyword -> sourceText t = value t /\ original t = None.
Proof.
  intros [Ho _] Hty. unfold sourceText, originalOk in *.
  destruct (original t); [|auto]. destruct Ho as [Hk _]. contradiction.
Qed.

Lemma lexical_blank t : lexical t -> isBlank t = true -> strip (sourceText t) = [].
Proof.
  intros Hl Hb.
  assert (Hty : type t <> Keyword).
  { intros E. unfold isBlank, isType in Hb. rewrite E in Hb. discriminate. }
  destruct (lexical_source t Hl Hty) as [-> _].
  destruct Hl as [_ Hf]. unfold fixedText, isBlank, isType in *.
  destruct (type t); try discriminate.
  - now apply strip_spaceTab.
  - destruct Hf as [->|[->| ->]]; reflexivity.
Qed.

Lemma lexical_value t : lexical t -> content (value t) = content (sourceText t).
Proof.
  intros [Ho _]. unfold sourceText, originalOk in *.
  destruct (original t) as [o|]; [|reflexivity].
  destruct Ho as [_ ->]. apply content_toUpperCase.
Qed.

Section Content.

Variable opts : FormatOptions.
Hypothesis Hcase : keywordCase opts <> preserve.

Lemma content_applyCase t : content (applyCase opts t) = content (value t).
Proof.
  unfold applyCase. destruct (negb (isType Keyword t)); [reflexivity|].
  destruct (keywordCase opts); [apply content_toUpperCase | apply content_toLowerCase |].
  congruence.
Qed.

Lemma lexical_emitted t :
  lexical t -> content (emitted opts t) = content (sourceText t).
Proof.
  intros Hl. rewrite <- (lexical_value t Hl). destruct Hl as [_ Hf].
  unfold emitted, fixedText in *.
  destruct (type t); try apply content_applyCase; now rewrite Hf.
Qed.

Lemma content_compound t sfx :
  content (emitted opts (compound t sfx)) = content (value t) ++ content sfx.
Proof.
  unfold emitted. cbn [type compound]. rewrite content_applyCase. cbn [value compound].
  change (value t ++ SP :: sfx) with (value t ++ [SP] ++ sfx).
  now rewrite !content_app.
Qed.

Lemma sourceTexts_app : forall l r,
  Forall (fun t => isType EOF t = false) l ->
  sourceTexts (l ++ r) = map sourceText l ++ sourceTexts r.
Proof.
  induction l as [|t l IH]; intros r H; [reflexivity|].
  inversion H; subst. simpl. now rewrite H2, IH.
Qed.

Lemma blanks_content : forall l,
  Forall (fun t => isBlank t = true) l -> Forall lexical l ->
  Forall (fun t => isType EOF t = false) l
  /\ content (concat (map sourceText l)) = [].
Proof.
  induction l as [|t l IH]; intros Hb Hl; [split; [constructor | reflexivity]|].
  inversion Hb; subst. inversion Hl; subst.
  destruct (IH H2 H4) as [I1 I2]. split.
  - constructor; [|exact I1]. unfold isBlank, isType in *.
    destruct (type t); try discriminate; reflexivity.
  - simpl. rewrite content_app, I2, app_nil_r. unfold content.
    now rewrite (lexical_blank t H3 H1).
Qed.

Lemma Forall_skipn {A} (P : A -> Prop) : forall n l, Forall P l -> Forall P (skipn n l).
Proof.
  induction n as [|n IH]; intros l H; [exact H|].
  destruct l as [|x l]; [constructor|]. inversion H; subst. now apply IH.
Qed.

Lemma Forall_firstn {A} (P : A -> Prop) : forall n l, Forall P l -> Forall P (firstn n l).
Proof.
  induction n as [|n IH]; intros l H; [constructor|].
  destruct l as [|x l]; [constructor|]. inversion H; subst.
  constructor; [assumption | now apply IH].
Qed.

Lemma matchParts_content : forall parts ts n,
  Forall lexical ts ->
  matchParts parts ts = Some n ->
  content (concat (sourceTexts ts))
    = content (concat parts) ++ content (concat (sourceTexts (skipn n ts))).
Proof.
  induction parts as [|part parts IH]; intros ts n Hl H; simpl in H.
  - inversion H. reflexivity.
  - pose proof (skipBlanks_split ts) as Hb.
    pose proof (firstn_skipn (skipBlanks ts) ts) as Hsplit.
    destruct (skipn (skipBlanks ts) ts) as [|k ts'] eqn:Esk; [discriminate|].
    destruct (isType Keyword k && streq (value k) part) eqn:Ek; [|discriminate].
    apply andb_true_iff in Ek as [Ety Eval].
    apply streq_eq in Eval.
    destruct (matchParts parts ts') as [m|] eqn:Em; [|discriminate].
    inversion H; subst n; clear H.
    assert (Hl' : Forall lexical (k :: ts')).
    { rewrite <- Esk. now apply Forall_skipn. }
    inversion Hl' as [|? ? Hk Hts']; subst.
    destruct (blanks_content _ Hb (Forall_firstn _ _ _ Hl)) as [B1 B2].
    rewrite <- Hsplit at 1. rewrite sourceTexts_app by exact B1.
    rewrite concat_app, content_app, B2. cbn [app sourceTexts].
    assert (He : isType EOF k = false).
    { unfold isType in *. destruct (type k); try discriminate; reflexivity. }
    rewrite He. cbn [concat]. rewrite !content_app.
    rewrite <- (lexical_value k Hk).
    rewrite (IH ts' m Hts' Em), app_assoc.
    replace (skipn (skipBlanks ts + 1 + m) ts) with (skipn m ts'); [reflexivity|].
    rewrite <- Nat.add_assoc, skipn_add, Esk. reflexivity.
Qed.

Lemma firstFit_matchParts : forall sfxs ts sfx n,
  firstFit sfxs ts = Some (sfx, n) -> matchParts (splitSpaces sfx) ts = Some n.
Proof.
  induction sfxs as [|x sfxs IH]; intros ts sfx n H; simpl in H; [discriminate|].
  destruct (matchParts (splitSpaces x) ts) as [m|] eqn:E.
  - inversion H; subst. exact E.
  - now apply IH.
Qed.

Lemma merge_content : forall m ts,
  length ts <= m -> Forall lexical ts ->
  content (concat (renderedTexts opts (mergeFrom 0 ts)))
    = content (concat (sourceTexts ts)).
Proof.
  induction m as [|m IH]; intros [|t rest] Hlen Hl; simpl in Hlen;
    try reflexivity; try lia.
  inversion Hl as [|? ? Ht Hrest]; subst.
  assert (Hpass : content (concat (renderedTexts opts (t :: mergeFrom 0 rest)))
                  = content (concat (sourceTexts (t :: rest)))).
  { cbn [renderedTexts sourceTexts].
    destruct (isBlank t) eqn:Hb.
    - assert (He : isType EOF t = false).
      { unfold isBlank, isType in *. destruct (type t); try discriminate; reflexivity. }
      rewrite He. cbn [concat]. rewrite content_app.
      unfold content at 2. rewrite (lexical_blank t Ht Hb). simpl.
      apply IH; [lia | exact Hrest].
    - destruct (isType EOF t); [reflexivity|].
      cbn [concat]. rewrite !content_app, (lexical_emitted t Ht).
      f_equal. apply IH; [lia | exact Hrest]. }
  simpl mergeFrom.
  destruct (isType Keyword t) eqn:Ety; [|exact Hpass].
  destruct (mergeablesOf (value t)) as [sfxs|]; [|exact Hpass].
  destruct (firstFit sfxs rest) as [[sfx n]|] eqn:Ef; [|exact Hpass].
  pose proof (firstFit_consumed _ _ _ _ Ef) as [Hn _].
  apply firstFit_matchParts in Ef.
  assert (Hb : isBlank (compound t sfx) = false) by reflexivity.
  assert (He : isType EOF (compound t sfx) = false) by reflexivity.
  assert (He' : isType EOF t = false).
  { unfold isType in *. destruct (type t); try discriminate; reflexivity. }
  cbn [renderedTexts sourceTexts]. rewrite Hb, He, He'. cbn [concat].
  rewrite !content_app, content_compound, (lexical_value t Ht).
  rewrite (matchParts_content _ _ _ Hrest Ef), content_splitSpaces.
  rewrite <- app_assoc. f_equal. f_equal.
  rewrite mergeFrom_skip. apply IH; [|now apply Forall_skipn].
  rewrite length_skipn. lia.
Qed.

End Content.

Lemma forallb_skipn {A} (p : A -> bool) : forall n l,
  forallb p l = true -> forallb p (skipn n l) = true.
Proof.
  induction n as [|n IH]; intros l H; [exact H|].
  destruct l as [|x l]; [reflexivity|]. simpl in H.
  apply andb_true_iff in H as [_ H]. now apply IH.
Qed.

Lemma compound_not_language t sfx : isKw "LANGUAGE" (compound t sfx) = false.
Proof.
  unfold isKw. cbn [compound value type].
  destruct (streq (value t ++ SP :: sfx) (lit "LANGUAGE")) eqn:E;
    [|apply andb_false_r].
  apply streq_eq in E. exfalso.
  assert (H : In SP (lit "LANGUAGE")).
  { rewrite <- E. apply in_or_app. right. now left. }
  vm_compute in H. repeat destruct H as [H|H]; try discriminate; exact H.
Qed.

Lemma mergeFrom_noLanguage : forall m ts,
  length ts <= m -> noLanguage ts = true -> noLanguage (mergeFrom 0 ts) = true.
Proof.
  unfold noLanguage.
  induction m as [|m IH]; intros [|t rest] Hlen H; simpl in Hlen;
    try reflexivity; try lia.
  cbn [forallb] in H. apply andb_true_iff in H as [Ht Hrest].
  assert (Hpass : forallb (fun t => negb (isKw "LANGUAGE" t)) (t :: mergeFrom 0 rest)
                  = true).
  { cbn [forallb]. rewrite Ht. apply IH; [lia | exact Hrest]. }
  simpl mergeFrom.
  destruct (isType Keyword t); [|exact Hpass].
  destruct (mergeablesOf (value t)) as [sfxs|]; [|exact Hpass].
  destruct (firstFit sfxs rest) as [[sfx n]|] eqn:Ef; [|exact Hpass].
  cbn [forallb]. rewrite compound_not_language. cbn [negb andb].
  rewrite mergeFrom_skip. apply IH; [|now apply forallb_skipn].
  rewrite length_skipn. lia.
Qed.

(** X12: the formatter keeps the content of its input.  With the keyword
    case [upper] or [lower], and when the input has no LANGUAGE keyword, the
    output and the input are the same text once white space is removed and
    the letters a-z are put in upper case: nothing is dropped, added or
    reordered but white space, and nothing is changed but the case of
    letters. *)
Theorem format_keeps_content :
  forall KEYWORDS CLAUSE_KEYWORDS input opts tokens out,
    keywordCase opts <> preserve ->
    tokenize KEYWORDS input = Returns tokens ->
    noLanguage tokens = true ->
    formatDatabricksSQL KEYWORDS CLAUSE_KEYWORDS input opts = Returns out ->
    content out = content input.
Proof.
  intros KEYWORDS CLAUSE_KEYWORDS input opts tokens out Hcase Htok Hno H.
  unfold formatDatabricksSQL in H. rewrite Htok in H.
  apply formatTokens_strip in H. apply content_strip in H. rewrite H.
  unfold mergeUnquotedLanguageBody, mergeClauseKeywords.
  rewrite languageFrom_without_keyword
    by (apply mergeFrom_noLanguage with (length tokens); auto).
  rewrite merge_content with (m := length tokens);
    [|exact Hcase|auto|now apply lexical_tokens with KEYWORDS input].
  destruct (tokenizeLoop_shape KEYWORDS _ _ _ Htok) as [body [-> [Hbody _]]].
  destruct (tokenizeLoop_lossless KEYWORDS (length input) input (le_n _))
    as [tokens' [Htok' Hcat]].
  unfold tokenize in Htok. rewrite Htok in Htok'. inversion Htok'; subst tokens'.
  rewrite sourceTexts_app.
  - rewrite map_app in Hcat. cbn [sourceTexts isType type tok TokenType_eqb].
    rewrite <- Hcat, !concat_app. reflexivity.
  - eapply Forall_impl; [|exact Hbody]. intros t [Ht _].
    destruct (isType EOF t) eqn:E; [|reflexivity].
    apply isType_true in E. contradiction.
Qed.

Lemma format_keeps_content_witness :
  content (lit "SELECT a" ++ [LF] ++ lit "FROM t" ++ [LF] ++ lit "GROUP BY a" ++ [LF])
  = content (lit "select a from t group  by a").
Proof.
  apply (format_keeps_content KEYWORDS_spec CLAUSE_KEYWORDS_spec
           (lit "select a from t group  by a") DEFAULT_OPTIONS
           [kwTok "select" "SELECT"; wsTok; tok Identifier (lit "a"); wsTok;
            kwTok "from" "FROM"; wsTok; tok Identifier (lit "t"); wsTok;
            kwTok "group" "GROUP"; tok Whitespace [SP; SP]; kwTok "by" "BY"; wsTok;
            tok Identifier (lit "a"); tok EOF []]).
  - discriminate.
  - vm_compute. reflexivity.
  - vm_compute. reflexivity.
  - vm_compute. reflexivity.
Defined.

(* ===================================================================== *)
(** * Comments *)
(* ===================================================================== *)

Lemma ownLine_0 k old n v :
  atLineStart old -> ownLine k old (old ++ repeat SP n ++ v ++ [LF]) v.
Proof.
  intros H. exists [], n. rewrite app_nil_r.
  split; [reflexivity|]. split; [reflexivity|]. split; [simpl; lia | exact H].
Qed.

Lemma ownLine_1 k old n v :
  1 <= k -> ownLine k old (old ++ [LF] ++ repeat SP n ++ v ++ [LF]) v.
Proof.
  intros Hk. exists [LF], n.
  split; [reflexivity|]. split; [reflexivity|]. split; [exact Hk|].
  right. now exists old.
Qed.

Lemma ownLine_2 k old n v :
  2 <= k -> ownLine k old (old ++ [LF] ++ [LF] ++ repeat SP n ++ v ++ [LF]) v.
Proof.
  intros Hk. exists [LF; LF], n.
  split; [reflexivity|]. split; [reflexivity|]. split; [exact Hk|].
  right. exists (old ++ [LF]). now rewrite <- app_assoc.
Qed.

Lemma repeat_app_tail {A} (x : A) a b l :
  repeat x a ++ repeat x b ++ l = repeat x (a + b) ++ l.
Proof. now rewrite app_assoc, <- repeat_app. Qed.

(** X13: a comment is written on a line of its own.  From a state whose
    [lineStart] flag is right, the comment handler keeps the text written so
    far and adds newlines after which the line starts: at most one (a blank
    line) when the line had started, at most two (the end of the open line
    and a blank line) otherwise.  Then it writes spaces, the comment as it
    is in the input, and a newline; [lineStart] is set afterwards. *)
Theorem comment_on_its_own_line : forall CLAUSE_KEYWORDS opts token rest st u st',
  lineStartOk st ->
  handleComment CLAUSE_KEYWORDS opts token rest st = Returns (u, st') ->
  ownLine (if lineStart st then 1 else 2)
    (concat (result st)) (concat (result st')) (value token)
  /\ lineStart st' = true.
Proof.
  intros CLAUSE_KEYWORDS opts token rest st u st' Hls H.
  destruct st. unfold handleComment in H. engine_cases H.
  all: inversion H; subst; clear H; split; [|reflexivity].
  all: unfold lineStartOk in Hls; cbn [lineStart result] in *.
  all: rewrite !concat_app; cbn [concat]; rewrite ?app_nil_r, <- ?app_assoc,
         ?repeat_app_tail.
  all: destruct lineStart0; cbn [negb] in *; try discriminate.
  all: first [ apply ownLine_2; lia | apply ownLine_1; lia
             | apply ownLine_0; apply Hls; reflexivity ].
Qed.

Lemma comment_on_its_own_line_witness :
  ownLine 2 (lit "SELECT a")
    (lit "SELECT a" ++ [LF] ++ [LF] ++ lit "  " ++ lit "-- c" ++ [LF])
    (lit "-- c").
Proof.
  apply (comment_on_its_own_line CLAUSE_KEYWORDS_spec DEFAULT_OPTIONS
           (tok Comment (lit "-- c")) [tok EOF []]
           (mkState [lit "SELECT"; lit " "; lit "a"] 0 false false [] []
              (Some (tok Identifier (lit "a"))) false false false false false)
           tt
           (mkState [lit "SELECT"; lit " "; lit "a"; [LF]; [LF]; lit "  -- c"; [LF]]
              0 true false [] []
              (Some (tok Comment (lit "-- c"))) false false false false false)).
  - intros H. discriminate H.
  - vm_compute. reflexivity.
Defined.

(* ===================================================================== *)
(** * The look-ahead counters *)
(* ===================================================================== *)

Lemma countTopLevelArgsFrom_flat : forall args close more commas,
  Forall (fun t => isParen t = false) args ->
  isType CloseParen close = true ->
  countTopLevelArgsFrom 0 commas (args ++ close :: more)
  = commas + length (filter (isType Comma) args) + 1.
Proof.
  induction args as [|t args IH]; intros close more commas Hargs Hclose.
  - simpl. assert (Hb : isBlank close = false).
    { unfold isBlank, isType in *. destruct (type close); try discriminate; reflexivity. }
    assert (Ho : isType OpenParen close = false).
    { unfold isType in *. destruct (type close); try discriminate; reflexivity. }
    rewrite Hb, Ho, Hclose. lia.
  - inversion Hargs as [|? ? Ht Hrest]; subst.
    unfold isParen in Ht. apply orb_false_iff in Ht as [Ho Hc].
    cbn [app countTopLevelArgsFrom filter]. rewrite Ho, Hc.
    destruct (isBlank t) eqn:Hb.
    + assert (Hcm : isType Comma t = false).
      { unfold isBlank, isType in *. destruct (type t); try discriminate; reflexivity. }
      rewrite Hcm. now apply IH.
    + destruct (isType Comma t); cbn [andb Nat.eqb length].
      * rewrite IH by assumption. lia.
      * now apply IH.
Qed.

(** X14: what [countTopLevelArgs] counts.  On an argument list without
    parentheses of its own, up to the closing parenthesis, it gives the
    number of commas plus one, whatever follows the closing parenthesis. *)
Theorem countTopLevelArgs_counts_commas : forall args close more,
  Forall (fun t => isParen t = false) args ->
  isType CloseParen close = true ->
  countTopLevelArgs (args ++ close :: more)
  = length (filter (isType Comma) args) + 1.
Proof.
  intros args close more Hargs Hclose. unfold countTopLevelArgs.
  now rewrite countTopLevelArgsFrom_flat.
Qed.

Lemma countTopLevelArgs_counts_commas_witness :
  countTopLevelArgs
    ([xTok; tok Comma (lit ","); wsTok; xTok] ++ tok CloseParen (lit ")") :: [xTok])
  = length (filter (isType Comma) [xTok; tok Comma (lit ","); wsTok; xTok]) + 1.
Proof.
  apply (countTopLevelArgs_counts_commas
           [xTok; tok Comma (lit ","); wsTok; xTok] (tok CloseParen (lit ")")) [xTok]).
  - repeat constructor.
  - reflexivity.
Defined.

(* ===================================================================== *)
(** * The layout of the input *)
(* ===================================================================== *)

Lemma skipBlanks_stop : forall ts k ts',
  skipn (skipBlanks ts) ts = k :: ts' -> isBlank k = false.
Proof.
  induction ts as [|t ts IH]; intros k ts' H; simpl in H; [discriminate|].
  destruct (isBlank t) eqn:E.
  - simpl in H. now apply IH with ts'.
  - simpl in H. now inversion H; subst.
Qed.

Lemma filter_skipBlanks : forall ts,
  filter nonBlank ts = filter nonBlank (skipn (skipBlanks ts) ts).
Proof.
  induction ts as [|t ts IH]; simpl; [reflexivity|]. unfold nonBlank at 1.
  destruct (isBlank t) eqn:E; simpl; [exact IH|].
  unfold nonBlank at 2. now rewrite E.
Qed.

Lemma skipBlanks_filter : forall ts, skipBlanks (filter nonBlank ts) = 0.
Proof.
  induction ts as [|t ts IH]; simpl; [reflexivity|]. unfold nonBlank at 1.
  destruct (isBlank t) eqn:E; simpl; [exact IH | now rewrite E].
Qed.

Lemma matchParts_filter : forall parts ts,
  match matchParts parts ts with
  | Some n =>
      exists n', matchParts parts (filter nonBlank ts) = Some n'
                 /\ skipn n' (filter nonBlank ts) = filter nonBlank (skipn n ts)
  | None => matchParts parts (filter nonBlank ts) = None
  end.
Proof.
  induction parts as [|part parts IH]; intros ts.
  - simpl. now exists 0.
  - cbn [matchParts]. rewrite skipBlanks_filter. cbn [skipn].
    rewrite (filter_skipBlanks ts).
    pose proof (skipBlanks_stop ts) as Hstop.
    destruct (skipn (skipBlanks ts) ts) as [|k ts'] eqn:Esk; [reflexivity|].
    specialize (Hstop k ts' eq_refl).
    assert (Hnb : nonBlank k = true) by (unfold nonBlank; now rewrite Hstop).
    cbn [filter]. rewrite Hnb.
    destruct (isType Keyword k && streq (value k) part); [|reflexivity].
    specialize (IH ts').
    destruct (matchParts parts ts') as [m|].
    + destruct IH as [m' [-> Hm]]. cbn [option_map]. exists (0 + 1 + m').
      split; [reflexivity|]. cbn [Nat.add skipn]. rewrite Hm.
      rewrite <- Nat.add_assoc, skipn_add, Esk. reflexivity.
    + rewrite IH. reflexivity.
Qed.

Lemma firstFit_filter : forall sfxs ts,
  match firstFit sfxs ts with
  | Some (sfx, n) =>
      exists n', firstFit sfxs (filter nonBlank ts) = Some (sfx, n')
                 /\ skipn n' (filter nonBlank ts) = filter nonBlank (skipn n ts)
  | None => firstFit sfxs (filter nonBlank ts) = None
  end.
Proof.
  induction sfxs as [|x sfxs IH]; intros ts; [reflexivity|].
  cbn [firstFit]. pose proof (matchParts_filter (splitSpaces x) ts) as H.
  destruct (matchParts (splitSpaces x) ts) as [n|].
  - destruct H as [n' [-> Hn]]. now exists n'.
  - rewrite H. apply IH.
Qed.

Lemma mergeFrom_filter : forall m ts,
  length ts <= m ->
  mergeFrom 0 (filter nonBlank ts) = filter nonBlank (mergeFrom 0 ts).
Proof.
  induction m as [|m IH]; intros [|t rest] Hlen; simpl in Hlen;
    try reflexivity; try lia.
  assert (Hrest : mergeFrom 0 (filter nonBlank rest) = filter nonBlank (mergeFrom 0 rest))
    by (apply IH; lia).
  cbn [filter]. unfold nonBlank at 1.
  destruct (isBlank t) eqn:Hb; cbn [negb].
  - assert (Hk : isType Keyword t = false).
    { unfold isBlank, isType in *. destruct (type t); try discriminate; reflexivity. }
    cbn [mergeFrom]. rewrite Hk. cbn [filter]. unfold nonBlank at 2.
    rewrite Hb. exact Hrest.
  - assert (Hpass : t :: mergeFrom 0 (filter nonBlank rest)
                    = filter nonBlank (t :: mergeFrom 0 rest)).
    { cbn [filter]. unfold nonBlank at 2. rewrite Hb. cbn [negb]. now rewrite Hrest. }
    cbn [mergeFrom].
    destruct (isType Keyword t); [|exact Hpass].
    destruct (mergeablesOf (value t)) as [sfxs|]; [|exact Hpass].
    pose proof (firstFit_filter sfxs rest) as Hf.
    pose proof (firstFit_consumed sfxs rest) as Hc.
    destruct (firstFit sfxs rest) as [[sfx n]|].
    + destruct Hf as [n' [-> Hn]]. destruct (Hc sfx n eq_refl) as [Hle _].
      cbn [filter]. change (nonBlank (compound t sfx)) with true. cbn iota.
      f_equal. rewrite (mergeFrom_skip _ n'), (mergeFrom_skip _ n), Hn.
      apply IH. rewrite length_skipn. lia.
    + rewrite Hf. exact Hpass.
Qed.

(** X15: the output depends on the tokens that are not whitespace or
    newlines only.  Two token sequences without a LANGUAGE keyword that
    differ in their whitespace and newline tokens only are formatted to the
    same text, or fail in the same way. *)
Theorem layout_of_input_is_ignored : forall CLAUSE_KEYWORDS opts tokens1 tokens2,
  noLanguage tokens1 = true ->
  noLanguage tokens2 = true ->
  filter nonBlank tokens1 = filter nonBlank tokens2 ->
  formatTokens CLAUSE_KEYWORDS opts tokens1 = formatTokens CLAUSE_KEYWORDS opts tokens2.
Proof.
  intros CLAUSE_KEYWORDS opts tokens1 tokens2 H1 H2 Heq.
  unfold formatTokens, mergeUnquotedLanguageBody, mergeClauseKeywords.
  rewrite !languageFrom_without_keyword
    by (eapply mergeFrom_noLanguage; [apply le_n | assumption]).
  rewrite <- (runLoop_filter _ _ (mergeFrom 0 tokens1)).
  rewrite <- (runLoop_filter _ _ (mergeFrom 0 tokens2)).
  rewrite <- !(mergeFrom_filter _ _ (le_n _)), Heq. reflexivity.
Qed.

Lemma layout_of_input_is_ignored_witness :
  formatTokens CLAUSE_KEYWORDS_spec DEFAULT_OPTIONS
    [kwTok "group" "GROUP"; wsTok; kwTok "by" "BY"; wsTok; xTok; tok EOF []]
  = formatTokens CLAUSE_KEYWORDS_spec DEFAULT_OPTIONS
      [nlTok; kwTok "group" "GROUP"; nlTok; wsTok; kwTok "by" "BY"; xTok; wsTok;
       tok EOF []].
Proof.
  apply (layout_of_input_is_ignored CLAUSE_KEYWORDS_spec DEFAULT_OPTIONS
           [kwTok "group" "GROUP"; wsTok; kwTok "by" "BY"; wsTok; xTok; tok EOF []]
           [nlTok; kwTok "group" "GROUP"; nlTok; wsTok; kwTok "by" "BY"; xTok; wsTok;
            tok EOF []]); reflexivity.
Defined.

(* ===================================================================== *)
(** * The options *)
(* ===================================================================== *)

Lemma applyCase_keywordCase opts1 opts2 t :
  keywordCase opts1 = keywordCase opts2 -> applyCase opts1 t = applyCase opts2 t.
Proof. unfold applyCase. now intros ->. Qed.

Lemma renderedTexts_keywordCase opts1 opts2 :
  keywordCase opts1 = keywordCase opts2 ->
  forall ts, renderedTexts opts1 ts = renderedTexts opts2 ts.
Proof.
  intros H. induction ts as [|t ts IH]; [reflexivity|]. cbn [renderedTexts].
  rewrite IH. unfold emitted. now rewrite (applyCase_keywordCase opts1 opts2 t H).
Qed.

(** X16: the indent size and the comma position change white space only.
    Two calls on the same input whose options have the same keyword case
    return texts that are equal once white space is removed. *)
Theorem indent_and_commas_change_white_space_only :
  forall KEYWORDS CLAUSE_KEYWORDS input opts1 opts2 out1 out2,
    keywordCase opts1 = keywordCase opts2 ->
    formatDatabricksSQL KEYWORDS CLAUSE_KEYWORDS input opts1 = Returns out1 ->
    formatDatabricksSQL KEYWORDS CLAUSE_KEYWORDS input opts2 = Returns out2 ->
    strip out1 = strip out2.
Proof.
  intros KEYWORDS CLAUSE_KEYWORDS input opts1 opts2 out1 out2 Hcase H1 H2.
  unfold formatDatabricksSQL in *.
  destruct (tokenize KEYWORDS input) as [tokens| |]; try discriminate.
  apply formatTokens_strip in H1, H2. rewrite H1, H2.
  now rewrite (renderedTexts_keywordCase opts1 opts2 Hcase).
Qed.

Lemma indent_and_commas_change_white_space_only_witness :
  strip (lit "SELECT" ++ [LF] ++ lit "  a," ++ [LF] ++ lit "  b" ++ [LF]
         ++ lit "FROM t" ++ [LF])
  = strip (lit "SELECT" ++ [LF] ++ lit "    a" ++ [LF] ++ lit ", b" ++ [LF]
           ++ lit "FROM t" ++ [LF]).
Proof.
  apply (indent_and_commas_change_white_space_only KEYWORDS_spec CLAUSE_KEYWORDS_spec
           (lit "select a, b from t") DEFAULT_OPTIONS (mkOptions 4 upper leading)).
  - reflexivity.
  - vm_compute. reflexivity.
  - vm_compute. reflexivity.
Defined.

(* ===================================================================== *)
(** * Calls that return *)
(* ===================================================================== *)

(** Running a handler on a state with unknown fields, whatever it ends in. *)
Ltac engine_run H :=
  engine_unfold H;
  repeat (match type of H with
          | context [if ?b then _ else _] => destruct b eqn:?
          | context [match ?x with Some _ => _ | None => _ end] => destruct x eqn:?
          | context [match ?x with [] => _ | _ :: _ => _ end] => destruct x eqn:?
          | context [match ?x with upper => _ | lower => _ | preserve => _ end] =>
              destruct x eqn:?
          | context [match ?x with leading => _ | trailing => _ end] =>
              destruct x eqn:?
          end;
          engine_unfold H).

Lemma count_in_range s l b :
  (0 <= s)%Z -> (0 <= l <= b + 1)%Z -> (s * (b + 1) <= MAX_STRING_LENGTH)%Z ->
  (s * l <? 0)%Z || (MAX_STRING_LENGTH <? s * l)%Z = false.
Proof.
  intros Hs Hl Hm. apply orb_false_iff. split.
  - apply Z.ltb_ge. nia.
  - apply Z.ltb_ge. nia.
Qed.

Lemma size_in_range s b :
  (0 <= s)%Z -> (0 <= b)%Z -> (s * (b + 1) <= MAX_STRING_LENGTH)%Z ->
  (s <? 0)%Z || (MAX_STRING_LENGTH <? s)%Z = false.
Proof.
  intros Hs Hb Hm. apply orb_false_iff. split.
  - apply Z.ltb_ge. lia.
  - apply Z.ltb_ge. nia.
Qed.

Ltac levels_facts :=
  repeat match goal with
         | E : ?x = _ :: _, H : Forall _ ?x |- _ => rewrite E in H
         end;
  repeat match goal with
         | H : Forall _ (_ :: _) |- _ => inversion H; subst; clear H
         end;
  repeat match goal with
         | H : (_ <? _)%Z = true |- _ => apply Z.ltb_lt in H
         | H : (_ <? _)%Z = false |- _ => apply Z.ltb_ge in H
         end.

Ltac no_throw s b :=
  exfalso; levels_facts;
  match goal with
  | H : (?s' * ?l <? 0)%Z || (MAX_STRING_LENGTH <? ?s' * ?l)%Z = true |- _ =>
      rewrite (count_in_range s' l b) in H by (try assumption; lia);
      discriminate H
  | H : (?s' <? 0)%Z || (MAX_STRING_LENGTH <? ?s')%Z = true |- _ =>
      rewrite (size_in_range s' b) in H by assumption; discriminate H
  end.

Ltac levels_leaf :=
  eexists; split; [reflexivity|];
  levels_facts;
  split; cbn [indentLevel caseStack];
  [ lia
  | repeat (constructor; [lia|]);
    first [ constructor
          | eapply Forall_impl; [|eassumption]; cbv beta; intros; lia ] ].

Section Runs.

Variable CLAUSE_KEYWORDS : jsstring -> bool.
Variable opts : FormatOptions.
Variable b : Z.
Hypothesis Hsize : (0 <= indentSize opts)%Z.
Hypothesis Hb : (0 <= b)%Z.
Hypothesis Hmax : (indentSize opts * (b + 1) <= MAX_STRING_LENGTH)%Z.

Ltac runs_all h :=
  let H := fresh "H" in let Hl := fresh "Hl" in let Hc := fresh "Hc" in
  unfold runs; intros st [Hl Hc]; destruct st; cbn [indentLevel caseStack] in Hl, Hc;
  match goal with
  | |- exists st', ?m = _ /\ _ =>
      let r := fresh "r" in remember m as r eqn:H; symmetry in H;
      unfold h in H; engine_run H; subst r
  end;
  first [ levels_leaf | no_throw (indentSize opts) b ].

Lemma runs_handleComment token rest :
  runs b (handleComment CLAUSE_KEYWORDS opts token rest).
Proof. runs_all handleComment. Qed.

Lemma runs_handleSemicolon token : runs b (handleSemicolon token).
Proof. runs_all handleSemicolon. Qed.

Lemma runs_handleOpenParen token rest :
  runs b (handleOpenParen CLAUSE_KEYWORDS opts token rest).
Proof. runs_all handleOpenParen. Qed.

Lemma runs_handleCloseParen token : runs b (handleCloseParen opts token).
Proof. runs_all handleCloseParen. Qed.

Lemma runs_handleCase token : runs b (handleCase opts token).
Proof. runs_all handleCase. Qed.

Lemma runs_handleWhenElse token : runs b (handleWhenElse opts token).
Proof. runs_all handleWhenElse. Qed.

Lemma runs_handleEnd token : runs b (handleEnd opts token).
Proof. runs_all handleEnd. Qed.

Lemma runs_handleCommentKeyword token : runs b (handleCommentKeyword opts token).
Proof. runs_all handleCommentKeyword. Qed.

Lemma runs_handleClause token rest :
  runs b (handleClause CLAUSE_KEYWORDS opts token rest).
Proof. runs_all handleClause. Qed.

Lemma runs_handleComma token : runs b (handleComma opts token).
Proof. runs_all handleComma. Qed.

Lemma runs_handleDot token : runs b (handleDot token).
Proof. runs_all handleDot. Qed.

Lemma runs_handleAfterDot token : runs b (handleAfterDot opts token).
Proof. runs_all handleAfterDot. Qed.

Lemma runs_handleDollarQuoted token : runs b (handleDollarQuoted opts token).
Proof. runs_all handleDollarQuoted. Qed.

Lemma runs_handleDefault token : runs b (handleDefault opts token).
Proof. runs_all handleDefault. Qed.

Lemma levelsIn_weaken st : levelsIn b st -> levelsIn (b + 1) st.
Proof.
  intros [H1 H2]. split; [lia|].
  eapply Forall_impl; [|exact H2]. cbv beta. intros; lia.
Qed.

Lemma trackDdl_levels token st :
  exists st', trackDdl token st = Returns (tt, st')
              /\ indentLevel st' = indentLevel st
              /\ caseStack st' = caseStack st.
Proof.
  destruct st.
  match goal with
  | |- exists st', ?m = _ /\ _ =>
      remember m as r eqn:H; symmetry in H; unfold trackDdl in H; engine_run H;
      subst r
  end.
  all: eexists; split; [reflexivity|]; split; reflexivity.
Qed.

Lemma runs_step token rest st :
  levelsIn b st ->
  exists c st', step CLAUSE_KEYWORDS opts token rest st = Returns (c, st')
                /\ levelsIn (b + 1) st'.
Proof.
  intros Hst. unfold step.
  destruct (isBlank token).
  { exists Continue, st. split; [reflexivity | now apply levelsIn_weaken]. }
  destruct (isComment token).
  { destruct (runs_handleComment token rest st Hst) as [st' [E H]].
    exists Continue, st'. unfold bind. rewrite E. now split. }
  destruct (isType EOF token).
  { exists Break, st. split; [reflexivity | now apply levelsIn_weaken]. }
  destruct (trackDdl_levels token st) as [s1 [Et [El Ec]]].
  assert (Hs1 : levelsIn b s1).
  { destruct Hst as [H1 H2]. split; [now rewrite El | now rewrite Ec]. }
  unfold bind at 1. rewrite Et. unfold bind at 1, get.
  assert (Hh : forall m, runs b m ->
               exists c st', bind m (fun _ => ret Continue) s1 = Returns (c, st')
                             /\ levelsIn (b + 1) st').
  { intros m Hm. destruct (Hm s1 Hs1) as [st' [E H]].
    exists Continue, st'. unfold bind. rewrite E. now split. }
  repeat match goal with
         | |- context [if ?c then _ else _] => destruct c
         end;
  apply Hh;
  auto using runs_handleSemicolon, runs_handleOpenParen, runs_handleCloseParen,
    runs_handleCase, runs_handleWhenElse, runs_handleEnd,
    runs_handleCommentKeyword, runs_handleClause, runs_handleComma,
    runs_handleDot, runs_handleAfterDot, runs_handleDollarQuoted,
    runs_handleDefault.
Qed.

End Runs.

Lemma runs_runLoop CLAUSE_KEYWORDS opts : forall merged b st,
  (0 <= indentSize opts)%Z ->
  (0 <= b)%Z ->
  (indentSize opts * (b + Z.of_nat (length merged)) <= MAX_STRING_LENGTH)%Z ->
  levelsIn b st ->
  exists st', runLoop CLAUSE_KEYWORDS opts merged st = Returns (tt, st').
Proof.
  induction merged as [|token rest IH]; intros b st Hs Hb Hm Hst.
  - now exists st.
  - cbn [length] in Hm.
    destruct (runs_step CLAUSE_KEYWORDS opts b Hs Hb) with token rest st
      as [c [s1 [E H1]]]; [nia | exact Hst |].
    cbn [runLoop]. unfold bind. rewrite E. destruct c; [|now exists s1].
    apply IH with (b + 1)%Z; [exact Hs | lia | | exact H1].
    replace (b + 1 + Z.of_nat (length rest))%Z
      with (b + Z.of_nat (S (length rest)))%Z by lia.
    exact Hm.
Qed.

(* ===================================================================== *)
(** * The layout of the text *)
(* ===================================================================== *)

Lemma isGap_app a b : isGap a = true -> isGap b = true -> isGap (a ++ b) = true.
Proof.
  unfold isGap. intros Ha Hb. rewrite forallb_app.
  apply andb_true_iff. split; assumption.
Qed.

Lemma isGap_repeat n : isGap (repeat SP n) = true.
Proof. induction n; simpl; auto. Qed.

Ltac gap_solve :=
  repeat first [ reflexivity | apply isGap_repeat | apply isGap_app ].

Lemma around_end e : around e e.
Proof. exists [], []. now rewrite app_nil_r. Qed.

Lemma around_here e w' : isGap w' = true -> around e (e ++ w').
Proof. intros H. now exists [], w'. Qed.

Lemma around_skip e a x : isGap a = true -> around e x -> around e (a ++ x).
Proof.
  intros Ha (w & w' & -> & Hw & Hw'). exists (a ++ w), w'.
  split; [now rewrite <- app_assoc | split; [now apply isGap_app | exact Hw']].
Qed.

Ltac around_solve :=
  first [ apply around_end
        | apply around_here; solve [gap_solve]
        | apply around_skip; [solve [gap_solve] | around_solve] ].

Lemma concat_single (x : jsstring) : concat [x] = x.
Proof. apply app_nil_r. Qed.

Lemma returns_state {A} (a1 a2 : A) (s1 s2 : State) :
  Returns (a1, s1) = Returns (a2, s2) -> s2 = s1.
Proof. intros H. now inversion H. Qed.

Ltac writing_all h :=
  let H := fresh "H" in
  intros st u st' H; destruct st; unfold h in H; engine_cases H;
  apply returns_state in H; subst st'; cbv [result];
  rewrite ?concat_app, ?concat_single, <- ?app_assoc;
  eexists; (split; [reflexivity|]); around_solve.

Section Writing.

Variable CLAUSE_KEYWORDS : jsstring -> bool.
Variable opts : FormatOptions.

Lemma writing_handleComment token rest :
  writing (value token) (handleComment CLAUSE_KEYWORDS opts token rest).
Proof. writing_all handleComment. Qed.

Lemma writing_handleSemicolon token : writing (lit ";") (handleSemicolon token).
Proof. writing_all handleSemicolon. Qed.

Lemma writing_handleOpenParen token rest :
  writing (lit "(") (handleOpenParen CLAUSE_KEYWORDS opts token rest).
Proof. writing_all handleOpenParen. Qed.

Lemma writing_handleCloseParen token :
  writing (lit ")") (handleCloseParen opts token).
Proof. writing_all handleCloseParen. Qed.

Lemma writing_handleCase token : writing (applyCase opts token) (handleCase opts token).
Proof. writing_all handleCase. Qed.

Lemma writing_handleWhenElse token :
  writing (applyCase opts token) (handleWhenElse opts token).
Proof. writing_all handleWhenElse. Qed.

Lemma writing_handleEnd token : writing (applyCase opts token) (handleEnd opts token).
Proof. writing_all handleEnd. Qed.

Lemma writing_handleCommentKeyword token :
  writing (applyCase opts token) (handleCommentKeyword opts token).
Proof. writing_all handleCommentKeyword. Qed.

Lemma writing_handleClause token rest :
  writing (applyCase opts token) (handleClause CLAUSE_KEYWORDS opts token rest).
Proof. writing_all handleClause. Qed.

Lemma writing_handleComma token : writing (lit ",") (handleComma opts token).
Proof. writing_all handleComma. Qed.

Lemma writing_handleDot token : writing (lit ".") (handleDot token).
Proof. writing_all handleDot. Qed.

Lemma writing_handleAfterDot token :
  writing (applyCase opts token) (handleAfterDot opts token).
Proof. writing_all handleAfterDot. Qed.

Lemma writing_handleDollarQuoted token :
  writing (value token) (handleDollarQuoted opts token).
Proof. writing_all handleDollarQuoted. Qed.

Lemma writing_handleDefault token :
  writing (applyCase opts token) (handleDefault opts token).
Proof. writing_all handleDefault. Qed.

Lemma isGap_nil : isGap [] = true.
Proof. reflexivity. Qed.

Lemma layoutOf_gap w s es :
  isGap w = true -> layoutOf s es -> layoutOf (w ++ s) es.
Proof.
  intros Hw H. destruct H as [w0 H0|w0 e s es H0 H].
  - constructor. now apply isGap_app.
  - rewrite app_assoc. constructor; [now apply isGap_app | exact H].
Qed.

Lemma step_layout token rest st c st' :
  step CLAUSE_KEYWORDS opts token rest st = Returns (c, st') ->
  (isBlank token = true -> st' = st /\ c = Continue)
  /\ (isBlank token = false -> isType EOF token = true -> st' = st /\ c = Break)
  /\ (isBlank token = false -> isType EOF token = false ->
      c = Continue
      /\ exists x, concat (result st') = concat (result st) ++ x
                   /\ around (emitted opts token) x).
Proof.
  intros H. unfold step in H.
  destruct (isBlank token) eqn:Hb.
  { inversion H; subst. split; [auto|]. split; discriminate. }
  destruct (isComment token) eqn:Hc.
  { apply bind_returns in H as (u & s1 & Hh & H). inversion H; subst.
    apply writing_handleComment in Hh.
    assert (He : isType EOF token = false).
    { unfold isComment, isType in *. destruct (type token); try discriminate; reflexivity. }
    assert (Hem : emitted opts token = value token).
    { unfold emitted, applyCase, isComment, isType in *.
      destruct (type token); try discriminate; reflexivity. }
    rewrite Hem. split; [discriminate|]. split; [intros _ E; congruence|].
    intros _ _. split; [reflexivity | exact Hh]. }
  destruct (isType EOF token) eqn:He.
  { inversion H; subst. split; [discriminate|]. split; [auto | discriminate]. }
  apply bind_returns in H as (u0 & s1 & Ht & H).
  apply trackDdl_frame in Ht as (Hr & _).
  apply bind_returns in H as (s2 & s3 & Hg & H). inversion Hg; subst s2 s3; clear Hg.
  apply bind_returns in H as (u1 & s4 & Hh & H). inversion H; subst; clear H.
  split; [discriminate|]. split; [discriminate|]. intros _ _. split; [reflexivity|].
  rewrite <- Hr. clear Hr. unfold emitted.
  repeat match type of Hh with
         | (if ?b then _ else _) _ = _ => destruct b eqn:?
         end.
  all: lazymatch type of Hh with
       | context [handleSemicolon] => apply writing_handleSemicolon in Hh
       | context [handleOpenParen] => apply writing_handleOpenParen in Hh
       | context [handleCloseParen] => apply writing_handleCloseParen in Hh
       | context [handleCase] => apply writing_handleCase in Hh
       | context [handleWhenElse] => apply writing_handleWhenElse in Hh
       | context [handleEnd] => apply writing_handleEnd in Hh
       | context [handleCommentKeyword] => apply writing_handleCommentKeyword in Hh
       | context [handleClause] => apply writing_handleClause in Hh
       | context [handleComma] => apply writing_handleComma in Hh
       | context [handleDot] => apply writing_handleDot in Hh
       | context [handleAfterDot] => apply writing_handleAfterDot in Hh
       | context [handleDollarQuoted] =>
           apply writing_handleDollarQuoted in Hh;
           match goal with
           | Hd : isType DollarQuotedString _ = true |- _ =>
               rewrite <- (applyCase_dollar opts _ Hd) in Hh
           end
       | context [handleDefault] => apply writing_handleDefault in Hh
       end;
    unfold isKw, isType in *;
    destruct (type token); cbn [TokenType_eqb andb] in *; try discriminate;
    exact Hh.
Qed.

Lemma runLoop_layout : forall merged st u st',
  runLoop CLAUSE_KEYWORDS opts merged st = Returns (u, st') ->
  exists x, concat (result st') = concat (result st) ++ x
            /\ layoutOf x (renderedTexts opts merged).
Proof.
  induction merged as [|token rest IH]; intros st u st' H.
  - inversion H; subst. exists []. split; [now rewrite app_nil_r | now constructor].
  - cbn [runLoop] in H. apply bind_returns in H as (c & s1 & Hs & H).
    apply step_layout in Hs as (H1 & H2 & H3). cbn [renderedTexts].
    destruct (isBlank token).
    + destruct (H1 eq_refl) as [-> ->]. now apply IH in H.
    + destruct (isType EOF token).
      * destruct (H2 eq_refl eq_refl) as [-> ->]. inversion H; subst.
        exists []. split; [now rewrite app_nil_r | now constructor].
      * destruct (H3 eq_refl eq_refl) as [-> [x [Hx (w & w' & -> & Hw & Hw')]]].
        apply IH in H as [y [Hy Hl]]. exists (w ++ emitted opts token ++ w' ++ y).
        split; [rewrite Hy, Hx, <- !app_assoc; reflexivity|].
        constructor; [exact Hw | now apply layoutOf_gap].
Qed.

End Writing.

(** X8: the engine writes every token, and adds spaces and line feeds
    only.  The text that the loop has built when it ends is the texts
    written for the tokens that the merge passes give, in their order and
    each one once (whitespace and newline tokens are passed over, and the
    loop stops at the end-of-input token), with nothing but runs of spaces
    and line feeds before, between and after them.  The output is this
    text, trimmed, and a newline. *)
Theorem engine_adds_only_white_space : forall CLAUSE_KEYWORDS opts tokens out,
  formatTokens CLAUSE_KEYWORDS opts tokens = Returns out ->
  exists st,
    runLoop CLAUSE_KEYWORDS opts
      (mergeUnquotedLanguageBody (mergeClauseKeywords tokens)) initialState
    = Returns (tt, st)
    /\ layoutOf (concat (result st))
         (renderedTexts opts (mergeUnquotedLanguageBody (mergeClauseKeywords tokens)))
    /\ out = trim (concat (result st)) ++ [LF].
Proof.
  intros CLAUSE_KEYWORDS opts tokens out H. unfold formatTokens in H.
  destruct (runLoop CLAUSE_KEYWORDS opts
              (mergeUnquotedLanguageBody (mergeClauseKeywords tokens)) initialState)
    as [[[] st]| |] eqn:E; try discriminate.
  inversion H; subst out; clear H. exists st.
  split; [reflexivity|]. split; [|reflexivity].
  apply runLoop_layout in E as [x [Hx Hl]]. rewrite Hx. exact Hl.
Qed.

Lemma engine_adds_only_white_space_witness :
  exists st,
    runLoop CLAUSE_KEYWORDS_spec DEFAULT_OPTIONS
      (mergeUnquotedLanguageBody
         (mergeClauseKeywords
            [kwTok "select" "SELECT"; wsTok; xTok; tok Comma (lit ","); xTok;
             tok EOF []])) initialState
    = Returns (tt, st)
    /\ layoutOf (concat (result st))
         (renderedTexts DEFAULT_OPTIONS
            (mergeUnquotedLanguageBody
               (mergeClauseKeywords
                  [kwTok "select" "SELECT"; wsTok; xTok; tok Comma (lit ","); xTok;
                   tok EOF []])))
    /\ lit "SELECT" ++ [LF] ++ lit "  x," ++ [LF] ++ lit "  x" ++ [LF]
       = trim (concat (result st)) ++ [LF].
Proof.
  apply (engine_adds_only_white_space CLAUSE_KEYWORDS_spec DEFAULT_OPTIONS
           [kwTok "select" "SELECT"; wsTok; xTok; tok Comma (lit ","); xTok;
            tok EOF []]).
  vm_compute. reflexivity.
Defined.

(* ===================================================================== *)
(** * The length of the text *)
(* ===================================================================== *)

Lemma Forall_levels_weaken b l :
  Forall (fun x => (0 <= x <= b)%Z) l -> Forall (fun x => (0 <= x <= b + 1)%Z) l.
Proof. intros H. eapply Forall_impl; [|exact H]. cbv beta. intros; lia. Qed.

Ltac length_leaf :=
  levels_facts;
  cbv [result];
  rewrite ?concat_app, ?concat_single;
  rewrite ?length_app, ?repeat_length;
  change (length NL) with 1; change (length (@nil char)) with 0;
  cbn [length lit map String.list_ascii_of_string];
  try nia.

Section Lengths.

Variable CLAUSE_KEYWORDS : jsstring -> bool.
Variable opts : FormatOptions.
Variable b : Z.
Hypothesis Hsize : (0 <= indentSize opts)%Z.
Hypothesis Hb : (0 <= b)%Z.

Ltac lengths_all h :=
  let H := fresh "H" in let Hl := fresh "Hl" in let Hc := fresh "Hc" in
  unfold lengthens; intros st u st' [Hl Hc] H; destruct st;
  cbn [indentLevel caseStack] in Hl, Hc;
  unfold h in H; engine_cases H;
  apply returns_state in H; subst st';
  length_leaf.

Lemma lengthens_handleComment token rest :
  lengthens opts b (value token) (handleComment CLAUSE_KEYWORDS opts token rest).
Proof. lengths_all handleComment. Qed.

Lemma lengthens_handleSemicolon token :
  lengthens opts b (lit ";") (handleSemicolon token).
Proof. lengths_all handleSemicolon. Qed.

Lemma lengthens_handleOpenParen token rest :
  lengthens opts b (lit "(") (handleOpenParen CLAUSE_KEYWORDS opts token rest).
Proof. lengths_all handleOpenParen. Qed.

Lemma lengthens_handleCloseParen token :
  lengthens opts b (lit ")") (handleCloseParen opts token).
Proof. lengths_all handleCloseParen. Qed.

Lemma lengthens_handleCase token :
  lengthens opts b (applyCase opts token) (handleCase opts token).
Proof. lengths_all handleCase. Qed.

Lemma lengthens_handleWhenElse token :
  lengthens opts b (applyCase opts token) (handleWhenElse opts token).
Proof. lengths_all handleWhenElse. Qed.

Lemma lengthens_handleEnd token :
  lengthens opts b (applyCase opts token) (handleEnd opts token).
Proof. lengths_all handleEnd. Qed.

Lemma lengthens_handleCommentKeyword token :
  lengthens opts b (applyCase opts token) (handleCommentKeyword opts token).
Proof. lengths_all handleCommentKeyword. Qed.

Lemma lengthens_handleClause token rest :
  lengthens opts b (applyCase opts token) (handleClause CLAUSE_KEYWORDS opts token rest).
Proof. lengths_all handleClause. Qed.

Lemma lengthens_handleComma token :
  lengthens opts b (lit ",") (handleComma opts token).
Proof. lengths_all handleComma. Qed.

Lemma lengthens_handleDot token :
  lengthens opts b (lit ".") (handleDot token).
Proof. lengths_all handleDot. Qed.

Lemma lengthens_handleAfterDot token :
  lengthens opts b (applyCase opts token) (handleAfterDot opts token).
Proof. lengths_all handleAfterDot. Qed.

Lemma lengthens_handleDollarQuoted token :
  lengthens opts b (value token) (handleDollarQuoted opts token).
Proof. lengths_all handleDollarQuoted. Qed.

Lemma lengthens_handleDefault token :
  lengthens opts b (applyCase opts token) (handleDefault opts token).
Proof. lengths_all handleDefault. Qed.

Lemma step_length token rest st c st' :
  levelsIn b st ->
  step CLAUSE_KEYWORDS opts token rest st = Returns (c, st') ->
  length (concat (result st'))
  <= length (concat (result st)) + length (concat (renderedTexts opts [token]))
     + Z.to_nat (indentSize opts * (b + 1)) + 3.
Proof.
  intros Hst H. unfold step in H. cbn [renderedTexts].
  destruct (isBlank token) eqn:Hbl.
  { inversion H; subst. lia. }
  destruct (isComment token) eqn:Hc.
  { apply bind_returns in H as (u & s1 & Hh & H). inversion H; subst.
    apply (lengthens_handleComment token rest _ _ _ Hst) in Hh.
    assert (He : isType EOF token = false).
    { unfold isComment, isType in *. destruct (type token); try discriminate; reflexivity. }
    assert (Hem : emitted opts token = value token).
    { unfold emitted, applyCase, isComment, isType in *.
      destruct (type token); try discriminate; reflexivity. }
    rewrite He, Hem, concat_single. exact Hh. }
  destruct (isType EOF token) eqn:He.
  { inversion H; subst. lia. }
  rewrite concat_single.
  apply bind_returns in H as (u0 & s1 & Ht & H).
  assert (Hs1 : levelsIn b s1 /\ result s1 = result st).
  { destruct (trackDdl_levels token st) as [s1' [Et [El Ec]]].
    rewrite Et in Ht. inversion Ht; subst s1'.
    apply trackDdl_frame in Et as [Hr _].
    destruct Hst as [HL1 HL2].
    split; [split; [now rewrite El | now rewrite Ec] | exact Hr]. }
  destruct Hs1 as [Hs1 Hr].
  apply bind_returns in H as (s2 & s3 & Hg & H). inversion Hg; subst s2 s3; clear Hg.
  apply bind_returns in H as (u1 & s4 & Hh & H). inversion H; subst; clear H.
  rewrite <- Hr. clear Hr Ht. unfold emitted.
  repeat match type of Hh with
         | (if ?c then _ else _) _ = _ => destruct c eqn:?
         end.
  all: lazymatch type of Hh with
       | context [handleSemicolon] =>
           apply (lengthens_handleSemicolon _ _ _ _ Hs1) in Hh
       | context [handleOpenParen] =>
           apply (lengthens_handleOpenParen _ _ _ _ _ Hs1) in Hh
       | context [handleCloseParen] =>
           apply (lengthens_handleCloseParen _ _ _ _ Hs1) in Hh
       | context [handleCase] =>
           apply (lengthens_handleCase _ _ _ _ Hs1) in Hh
       | context [handleWhenElse] =>
           apply (lengthens_handleWhenElse _ _ _ _ Hs1) in Hh
       | context [handleEnd] =>
           apply (lengthens_handleEnd _ _ _ _ Hs1) in Hh
       | context [handleCommentKeyword] =>
           apply (lengthens_handleCommentKeyword _ _ _ _ Hs1) in Hh
       | context [handleClause] =>
           apply (lengthens_handleClause _ _ _ _ _ Hs1) in Hh
       | context [handleComma] =>
           apply (lengthens_handleComma _ _ _ _ Hs1) in Hh
       | context [handleDot] =>
           apply (lengthens_handleDot _ _ _ _ Hs1) in Hh
       | context [handleAfterDot] =>
           apply (lengthens_handleAfterDot _ _ _ _ Hs1) in Hh
       | context [handleDollarQuoted] =>
           apply (lengthens_handleDollarQuoted _ _ _ _ Hs1) in Hh;
           match goal with
           | Hd : isType DollarQuotedString _ = true |- _ =>
               rewrite <- (applyCase_dollar opts _ Hd) in Hh
           end
       | context [handleDefault] =>
           apply (lengthens_handleDefault _ _ _ _ Hs1) in Hh
       end;
    unfold isKw, isType in *;
    destruct (type token); cbn [TokenType_eqb andb] in *; try discriminate;
    exact Hh.
Qed.

End Lengths.

Lemma runLoop_length CLAUSE_KEYWORDS opts : forall merged b st u st',
  (0 <= indentSize opts)%Z ->
  (0 <= b)%Z ->
  (indentSize opts * (b + Z.of_nat (length merged)) <= MAX_STRING_LENGTH)%Z ->
  levelsIn b st ->
  runLoop CLAUSE_KEYWORDS opts merged st = Returns (u, st') ->
  length (concat (result st'))
  <= length (concat (result st)) + length (concat (renderedTexts opts merged))
     + length merged
       * (Z.to_nat (indentSize opts * (b + Z.of_nat (length merged))) + 3).
Proof.
  induction merged as [|token rest IH]; intros b st u st' Hs Hb Hm Hst H.
  - inversion H; subst. simpl. lia.
  - cbn [length] in Hm.
    destruct (runs_step CLAUSE_KEYWORDS opts b Hs Hb) with token rest st
      as [c [s1 [E H1]]]; [nia | exact Hst |].
    assert (Hl : length (concat (result s1))
                 <= length (concat (result st))
                    + length (concat (renderedTexts opts [token]))
                    + Z.to_nat (indentSize opts * (b + 1)) + 3)
      by (eapply step_length; eassumption).
    pose proof (step_layout CLAUSE_KEYWORDS opts token rest st c s1 E) as (L1 & L2 & L3).
    cbn [runLoop] in H. unfold bind in H. rewrite E in H.
    cbn [renderedTexts] in *.
    set (K := Z.to_nat (indentSize opts * (b + Z.of_nat (length (token :: rest)))) + 3).
    assert (HK : Z.to_nat (indentSize opts * (b + 1)) + 3 <= K).
    { unfold K. cbn [length]. nia. }
    assert (HK' : Z.to_nat (indentSize opts * (b + 1 + Z.of_nat (length rest))) + 3 = K).
    { unfold K. cbn [length]. f_equal. f_equal. f_equal. lia. }
    change (length (token :: rest) * K) with (K + length rest * K).
    assert (Hrest : forall c', c = c' -> c' = Continue ->
              length (concat (result st'))
              <= length (concat (result s1))
                 + length (concat (renderedTexts opts rest)) + length rest * K).
    { intros c' -> ->. rewrite <- HK'.
      apply (IH (b + 1)%Z s1 u st'); [exact Hs | lia | | exact H1 | exact H].
      replace (b + 1 + Z.of_nat (length rest))%Z
        with (b + Z.of_nat (S (length rest)))%Z by lia.
      exact Hm. }
    destruct (isBlank token).
    + destruct (L1 eq_refl) as [-> ->]. specialize (Hrest Continue eq_refl eq_refl). lia.
    + destruct (isType EOF token).
      * destruct (L2 eq_refl eq_refl) as [-> ->]. inversion H; subst. simpl. lia.
      * destruct (L3 eq_refl eq_refl) as [-> _].
        specialize (Hrest Continue eq_refl eq_refl).
        rewrite concat_single in Hl. cbn [concat]. rewrite length_app. lia.
Qed.

(** ** The room the tokens take *)

Lemma total_app a b : total (a ++ b) = total a + total b.
Proof. unfold total. now rewrite map_app, list_sum_app. Qed.

Lemma total_split n ts : total ts = total (firstn n ts) + total (skipn n ts).
Proof. now rewrite <- total_app, firstn_skipn. Qed.

Lemma Forall_cut {A} (P : A -> Prop) n l :
  Forall P l -> Forall P (firstn n l) /\ Forall P (skipn n l).
Proof.
  intros H. rewrite <- (firstn_skipn n l) in H. now apply Forall_app in H.
Qed.

Lemma matchParts_total : forall parts ts n,
  parts <> [] ->
  matchParts parts ts = Some n ->
  S (length (joinSpaces parts)) <= total (firstn n ts).
Proof.
  induction parts as [|part parts IH]; intros ts n Hne H; [congruence|].
  cbn [matchParts] in H.
  destruct (skipn (skipBlanks ts) ts) as [|k ts'] eqn:Esk; [discriminate|].
  destruct (isType Keyword k && streq (value k) part) eqn:Ek; [|discriminate].
  apply andb_true_iff in Ek as [_ Eval]. apply streq_eq in Eval.
  destruct (matchParts parts ts') as [m|] eqn:Em; [|discriminate].
  inversion H; subst n; clear H.
  rewrite <- Nat.add_assoc, firstn_add, total_app, Esk.
  change (firstn (1 + m) (k :: ts')) with (k :: firstn m ts').
  change (total (k :: firstn m ts')) with (weight k + total (firstn m ts')).
  unfold weight. rewrite Eval.
  destruct parts as [|q ps].
  - cbn [joinSpaces]. lia.
  - change (joinSpaces (part :: q :: ps)) with (part ++ SP :: joinSpaces (q :: ps)).
    rewrite length_app. cbn [length].
    specialize (IH ts' m ltac:(discriminate) Em). lia.
Qed.

Lemma firstFit_total : forall sfxs ts sfx n,
  firstFit sfxs ts = Some (sfx, n) -> S (length sfx) <= total (firstn n ts).
Proof.
  intros sfxs ts sfx n H. apply firstFit_matchParts in H.
  destruct (join_splitSpaces sfx) as [Hj _]. rewrite <- Hj at 1.
  apply matchParts_total; [apply splitSpaces_nonempty | exact H].
Qed.

Lemma mergeFrom_total : forall m ts,
  length ts <= m -> Forall shortOriginal ts ->
  total (mergeFrom 0 ts) <= total ts /\ Forall shortOriginal (mergeFrom 0 ts).
Proof.
  induction m as [|m IH]; intros [|t rest] Hlen Hall; simpl in Hlen;
    try (split; [reflexivity | constructor]); try lia.
  inversion Hall as [|? ? Ht Hrest]; subst.
  assert (Hpass : total (t :: mergeFrom 0 rest) <= total (t :: rest)
                  /\ Forall shortOriginal (t :: mergeFrom 0 rest)).
  { destruct (IH rest) as [H1 H2]; [lia | exact Hrest |].
    split; [|now constructor].
    change (weight t + total (mergeFrom 0 rest) <= weight t + total rest). lia. }
  simpl mergeFrom.
  destruct (isType Keyword t); [|exact Hpass].
  destruct (mergeablesOf (value t)) as [sfxs|]; [|exact Hpass].
  destruct (firstFit sfxs rest) as [[sfx n]|] eqn:Ef; [|exact Hpass].
  pose proof (firstFit_total _ _ _ _ Ef) as Hn.
  destruct (Forall_cut shortOriginal n rest Hrest) as [_ Hsk].
  rewrite mergeFrom_skip.
  destruct (IH (skipn n rest)) as [H1 H2]; [rewrite length_skipn; lia | exact Hsk |].
  split.
  - change (total (compound t sfx :: mergeFrom 0 (skipn n rest)))
      with (weight (compound t sfx) + total (mergeFrom 0 (skipn n rest))).
    change (total (t :: rest)) with (weight t + total rest).
    rewrite (total_split n rest). unfold weight, compound. cbn [value].
    rewrite length_app. cbn [length]. lia.
  - constructor; [|exact H2]. unfold shortOriginal, compound in *. cbn [original value].
    destruct (original t); [|exact I]. rewrite length_app. lia.
Qed.

Lemma length_dropWhile p : forall s, length (dropWhile p s) <= length s.
Proof.
  induction s as [|c s IH]; simpl; [lia|]. destruct (p c); simpl; lia.
Qed.

Lemma length_trimEnd s : length (trimEnd s) <= length s.
Proof.
  unfold trimEnd. rewrite length_rev.
  pose proof (length_dropWhile isJsSpace (rev s)) as H. now rewrite length_rev in H.
Qed.

Lemma bodyText_length t : shortOriginal t -> length (bodyText t) <= length (value t).
Proof.
  intros H. unfold bodyText, sourceText, shortOriginal in *.
  destruct (isType Newline t); [lia|]. destruct (isType Whitespace t); [lia|].
  destruct (original t); lia.
Qed.

Lemma body_total : forall body,
  Forall shortOriginal body ->
  length (concat (map bodyText body)) + length body <= total body.
Proof.
  induction body as [|t body IH]; intros H; [reflexivity|].
  inversion H; subst. cbn [map concat length]. rewrite length_app.
  change (total (t :: body)) with (weight t + total body). unfold weight.
  pose proof (bodyText_length t H2). specialize (IH H3). lia.
Qed.

Lemma total_cons t ts : total (t :: ts) = weight t + total ts.
Proof. reflexivity. Qed.

Lemma languageFrom_total : forall m ts,
  length ts <= m -> Forall shortOriginal ts ->
  total (languageFrom 0 ts) <= total ts /\ Forall shortOriginal (languageFrom 0 ts).
Proof.
  induction m as [|m IH]; intros [|t rest] Hlen Hall; simpl in Hlen;
    try (split; [reflexivity | constructor]); try lia.
  inversion Hall as [|? ? Ht Hrest]; subst.
  assert (Hpass : total (t :: languageFrom 0 rest) <= total (t :: rest)
                  /\ Forall shortOriginal (t :: languageFrom 0 rest)).
  { destruct (IH rest) as [H1 H2]; [lia | exact Hrest |].
    split; [|now constructor].
    change (weight t + total (languageFrom 0 rest) <= weight t + total rest). lia. }
  simpl languageFrom.
  destruct (negb (isKw "LANGUAGE" t)); [exact Hpass|].
  destruct (languageHeader rest) as [h|] eqn:Eh; [|exact Hpass].
  destruct (languageHeader_consumed rest h Eh) as [Hh _].
  destruct (bodyTokens_split (skipn h rest)) as [Hsplit [_ Hbl]].
  set (body := bodyTokens (skipn h rest)) in *.
  rewrite length_skipn in Hbl.
  destruct (Forall_cut shortOriginal h rest Hrest) as [Hfh Hsh].
  assert (Hbody : Forall shortOriginal body
                  /\ Forall shortOriginal (skipn (length body) (skipn h rest))).
  { rewrite Hsplit in Hsh. now apply Forall_app in Hsh. }
  destruct Hbody as [Hbody Hafter].
  rewrite languageFrom_skip, skipn_add.
  destruct (IH (skipn (length body) (skipn h rest))) as [H1 H2];
    [rewrite !length_skipn; lia | exact Hafter |].
  pose proof (body_total body Hbody) as Hbt.
  pose proof (length_trimEnd (concat (map bodyText body))) as Htr.
  assert (Htot : total rest
                 = total (firstn h rest) + total body
                   + total (skipn (length body) (skipn h rest))).
  { rewrite (total_split h rest). rewrite Hsplit at 1. rewrite total_app. lia. }
  split.
  - rewrite !total_cons, !total_app, Htot.
    destruct (trimEnd (concat (map bodyText body))) as [|c tr] eqn:Et.
    + change (total []) with 0. lia.
    + change (total [tok DollarQuotedString (c :: tr)]) with (S (length (c :: tr)) + 0).
      assert (0 < length body).
      { destruct body; [|simpl; lia]. simpl in Et. discriminate. }
      lia.
  - constructor; [exact Ht|]. apply Forall_app. split; [exact Hfh|].
    apply Forall_app. split; [|exact H2].
    destruct (trimEnd (concat (map bodyText body))); constructor; [exact I | constructor].
Qed.

Lemma emitted_length opts t : shortOriginal t -> length (emitted opts t) <= weight t.
Proof.
  intros H. unfold weight.
  assert (Ha : length (applyCase opts t) <= S (length (value t))).
  { unfold applyCase, shortOriginal, toUpperCase, toLowerCase in *.
    destruct (negb (isType Keyword t)); [lia|].
    destruct (keywordCase opts); rewrite ?length_map; try lia.
    destruct (original t) as [[|c o]|]; lia. }
  unfold emitted. destruct (type t); try exact Ha; simpl; lia.
Qed.

Lemma renderedTexts_total opts : forall ts,
  Forall shortOriginal ts -> length (concat (renderedTexts opts ts)) <= total ts.
Proof.
  induction ts as [|t ts IH]; intros H; [reflexivity|].
  inversion H; subst. cbn [renderedTexts].
  change (total (t :: ts)) with (weight t + total ts). specialize (IH H3).
  destruct (isBlank t); [lia|]. destruct (isType EOF t); [simpl; lia|].
  cbn [concat]. rewrite length_app. pose proof (emitted_length opts t H2). lia.
Qed.

Lemma lexical_short t :
  lexical t -> shortOriginal t /\ length (value t) = length (sourceText t).
Proof.
  intros [Ho _]. unfold shortOriginal, sourceText, originalOk in *.
  destruct (original t) as [o|]; [|auto].
  destruct Ho as [_ ->]. unfold toUpperCase. rewrite length_map. auto.
Qed.

Lemma lexical_total : forall ts,
  Forall lexical ts ->
  total ts = length (concat (map sourceText ts)) + length ts
  /\ Forall shortOriginal ts.
Proof.
  induction ts as [|t ts IH]; intros H; [split; [reflexivity | constructor]|].
  inversion H; subst. destruct (IH H3) as [I1 I2].
  destruct (lexical_short t H2) as [L1 L2]. split; [|now constructor].
  change (total (t :: ts)) with (weight t + total ts).
  cbn [map concat length]. rewrite length_app. unfold weight. lia.
Qed.

Lemma levelsIn_initial : levelsIn 0 initialState.
Proof. split; [simpl; lia | constructor]. Qed.

(** Within the limits, the call returns, and the text it joins at the end
    is shorter than a string may be. *)
Lemma formatDatabricksSQL_returns : forall KEYWORDS CLAUSE_KEYWORDS input opts,
  withinLimits opts input ->
  exists tokens st,
    tokenize KEYWORDS input = Returns tokens
    /\ runLoop CLAUSE_KEYWORDS opts
         (mergeUnquotedLanguageBody (mergeClauseKeywords tokens)) initialState
       = Returns (tt, st)
    /\ formatDatabricksSQL KEYWORDS CLAUSE_KEYWORDS input opts
       = Returns (trim (concat (result st)) ++ [LF])
    /\ (Z.of_nat (length (concat (result st))) < MAX_STRING_LENGTH)%Z.
Proof.
  intros KEYWORDS CLAUSE_KEYWORDS input opts [Hsize Hlim]. cbv zeta in Hlim.
  unfold formatDatabricksSQL.
  destruct (tokenize_total KEYWORDS input) as [tokens Htok]. rewrite Htok.
  pose proof (lexical_tokens KEYWORDS input tokens Htok) as Hlex.
  destruct (tokenizeLoop_lossless KEYWORDS (length input) input (le_n _))
    as [tokens' [Htok' Hcat]].
  unfold tokenize in Htok. rewrite Htok in Htok'. inversion Htok'; subst tokens'.
  destruct (tokenizeLoop_shape KEYWORDS _ _ _ Htok) as [body [Hshape [_ Hlen]]].
  assert (Hcount : length tokens <= S (length input)).
  { rewrite Hshape, length_app. simpl. lia. }
  destruct (lexical_total tokens Hlex) as [Htotal Hshort]. rewrite Hcat in Htotal.
  destruct (mergeFrom_total _ tokens (le_n _) Hshort) as [M1 M2].
  destruct (mergeFrom_content _ tokens (le_n _)) as [_ M3].
  destruct (languageFrom_total _ (mergeFrom 0 tokens) (le_n _) M2) as [L1 L2].
  destruct (languageFrom_ends _ (mergeFrom 0 tokens) (le_n _)) as [_ L3].
  unfold formatTokens, mergeUnquotedLanguageBody, mergeClauseKeywords.
  set (merged := languageFrom 0 (mergeFrom 0 tokens)) in *.
  assert (Hm : length merged <= S (length input)) by lia.
  assert (Hmax : (indentSize opts * (0 + Z.of_nat (length merged))
                  <= MAX_STRING_LENGTH)%Z) by nia.
  destruct (runs_runLoop CLAUSE_KEYWORDS opts merged 0 initialState)
    as [st E]; [exact Hsize | lia | exact Hmax | apply levelsIn_initial |].
  exists tokens, st. split; [reflexivity|]. split; [exact E|].
  split; [now rewrite E|].
  pose proof (runLoop_length CLAUSE_KEYWORDS opts merged 0 initialState tt st
                Hsize (Z.le_refl 0) Hmax levelsIn_initial E) as Hl.
  pose proof (renderedTexts_total opts merged L2) as Hr.
  change (length (concat (result initialState))) with 0 in Hl.
  set (N := (Z.of_nat (length input) + 1)%Z) in *.
  set (K := Z.to_nat (indentSize opts * N)).
  assert (HN : (0 < N)%Z) by (unfold N; lia).
  assert (HK : Z.of_nat K = (indentSize opts * N)%Z).
  { unfold K. apply Z2Nat.id. nia. }
  assert (Hk : Z.to_nat (indentSize opts * (0 + Z.of_nat (length merged))) <= K).
  { unfold K. apply Z2Nat.inj_le; [nia | nia |]. apply Z.mul_le_mono_nonneg_l; lia. }
  assert (Hprod : length merged
                  * (Z.to_nat (indentSize opts * (0 + Z.of_nat (length merged))) + 3)
                  <= S (length input) * (K + 3)).
  { apply Nat.mul_le_mono; lia. }
  assert (Hz : Z.of_nat (S (length input) * (K + 3))
               = (N * (indentSize opts * N + 3))%Z).
  { rewrite Nat2Z.inj_mul, Nat2Z.inj_add, HK. unfold N. lia. }
  assert (Hpos : (0 <= indentSize opts * N * N)%Z).
  { apply Z.mul_nonneg_nonneg; [apply Z.mul_nonneg_nonneg|]; lia. }
  lia.
Qed.





(* ===================================================================== *)
(** * The trimmed text and the last newline *)
(* ===================================================================== *)

Lemma dropWhile_split p : forall s,
  exists w, s = w ++ dropWhile p s /\ forallb p w = true.
Proof.
  induction s as [|x s [w [IH Hw]]]; simpl; [now exists []|].
  destruct (p x) eqn:E; [|now exists []].
  exists (x :: w). simpl. rewrite E, Hw. split; [now rewrite <- IH | reflexivity].
Qed.

Lemma forallb_rev {A} (p : A -> bool) : forall l, forallb p (rev l) = forallb p l.
Proof.
  induction l as [|x l IH]; [reflexivity|]. simpl.
  rewrite forallb_app, IH. simpl. rewrite andb_true_r. apply andb_comm.
Qed.

Lemma trim_split s :
  exists a b, s = a ++ trim s ++ b
              /\ forallb isJsSpace a = true /\ forallb isJsSpace b = true.
Proof.
  unfold trim, trimEnd, trimStart.
  destruct (dropWhile_split isJsSpace s) as [a [Ha Hsa]].
  destruct (dropWhile_split isJsSpace (rev (dropWhile isJsSpace s))) as [b [Hb Hsb]].
  exists a, (rev b). split; [|split; [exact Hsa | now rewrite forallb_rev]].
  rewrite Ha at 1. f_equal.
  apply (f_equal (@rev char)) in Hb. rewrite rev_involutive, rev_app_distr in Hb.
  exact Hb.
Qed.

(** C10: the output is the text of the state in which the loop ends,
    trimmed, followed by one newline.  The trimmed text is that text
    without the white space at its two ends, and has no white space at
    either end, so the output ends with exactly one newline.  The call
    returns whenever the indent size is within the limits of the engine.
    For an input of spaces, tabs and line breaks only, the empty input among
    them, the output is the newline alone. *)
Theorem output_ends_with_one_newline : forall KEYWORDS CLAUSE_KEYWORDS input opts,
  (withinLimits opts input ->
   exists out, formatDatabricksSQL KEYWORDS CLAUSE_KEYWORDS input opts = Returns out)
  /\ (forall out,
        formatDatabricksSQL KEYWORDS CLAUSE_KEYWORDS input opts = Returns out ->
        exists tokens st a b,
          tokenize KEYWORDS input = Returns tokens
          /\ runLoop CLAUSE_KEYWORDS opts
               (mergeUnquotedLanguageBody (mergeClauseKeywords tokens)) initialState
             = Returns (tt, st)
          /\ out = trim (concat (result st)) ++ [LF]
          /\ concat (result st) = a ++ trim (concat (result st)) ++ b
          /\ forallb isJsSpace a = true
          /\ forallb isJsSpace b = true
          /\ noEdgeSpace (trim (concat (result st))))
  /\ (forallb isLayoutChar input = true ->
      formatDatabricksSQL KEYWORDS CLAUSE_KEYWORDS input opts = Returns [LF]).
Proof.
  intros KEYWORDS CLAUSE_KEYWORDS input opts. split; [|split].
  - intros Hlim.
    destruct (formatDatabricksSQL_returns KEYWORDS CLAUSE_KEYWORDS input opts Hlim)
      as (tokens & st & _ & _ & H & _).
    now exists (trim (concat (result st)) ++ [LF]).
  - intros out H. unfold formatDatabricksSQL in H.
    destruct (tokenize KEYWORDS input) as [tokens| |]; try discriminate.
    unfold formatTokens in H.
    destruct (runLoop CLAUSE_KEYWORDS opts
                (mergeUnquotedLanguageBody (mergeClauseKeywords tokens)) initialState)
      as [[[] st]| |] eqn:E; try discriminate.
    inversion H; subst.
    destruct (trim_split (concat (result st))) as [a [b [Hs [Ha Hb]]]].
    exists tokens, st, a, b.
    repeat split; auto; apply trim_noEdgeSpace.
  - intros Hl. unfold formatDatabricksSQL.
    destruct (tokenize_total KEYWORDS input) as [tokens Htok]. rewrite Htok.
    pose proof (tokenizeLoop_layout KEYWORDS (length input) input tokens Hl Htok) as Hb.
    unfold formatTokens, mergeClauseKeywords, mergeUnquotedLanguageBody.
    rewrite (mergeFrom_blankOrEnd tokens Hb), (languageFrom_blankOrEnd tokens Hb).
    now rewrite (runLoop_blankOrEnd CLAUSE_KEYWORDS opts tokens initialState Hb).
Qed.

Lemma output_ends_with_one_newline_witness :
  (exists out,
      formatDatabricksSQL KEYWORDS_spec CLAUSE_KEYWORDS_spec
        (lit "  select a ;  ") DEFAULT_OPTIONS = Returns out)
  /\ (exists tokens st a b,
        tokenize KEYWORDS_spec (lit "  select a ;  ") = Returns tokens
        /\ runLoop CLAUSE_KEYWORDS_spec DEFAULT_OPTIONS
             (mergeUnquotedLanguageBody (mergeClauseKeywords tokens)) initialState
           = Returns (tt, st)
        /\ lit "SELECT a;" ++ [LF] = trim (concat (result st)) ++ [LF]
        /\ concat (result st) = a ++ trim (concat (result st)) ++ b
        /\ forallb isJsSpace a = true
        /\ forallb isJsSpace b = true
        /\ noEdgeSpace (trim (concat (result st))))
  /\ formatDatabricksSQL KEYWORDS_spec CLAUSE_KEYWORDS_spec [] DEFAULT_OPTIONS
     = Returns [LF]
  /\ formatDatabricksSQL KEYWORDS_spec CLAUSE_KEYWORDS_spec [SP; LF; TAB; CR; LF]
       DEFAULT_OPTIONS
     = Returns [LF].
Proof.
  pose proof (output_ends_with_one_newline KEYWORDS_spec CLAUSE_KEYWORDS_spec
                (lit "  select a ;  ") DEFAULT_OPTIONS) as (H1 & H2 & _).
  split; [apply H1; unfold withinLimits, MAX_STRING_LENGTH; simpl; lia|].
  split; [apply H2; vm_compute; reflexivity|].
  split.
  - apply (output_ends_with_one_newline KEYWORDS_spec CLAUSE_KEYWORDS_spec
             [] DEFAULT_OPTIONS). reflexivity.
  - apply (output_ends_with_one_newline KEYWORDS_spec CLAUSE_KEYWORDS_spec
             [SP; LF; TAB; CR; LF] DEFAULT_OPTIONS). reflexivity.
Defined.
